(** * Moka: outcome tree, coverage tree and exit codes

    A shallow embedding of the tree engine of the Moka Gradle test runner:
    the JUnit outcome tree (utils/testsTree.ts), the JaCoCo coverage tree
    (utils/coverage.ts), and the exit-code logic of the [test] and
    [coverage] commands.

    Conventions.
    - A JavaScript number is a binary64 value.  Counts, line numbers and
      millisecond durations are integers far below 2^53, on which
      addition, subtraction and comparison are exact; they are [Z] here.
      A quotient, a product by 100 or 1000 and a decimal attribute are
      rationals ([Q]) rounded to binary64 by [Js.fl], to the nearest
      value with ties to even, subnormal values included; infinities and
      NaN of the arithmetic are not represented.
    - A call that can throw returns a [Js.Completion].
    - A [Map<string, V>] is an association list in insertion order, since
      the renderers iterate it in that order.
    - A function that mutates the tree through a reference returns the
      updated tree. *)

From Stdlib Require Import List ZArith QArith Qround Qabs Qpower.
From Stdlib Require Import String Ascii Bool Lia Lqa.
From Stdlib Require Import DecimalString Sorting.Sorted Sorting.Permutation.
From Stdlib Require Floats Uint63.
Import ListNotations.

Local Open Scope string_scope.
Local Open Scope list_scope.
Local Open Scope Z_scope.

(** ** The JavaScript built-ins the sources rely on *)

Module Js.

(** Template-literal rendering [`${n}`] of an integer. *)
Definition show (z : Z) : string := NilZero.string_of_int (Z.to_int z).

(** [Math.round]: the nearest integer, a tie going towards +infinity. *)
Definition Math_round (q : Q) : Z := Qfloor (q + (1 # 2)).

(** *** binary64 arithmetic

    The operators [/] and [*] return the exact result rounded to
    binary64.  [ilog2 q] is the binary exponent of a positive [q], the
    [k] with [2^k <= q < 2^(k+1)]; a binary64 value near [q] is a
    multiple of [2^(k-52)], and of [2^(-1074)] at least. *)
Definition ilog2 (q : Q) : Z :=
  let k := Z.log2 (Qnum q) - Z.log2 (Z.pos (Qden q)) in
  if Qle_bool (2 ^ k) q then k else k - 1.

(** The nearest integer, a tie going to the even one. *)
Definition round_even (x : Q) : Z :=
  let f := Qfloor x in
  match (x - inject_Z f ?= 1 # 2)%Q with
  | Lt => f
  | Gt => f + 1
  | Eq => if Z.even f then f else f + 1
  end.

Definition exponent (q : Q) : Z := Z.max (ilog2 (Qabs q) - 52) (-1074).

(** The binary64 value of the rational [q], in lowest terms. *)
Definition fl (q : Q) : Q :=
  let q := Qred q in
  if Qeq_bool q 0 then 0%Q
  else
    let e := exponent q in
    Qred (inject_Z (round_even (q / 2 ^ e)) * 2 ^ e).

(** [x / y] and [x * y] on numbers. *)
Definition div (x y : Q) : Q := fl (x / y).
Definition mul (x y : Q) : Q := fl (x * y).

(** [x % y] for a non-negative [x] and a positive [y]; the remainder of
    two binary64 values is one, so nothing is rounded. *)
Definition rem (x y : Q) : Q := (x - y * inject_Z (Qfloor (x / y)))%Q.

(** *** Exceptions

    What a call comes to: the value it returns, or an exception thrown
    out of it. *)
Inductive Completion (A : Type) : Type :=
| Normal : A -> Completion A
| Throw : Completion A.
Arguments Normal {A} _.
Arguments Throw {A}.

(** [for (const x of l) body], the body working on the state [s]; an
    exception thrown by the body ends the loop. *)
Fixpoint for_of {A S : Type} (body : S -> A -> Completion S)
    (l : list A) (s : S) : Completion S :=
  match l with
  | [] => Normal s
  | x :: rest =>
      match body s x with
      | Normal s' => for_of body rest s'
      | Throw => Throw
      end
  end.

(** [Array.prototype.join]. *)
Definition join (sep : string) (l : list string) : string :=
  String.concat sep l.

(** [a ?? d]. *)
Definition nullish {A : Type} (a : option A) (d : A) : A :=
  match a with Some x => x | None => d end.

(** Truthiness of a possibly missing string: [undefined] and [""] are
    falsy. *)
Definition truthy (a : option string) : bool :=
  match a with
  | Some s => negb (String.eqb s "")
  | None => false
  end.

(** [a || d] on a possibly missing string. *)
Definition or_else (a : option string) (d : string) : string :=
  match a with
  | Some s => if String.eqb s "" then d else s
  | None => d
  end.

(** [x < y] on numbers, as a boolean. *)
Definition Qltb (x y : Q) : bool := negb (Qle_bool y x).

Section MapOps.
Context {V : Type}.

Definition Map : Type := list (string * V).

Fixpoint get (k : string) (m : Map) : option V :=
  match m with
  | [] => None
  | (k', v) :: r => if String.eqb k' k then Some v else get k r
  end.

(** [Map.prototype.set]: an existing key keeps its position, a new key
    goes last. *)
Fixpoint set (k : string) (v : V) (m : Map) : Map :=
  match m with
  | [] => [(k, v)]
  | (k', v') :: r =>
      if String.eqb k' k then (k, v) :: r else (k', v') :: set k v r
  end.

Definition keys (m : Map) : list string := map fst m.
Definition values (m : Map) : list V := map snd m.
End MapOps.
Arguments Map : clear implicits.

(** [Array.prototype.sort(cmp)].  The standard asks for a stable sort;
    for a comparator that is a total preorder every conforming
    implementation returns the list computed here. *)
Section Sort.
Context {A : Type} (cmp : A -> A -> Z).

Fixpoint insert (x : A) (l : list A) : list A :=
  match l with
  | [] => [x]
  | y :: r => if 0 <? cmp y x then x :: y :: r else y :: insert x r
  end.

Definition sort (l : list A) : list A :=
  fold_left (fun acc x => insert x acc) l [].
End Sort.

(** [String.prototype.split] on a one-character separator. *)
Fixpoint split (sep : ascii) (s : string) : list string :=
  match s with
  | EmptyString => [""]
  | String c r =>
      if Ascii.eqb c sep then "" :: split sep r
      else match split sep r with
           | h :: t => String c h :: t
           | [] => [String c ""]
           end
  end.

(** [s.replace(/\./g, "/")]. *)
Fixpoint replace_all (from to : ascii) (s : string) : string :=
  match s with
  | EmptyString => EmptyString
  | String c r =>
      String (if Ascii.eqb c from then to else c) (replace_all from to r)
  end.

(** [s.endsWith(suffix)]. *)
Definition endsWith (s suffix : string) : bool :=
  let n := String.length s in
  let k := String.length suffix in
  (k <=? n)%nat && String.eqb (substring (n - k) k s) suffix.

(** [s.lastIndexOf(c)], [None] standing for -1. *)
Fixpoint lastIndexOf (c : ascii) (s : string) : option nat :=
  match s with
  | EmptyString => None
  | String a r =>
      match lastIndexOf c r with
      | Some i => Some (S i)
      | None => if Ascii.eqb a c then Some O else None
      end
  end.

(** [s.slice(from)] and [s.slice(0, to)]. *)
Definition slice_from (from : nat) (s : string) : string :=
  substring from (String.length s - from) s.
Definition slice_to (to : nat) (s : string) : string :=
  substring 0 to s.

End Js.

(** ** utils/coverage.ts: the coverage tree *)

Module Coverage.

Record SourceFile : Type := mkSourceFile {
  sf_name : string;
  sf_linesCovered : Z;
  sf_linesMissed : Z;
  sf_funcsCovered : Z;
  sf_funcsMissed : Z;
  sf_uncoveredLines : list Z
}.

(** The four aggregates are optional fields of the source type: a node
    carries none of them until [aggregateCoverage] has visited it. *)
Local Unset Elimination Schemes.
Inductive PackageNode : Type := mkPackageNode {
  pn_name : string;
  pn_fullName : string;
  pn_sourcefile : list SourceFile;
  pn_children : list (string * PackageNode);
  pn_linesCovered : option Z;
  pn_linesMissed : option Z;
  pn_funcsCovered : option Z;
  pn_funcsMissed : option Z
}.
Local Set Elimination Schemes.

Definition pctInt (covered missed : Z) : Z :=
  let total := covered + missed in
  if total =? 0 then 0
  else
    Js.Math_round
      (Js.mul (Js.div (inject_Z covered) (inject_Z total)) 100).

(** One token of the output: [s === e ? `${s}` : `${s}-${e}`]. *)
Definition range_token (s e : Z) : string :=
  if s =? e then Js.show s else (Js.show s ++ "-" ++ Js.show e)%string.

(** The loop body of [compressLines]; the state is [(s, e, out)]. *)
Definition compress_step (st : Z * Z * list string) (v : Z)
  : Z * Z * list string :=
  let '(s, e, out) := st in
  if v =? e + 1 then (s, v, out)
  else (v, v, out ++ [range_token s e]).

Definition compressLines (lines : list Z) : string :=
  match lines with
  | [] => ""
  | x :: rest =>
      let '(s, e, out) := fold_left compress_step rest (x, x, []) in
      Js.join "," (out ++ [range_token s e])
  end.

(** *** The decoded JaCoCo report

    [buildCoverageTreeFromJaCoCo] reads what fast-xml-parser returns.
    With the [isArray] option of the source, [package], [sourcefile],
    [line], [counter] and [class] are arrays, so [ensureArray] gives a
    list (empty when the element is absent).  An attribute is [None] when
    absent; numeric attributes hold the value of the unary plus. *)

Record Counter : Type := mkCounter {
  ct_type : option string;
  ct_covered : option Z;
  ct_missed : option Z
}.

Record LineEntry : Type := mkLineEntry {
  ln_nr : Z;
  ln_mi : option Z;
  ln_ci : option Z;
  ln_mb : option Z;
  ln_cb : option Z
}.

Record XmlSourceFile : Type := mkXmlSourceFile {
  xs_name : option string;
  xs_counter : list Counter;
  xs_line : list LineEntry
}.

Record XmlClass : Type := mkXmlClass {
  xc_sourcefilename : option string;
  xc_counter : list Counter
}.

Record XmlPackage : Type := mkXmlPackage {
  xp_name : option string;
  xp_sourcefile : list XmlSourceFile;
  xp_class : list XmlClass
}.

(** [counters.find((c) => c["@_type"] === ty)]. *)
Definition find_counter (ty : string) (cs : list Counter) : option Counter :=
  find (fun c => match ct_type c with
                 | Some t => String.eqb t ty
                 | None => false
                 end) cs.

(** [+(counter?.["@_covered"] ?? 0)] and [+(counter?.["@_missed"] ?? 0)]. *)
Definition covered_of (c : option Counter) : Z :=
  match c with Some c => Js.nullish (ct_covered c) 0 | None => 0 end.
Definition missed_of (c : option Counter) : Z :=
  match c with Some c => Js.nullish (ct_missed c) 0 | None => 0 end.

(** The filter on [<line>] entries: executable (instructions or branches)
    and none covered. *)
Definition is_uncovered (l : LineEntry) : bool :=
  let mi := Js.nullish (ln_mi l) 0 in
  let ci := Js.nullish (ln_ci l) 0 in
  let mb := Js.nullish (ln_mb l) 0 in
  let cb := Js.nullish (ln_cb l) 0 in
  (0 <? mi + mb) && (ci + cb =? 0).

Definition uncoveredLines_of (lineEntries : list LineEntry) : list Z :=
  Js.sort (fun a b => a - b) (map ln_nr (filter is_uncovered lineEntries)).

Definition sourceFile_of (sf : XmlSourceFile) : SourceFile :=
  let name := Js.nullish (xs_name sf) "unknown" in
  let lineCounter := find_counter "LINE" (xs_counter sf) in
  let methodCounter := find_counter "METHOD" (xs_counter sf) in
  {| sf_name := name;
     sf_linesCovered := covered_of lineCounter;
     sf_linesMissed := missed_of lineCounter;
     sf_funcsCovered := covered_of methodCounter;
     sf_funcsMissed := missed_of methodCounter;
     sf_uncoveredLines := uncoveredLines_of (xs_line sf) |}.

(** Running totals of the four counters: the locals [lc], [lm], [fc],
    [fm] of [aggregateCoverage] and the entries of [grouped]. *)
Record Totals : Type := mkTotals {
  linesCovered : Z;
  linesMissed : Z;
  funcsCovered : Z;
  funcsMissed : Z
}.

Definition zeroTotals : Totals := mkTotals 0 0 0 0.

Definition addTotals (a b : Totals) : Totals :=
  {| linesCovered := linesCovered a + linesCovered b;
     linesMissed := linesMissed a + linesMissed b;
     funcsCovered := funcsCovered a + funcsCovered b;
     funcsMissed := funcsMissed a + funcsMissed b |}.

(** The fallback through [<class>] counters, grouped by
    [sourcefilename]. *)
Definition group_step (grouped : Js.Map Totals) (c : XmlClass)
  : Js.Map Totals :=
  let sfname := Js.nullish (xc_sourcefilename c) "unknown" in
  let lineCounter := find_counter "LINE" (xc_counter c) in
  let methodCounter := find_counter "METHOD" (xc_counter c) in
  let g := Js.nullish (Js.get sfname grouped) zeroTotals in
  Js.set sfname
    (addTotals g
       (mkTotals (covered_of lineCounter) (missed_of lineCounter)
                 (covered_of methodCounter) (missed_of methodCounter)))
    grouped.

Definition sourceFile_of_group (entry : string * Totals) : SourceFile :=
  let (name, g) := entry in
  {| sf_name := name;
     sf_linesCovered := linesCovered g;
     sf_linesMissed := linesMissed g;
     sf_funcsCovered := funcsCovered g;
     sf_funcsMissed := funcsMissed g;
     sf_uncoveredLines := [] |}.

Definition newNode (part path : string) : PackageNode :=
  {| pn_name := part;
     pn_fullName := path;
     pn_sourcefile := [];
     pn_children := [];
     pn_linesCovered := None;
     pn_linesMissed := None;
     pn_funcsCovered := None;
     pn_funcsMissed := None |}.

Definition root0 : PackageNode := newNode "All files" "".

Definition with_children (n : PackageNode)
    (cs : list (string * PackageNode)) : PackageNode :=
  mkPackageNode (pn_name n) (pn_fullName n) (pn_sourcefile n) cs
    (pn_linesCovered n) (pn_linesMissed n)
    (pn_funcsCovered n) (pn_funcsMissed n).

Definition with_sourcefile (n : PackageNode)
    (sfs : list SourceFile) : PackageNode :=
  mkPackageNode (pn_name n) (pn_fullName n) sfs (pn_children n)
    (pn_linesCovered n) (pn_linesMissed n)
    (pn_funcsCovered n) (pn_funcsMissed n).

(** The walk [for (const part of parts)] from [cur], creating the
    missing nodes, followed by [f] applied to the node reached.  The
    source holds a reference to that node and mutates it; here the spine
    above it is rebuilt, each child staying at its position in the
    map. *)
Fixpoint at_path (parts : list string) (path : string)
    (f : PackageNode -> PackageNode) (cur : PackageNode) : PackageNode :=
  match parts with
  | [] => f cur
  | part :: rest =>
      let path' :=
        if String.eqb path "" then part else (path ++ "/" ++ part)%string in
      let child :=
        match Js.get part (pn_children cur) with
        | Some c => c
        | None => newNode part path'
        end in
      with_children cur
        (Js.set part (at_path rest path' f child) (pn_children cur))
  end.

Section WithCollation.

(** [String.prototype.localeCompare], whose order is the host's. *)
Variable localeCompare : string -> string -> Z.

(** What one iteration of [for (const pkg of pkgs)] does to the node
    [cur] it has walked to. *)
Definition attach (pkg : XmlPackage) (cur : PackageNode) : PackageNode :=
  let sourcefiles := xp_sourcefile pkg in
  let pushed :=
    if (0 <? List.length sourcefiles)%nat
    then pn_sourcefile cur ++ map sourceFile_of sourcefiles
    else
      let grouped := fold_left group_step (xp_class pkg) [] in
      pn_sourcefile cur ++ map sourceFile_of_group grouped in
  with_sourcefile cur
    (Js.sort (fun a b => localeCompare (sf_name a) (sf_name b)) pushed).

Definition addPackage (root : PackageNode) (pkg : XmlPackage)
  : PackageNode :=
  let pkgName :=
    Js.replace_all "."%char "/"%char (Js.nullish (xp_name pkg) "") in
  let parts :=
    if String.eqb pkgName "" then [] else Js.split "/"%char pkgName in
  at_path parts "" (attach pkg) root.

Definition file_totals (f : SourceFile) : Totals :=
  mkTotals (sf_linesCovered f) (sf_linesMissed f)
           (sf_funcsCovered f) (sf_funcsMissed f).

(** [child.linesCovered ?? 0] and its three siblings. *)
Definition node_totals (n : PackageNode) : Totals :=
  mkTotals (Js.nullish (pn_linesCovered n) 0)
           (Js.nullish (pn_linesMissed n) 0)
           (Js.nullish (pn_funcsCovered n) 0)
           (Js.nullish (pn_funcsMissed n) 0).

(** The children are aggregated in map order, their totals and then
    the files' totals are added up from zero, and the map is rebuilt
    from its entries sorted by key. *)
Fixpoint aggregateCoverage (pkg : PackageNode) : PackageNode :=
  let children :=
    map (fun kc => (fst kc, aggregateCoverage (snd kc)))
        (pn_children pkg) in
  let t :=
    fold_left (fun acc child => addTotals acc (node_totals child))
              (Js.values children) zeroTotals in
  let t :=
    fold_left (fun acc f => addTotals acc (file_totals f))
              (pn_sourcefile pkg) t in
  {| pn_name := pn_name pkg;
     pn_fullName := pn_fullName pkg;
     pn_sourcefile := pn_sourcefile pkg;
     pn_children :=
       Js.sort (fun a b => localeCompare (fst a) (fst b)) children;
     pn_linesCovered := Some (linesCovered t);
     pn_linesMissed := Some (linesMissed t);
     pn_funcsCovered := Some (funcsCovered t);
     pn_funcsMissed := Some (funcsMissed t) |}.

(** The argument is the report at [xmlPath]: [None] when the file does
    not exist, otherwise [ensureArray(data?.report?.package)]. *)
Definition buildCoverageTreeFromJaCoCo
    (report : option (list XmlPackage)) : option PackageNode :=
  match report with
  | None => None
  | Some pkgs =>
      if (List.length pkgs =? 0)%nat then None
      else Some (aggregateCoverage (fold_left addPackage pkgs root0))
  end.

End WithCollation.

(** Induction on a node with the hypothesis for every child. *)
Section Induction.
Variable P : PackageNode -> Prop.
Hypothesis step :
  forall name fullName sfs children lc lm fc fm,
    Forall (fun kc => P (snd kc)) children ->
    P (mkPackageNode name fullName sfs children lc lm fc fm).

Fixpoint PackageNode_ind (n : PackageNode) : P n :=
  match n with
  | mkPackageNode name fullName sfs children lc lm fc fm =>
      step name fullName sfs children lc lm fc fm
        ((fix go (l : list (string * PackageNode))
            : Forall (fun kc => P (snd kc)) l :=
            match l with
            | [] => Forall_nil _
            | kc :: r =>
                Forall_cons kc (PackageNode_ind (snd kc)) (go r)
            end) children)
  end.
End Induction.

(** [subnode root n]: [n] is [root] or one of its descendants. *)
Inductive subnode : PackageNode -> PackageNode -> Prop :=
| subnode_here : forall n, subnode n n
| subnode_child : forall n k c m,
    In (k, c) (pn_children n) -> subnode c m -> subnode n m.

End Coverage.

(** ** utils/ui.ts: the ANSI colours *)

Module Ui.

Definition esc : string := String (ascii_of_nat 27) "".
Definition nl : string := String (ascii_of_nat 10) "".

Record Colors : Type := mkColors {
  reset : string;
  bold : string;
  dim : string;
  red : string;
  green : string;
  yellow : string;
  gray : string
}.

Definition colors : Colors :=
  {| reset := esc ++ "[0m";
     bold := esc ++ "[1m";
     dim := esc ++ "[2m";
     red := esc ++ "[31m";
     green := esc ++ "[32m";
     yellow := esc ++ "[33m";
     gray := esc ++ "[90m" |}%string.

End Ui.

(** ** utils/testsTree.ts: the outcome tree *)

Module TestsTree.

Inductive TestStatus : Type := Passed | Failed | Skipped.

Definition status_eqb (a b : TestStatus) : bool :=
  match a, b with
  | Passed, Passed | Failed, Failed | Skipped, Skipped => true
  | _, _ => false
  end.

Record TestCaseNode : Type := mkTestCaseNode {
  tc_name : string;
  tc_durationMs : Z;
  tc_status : TestStatus;
  tc_failureMessage : option string;
  tc_failureType : option string;
  tc_failureDetail : option string
}.

Record Counts : Type := mkCounts {
  passed : Z;
  failed : Z;
  skipped : Z
}.

Record TestClassNode : Type := mkTestClassNode {
  cls_name : string;
  cls_fullName : string;
  cls_cases : list TestCaseNode;
  cls_counts : Counts;
  cls_durationMs : Z
}.

Local Unset Elimination Schemes.
Inductive TestPackageNode : Type := mkTestPackageNode {
  pkg_name : string;
  pkg_fullName : string;
  pkg_children : list (string * TestPackageNode);
  pkg_classes : list (string * TestClassNode);
  pkg_counts : Counts;
  pkg_durationMs : Z
}.
Local Set Elimination Schemes.

Record TestTreeOptions : Type := mkTestTreeOptions {
  includeTests : bool;
  failuresOnly : bool
}.

(** *** The decoded JUnit reports

    A value that fast-xml-parser gives as one object or as an array of
    objects is a [OneOrMany]; [Absent] covers a missing and a falsy
    value.  [x_failure] and [x_error] hold the element when it is
    truthy, and [x_skipped] is the truthiness of [tc.skipped]: an
    element without attribute and without text is parsed to the empty
    string, which is falsy.  [x_time] is the decimal number written in
    the [time] attribute, [None] when the attribute is missing or is not
    a number. *)

Inductive OneOrMany (A : Type) : Type :=
| Absent : OneOrMany A
| One : A -> OneOrMany A
| Many : list A -> OneOrMany A.
Arguments Absent {A}.
Arguments One {A} _.
Arguments Many {A} _.

Record XmlFailure : Type := mkXmlFailure {
  xf_message : option string;
  xf_type : option string;
  xf_text : option string
}.

Record XmlTestCase : Type := mkXmlTestCase {
  x_name : option string;
  x_time : option Q;
  x_classname : option string;
  x_failure : option XmlFailure;
  x_error : option XmlFailure;
  x_skipped : bool;
  x_status : option string
}.

Record XmlSuite : Type := mkXmlSuite {
  s_name : option string;
  s_testcase : OneOrMany XmlTestCase
}.

Record XmlData : Type := mkXmlData {
  d_testsuite : OneOrMany XmlSuite;
  d_testsuites_testsuite : OneOrMany XmlSuite
}.

(** An entry of [readdirSync(dir)]: its name, what [statSync(p)] comes
    to ([Js.Throw] when the entry cannot be examined, otherwise the
    answer of [isFile()]), and the parsed content, [None] when reading
    or parsing throws. *)
Record DirEntry : Type := mkDirEntry {
  e_name : string;
  e_isFile : Js.Completion bool;
  e_parsed : option XmlData
}.

(** *** Helpers *)

(** A [data.testsuite] that is an array is wrapped as it is; read as a
    suite it has no name and no test case. *)
Definition normalizeSuites (data : XmlData) : list XmlSuite :=
  match d_testsuite data with
  | One s => [s]
  | Many _ => [mkXmlSuite None Absent]
  | Absent =>
      match d_testsuites_testsuite data with
      | Absent => []
      | One s => [s]
      | Many ss => ss
      end
  end.

Definition normalizeCases (suite : XmlSuite) : list XmlTestCase :=
  match s_testcase suite with
  | Absent => []
  | One t => [t]
  | Many ts => ts
  end.

Definition splitClassName (classname : string)
  : list string * string * string :=
  match Js.lastIndexOf "."%char classname with
  | None => ([], classname, classname)
  | Some lastDot =>
      let pkgStr := Js.slice_to lastDot classname in
      let className := Js.slice_from (lastDot + 1) classname in
      (filter (fun p => negb (String.eqb p "")) (Js.split "."%char pkgStr),
       className, classname)
  end.

(** [tc.failure || tc.error]. *)
Definition failure_or_error (tc : XmlTestCase) : option XmlFailure :=
  match x_failure tc with
  | Some f => Some f
  | None => x_error tc
  end.

Definition classify (tc : XmlTestCase) : TestStatus :=
  match failure_or_error tc with
  | Some _ => Failed
  | None =>
      if x_skipped tc
         || match x_status tc with
            | Some s => String.eqb s "skipped"
            | None => false
            end
      then Skipped
      else Passed
  end.

Definition failureMessage (tc : XmlTestCase) : option string :=
  match failure_or_error tc with
  | None => None
  | Some f => xf_message f
  end.

Definition failureType (tc : XmlTestCase) : option string :=
  match failure_or_error tc with
  | None => None
  | Some f => xf_type f
  end.

Definition failureDetail (tc : XmlTestCase) : option string :=
  match failure_or_error tc with
  | None => None
  | Some f => xf_text f
  end.

Definition zeroCounts : Counts := mkCounts 0 0 0.

Definition newPackage (part full : string) : TestPackageNode :=
  {| pkg_name := part;
     pkg_fullName := full;
     pkg_children := [];
     pkg_classes := [];
     pkg_counts := zeroCounts;
     pkg_durationMs := 0 |}.

Definition newClass (className fullName : string) : TestClassNode :=
  {| cls_name := className;
     cls_fullName := fullName;
     cls_cases := [];
     cls_counts := zeroCounts;
     cls_durationMs := 0 |}.

Definition with_children (n : TestPackageNode)
    (cs : list (string * TestPackageNode)) : TestPackageNode :=
  mkTestPackageNode (pkg_name n) (pkg_fullName n) cs (pkg_classes n)
    (pkg_counts n) (pkg_durationMs n).

Definition with_classes (n : TestPackageNode)
    (cs : list (string * TestClassNode)) : TestPackageNode :=
  mkTestPackageNode (pkg_name n) (pkg_fullName n) (pkg_children n) cs
    (pkg_counts n) (pkg_durationMs n).

(** [ensurePackage] returns a reference to the node at [path], creating
    what is missing on the way.  The caller's use of the reference is
    the continuation [k]; the spine above the node is rebuilt with each
    child at its position in the map. *)
Fixpoint ensurePackage (cur : TestPackageNode) (path : list string)
    (full : string) (k : TestPackageNode -> TestPackageNode)
  : TestPackageNode :=
  match path with
  | [] => k cur
  | part :: rest =>
      let full' :=
        if String.eqb full "" then part else (full ++ "." ++ part)%string in
      let child :=
        match Js.get part (pkg_children cur) with
        | Some c => c
        | None => newPackage part full'
        end in
      with_children cur
        (Js.set part (ensurePackage child rest full' k) (pkg_children cur))
  end.

(** [ensureClass] likewise, with [k] for what is done to the class. *)
Definition ensureClass (pkg : TestPackageNode) (className fullName : string)
    (k : TestClassNode -> TestClassNode) : TestPackageNode :=
  let cls :=
    match Js.get className (pkg_classes pkg) with
    | Some c => c
    | None => newClass className fullName
    end in
  with_classes pkg (Js.set className (k cls) (pkg_classes pkg)).

(** [cls.cases.push(caseNode)]. *)
Definition push_case (caseNode : TestCaseNode) (cls : TestClassNode)
  : TestClassNode :=
  mkTestClassNode (cls_name cls) (cls_fullName cls)
    (cls_cases cls ++ [caseNode]) (cls_counts cls) (cls_durationMs cls).

(** [+tc["@_time"] || 0]: the unary plus gives the binary64 value of
    the decimal, and NaN and 0 are falsy. *)
Definition timeSec_of (tc : XmlTestCase) : Q :=
  match x_time tc with
  | Some q => if Qeq_bool (Js.fl q) 0 then 0%Q else Js.fl q
  | None => 0%Q
  end.

(** The [caseNode] literal of [buildTestsTree]. *)
Definition caseNode_of (tc : XmlTestCase) : TestCaseNode :=
  {| tc_name := Js.nullish (x_name tc) "unknown";
     tc_durationMs := Js.Math_round (Js.mul (timeSec_of tc) 1000);
     tc_status := classify tc;
     tc_failureMessage := failureMessage tc;
     tc_failureType := failureType tc;
     tc_failureDetail := failureDetail tc |}.

(** [tc["@_classname"] || s["@_name"] || "unknown.UnknownClass"]. *)
Definition classname_of (s : XmlSuite) (tc : XmlTestCase) : string :=
  Js.or_else (x_classname tc) (Js.or_else (s_name s) "unknown.UnknownClass").

(** The body of [for (const tc of cases)]. *)
Definition add_case (s : XmlSuite) (root : TestPackageNode)
    (tc : XmlTestCase) : TestPackageNode :=
  let '(pkgPath, className, fullName) := splitClassName (classname_of s tc) in
  let caseNode := caseNode_of tc in
  ensurePackage root pkgPath ""
    (fun pkgNode =>
       ensureClass pkgNode className fullName (push_case caseNode)).

Definition add_suite (root : TestPackageNode) (s : XmlSuite)
  : TestPackageNode :=
  fold_left (add_case s) (normalizeCases s) root.

(** The body of [for (const f of files)]: an entry that is not a file,
    or whose content does not parse, is passed over.  [statSync] is
    called outside the [try], so what it throws leaves the loop and
    [buildTestsTree]. *)
Definition add_file (root : TestPackageNode) (f : DirEntry)
  : Js.Completion TestPackageNode :=
  match e_isFile f with
  | Js.Throw => Js.Throw
  | Js.Normal isFile =>
      if negb isFile then Js.Normal root
      else match e_parsed f with
           | None => Js.Normal root
           | Some data =>
               Js.Normal (fold_left add_suite (normalizeSuites data) root)
           end
  end.

Definition addCounts (a b : Counts) : Counts :=
  {| passed := passed a + passed b;
     failed := failed a + failed b;
     skipped := skipped a + skipped b |}.

(** [counts[c.status]++]. *)
Definition bump (counts : Counts) (s : TestStatus) : Counts :=
  match s with
  | Passed => mkCounts (passed counts + 1) (failed counts) (skipped counts)
  | Failed => mkCounts (passed counts) (failed counts + 1) (skipped counts)
  | Skipped => mkCounts (passed counts) (failed counts) (skipped counts + 1)
  end.

(** The inner loop of [aggregate] over the cases of one class, and the
    two assignments to the class that follow it. *)
Definition aggregateClass (cls : TestClassNode) : TestClassNode :=
  let acc :=
    fold_left
      (fun acc c => (fst acc + tc_durationMs c, bump (snd acc) (tc_status c)))
      (cls_cases cls) (0, zeroCounts) in
  mkTestClassNode (cls_name cls) (cls_fullName cls) (cls_cases cls)
    (snd acc) (fst acc).

(** [aggregate] adds to the [durationMs] and [counts] the node already
    has: first the numbers of its classes, each computed anew from its
    cases, then those of its children, each aggregated before it is
    added. *)
Fixpoint aggregate (node : TestPackageNode) : TestPackageNode :=
  let classes :=
    map (fun kc => (fst kc, aggregateClass (snd kc))) (pkg_classes node) in
  let acc :=
    fold_left
      (fun acc cls =>
         (fst acc + cls_durationMs cls, addCounts (snd acc) (cls_counts cls)))
      (Js.values classes) (pkg_durationMs node, pkg_counts node) in
  let children :=
    map (fun kc => (fst kc, aggregate (snd kc))) (pkg_children node) in
  let acc :=
    fold_left
      (fun acc child =>
         (fst acc + pkg_durationMs child,
          addCounts (snd acc) (pkg_counts child)))
      (Js.values children) acc in
  {| pkg_name := pkg_name node;
     pkg_fullName := pkg_fullName node;
     pkg_children := children;
     pkg_classes := classes;
     pkg_counts := snd acc;
     pkg_durationMs := fst acc |}.

Definition root0 : TestPackageNode := newPackage "All tests" "".

(** The argument is the listing that [readdirSync(dir)] returns, [None]
    when [dir] does not exist. *)
Definition buildTestsTree (dir : option (list DirEntry))
  : Js.Completion (option TestPackageNode) :=
  match dir with
  | None => Js.Normal None
  | Some entries =>
      let files := filter (fun f => Js.endsWith (e_name f) ".xml") entries in
      match Js.for_of add_file files root0 with
      | Js.Normal root => Js.Normal (Some (aggregate root))
      | Js.Throw => Js.Throw
      end
  end.

(** *** Rendering *)

(** What a line of the rendered tree stands for.  [renderPkg] appends
    to [out] one line at a time; [renderLines] keeps the lines apart,
    each with the node it was printed for, and [renderPkg] is their
    concatenation. *)
Inductive Shown : Type :=
| ShownPackage : TestPackageNode -> Shown
| ShownClass : TestClassNode -> Shown
| ShownCase : TestCaseNode -> Shown
| ShownDetail : TestCaseNode -> Shown.

(** The elements of an array with their indices, for the loops
    [for (let i = 0; i < a.length; i++)]. *)
Definition indexed {A : Type} (a : list A) : list (nat * A) :=
  combine (seq 0 (List.length a)) a.

Section Render.
Import Ui.

(** [Number.prototype.toFixed]. *)
Variable toFixed : Q -> nat -> string.

Definition fmtMs (ms : Z) : string :=
  if ms <? 1000 then (Js.show ms ++ "ms")%string
  else
    let s := Js.div (inject_Z ms) 1000 in
    if Js.Qltb s 60 then (toFixed s 2 ++ "s")%string
    else
      let m := Qfloor (Js.div s 60) in
      let rem := toFixed (Js.rem s 60) 1 in
      (Js.show m ++ "m " ++ rem ++ "s")%string.

Definition colorCount (n : Z) (kind : TestStatus) : string :=
  match kind with
  | Failed =>
      if 0 <? n then (red colors ++ Js.show n ++ reset colors)%string
      else Js.show n
  | Skipped =>
      if 0 <? n then (yellow colors ++ Js.show n ++ reset colors)%string
      else Js.show n
  | Passed =>
      if 0 <? n then (green colors ++ Js.show n ++ reset colors)%string
      else Js.show n
  end.

Definition countsLabel (c : Counts) : string :=
  ("P:" ++ colorCount (passed c) Passed ++ "," ++
   " F:" ++ colorCount (failed c) Failed ++ "," ++
   " S:" ++ colorCount (skipped c) Skipped)%string.

Variable opts : TestTreeOptions.

(** The lines of one test case of a class. *)
Definition renderTest (testsPrefix : string) (count : nat)
    (jt : nat * TestCaseNode) : list (Shown * string) :=
  let (j, t) := jt in
  let isLastTest := (j =? count - 1)%nat in
  let testBranch := if isLastTest then "└── " else "├── " in
  let icon :=
    match tc_status t with
    | Passed => "✅"
    | Skipped => "⚠️"
    | Failed => "❌"
    end in
  let name :=
    match tc_status t with
    | Failed => red colors ++ tc_name t ++ reset colors
    | Skipped => yellow colors ++ tc_name t ++ reset colors
    | Passed => green colors ++ tc_name t ++ reset colors
    end%string in
  (ShownCase t,
   testsPrefix ++ testBranch ++ icon ++ " " ++ name ++ " " ++
   "(" ++ fmtMs (tc_durationMs t) ++ ")" ++ nl)%string ::
  (if status_eqb (tc_status t) Failed && Js.truthy (tc_failureMessage t)
   then
     let detailIndent :=
       (testsPrefix ++ (if isLastTest then "    " else "│   "))%string in
     [(ShownDetail t,
       detailIndent ++ "- " ++ red colors ++
       Js.or_else (tc_failureMessage t) "" ++ reset colors ++ nl)%string]
   else []).

(** The lines of one class: its own line, then its test cases when
    [includeTests] is set. *)
Definition renderClass (childPrefix : string) (count shownChildren : nat)
    (ic : nat * TestClassNode) : list (Shown * string) :=
  let (i, cls) := ic in
  let isLastClass := (i =? count - 1)%nat && (shownChildren =? 0)%nat in
  let clsBranch := if isLastClass then "└── " else "├── " in
  (ShownClass cls,
   childPrefix ++ clsBranch ++ cls_name cls ++ " (" ++
   countsLabel (cls_counts cls) ++ ", " ++
   fmtMs (cls_durationMs cls) ++ ")" ++ nl)%string ::
  (if includeTests opts then
     let testsAll := cls_cases cls in
     let tests :=
       if failuresOnly opts
       then filter (fun t => status_eqb (tc_status t) Failed) testsAll
       else testsAll in
     let testsPrefix :=
       (childPrefix ++ (if isLastClass then "    " else "│   "))%string in
     flat_map (renderTest testsPrefix (List.length tests)) (indexed tests)
   else []).

(** Each child comes with its own rendering, a function of the prefix
    and of the two flags, so that the recursive call is made on the
    children of [pkg] before the filter picks those to show. *)
Fixpoint renderLines (pkg : TestPackageNode) (prefix : string)
    (isLast isRoot : bool) : list (Shown * string) :=
  let branch :=
    if isRoot then "" else if isLast then "└── " else "├── " in
  let childPrefix :=
    (prefix ++
     (if isRoot then "" else if isLast then "    " else "│   "))%string in
  let label :=
    if isRoot then (bold colors ++ pkg_name pkg ++ reset colors)%string
    else pkg_name pkg in
  let allClasses := Js.values (pkg_classes pkg) in
  let classesToShow :=
    if failuresOnly opts
    then filter (fun c => 0 <? failed (cls_counts c)) allClasses
    else allClasses in
  let allChildren :=
    map (fun kc => (snd kc, renderLines (snd kc))) (pkg_children pkg) in
  let childrenToShow :=
    if failuresOnly opts
    then filter (fun c => 0 <? failed (pkg_counts (fst c))) allChildren
    else allChildren in
  (ShownPackage pkg,
   prefix ++ branch ++ label ++ " (" ++
   countsLabel (pkg_counts pkg) ++ ", " ++
   fmtMs (pkg_durationMs pkg) ++ ")" ++ nl)%string ::
  flat_map
    (renderClass childPrefix (List.length classesToShow)
       (List.length childrenToShow))
    (indexed classesToShow) ++
  flat_map
    (fun ic : nat * (TestPackageNode * _) =>
       snd (snd ic) childPrefix
         (fst ic =? List.length childrenToShow - 1)%nat false)
    (indexed childrenToShow).


End Render.

(** Induction on a node with the hypothesis for every child. *)
Section Induction.
Variable P : TestPackageNode -> Prop.
Hypothesis step :
  forall name fullName children classes counts dur,
    Forall (fun kc => P (snd kc)) children ->
    P (mkTestPackageNode name fullName children classes counts dur).

Fixpoint TestPackageNode_ind (n : TestPackageNode) : P n :=
  match n with
  | mkTestPackageNode name fullName children classes counts dur =>
      step name fullName children classes counts dur
        ((fix go (l : list (string * TestPackageNode))
            : Forall (fun kc => P (snd kc)) l :=
            match l with
            | [] => Forall_nil _
            | kc :: r =>
                Forall_cons kc (TestPackageNode_ind (snd kc)) (go r)
            end) children)
  end.
End Induction.

(** [subnode root n]: [n] is [root] or one of its descendants. *)
Inductive subnode : TestPackageNode -> TestPackageNode -> Prop :=
| subnode_here : forall n, subnode n n
| subnode_child : forall n k c m,
    In (k, c) (pkg_children n) -> subnode c m -> subnode n m.

End TestsTree.

(** ** cli/commands: the exit codes of [coverage] and [test] *)

Module Cli.
Import Coverage.

(** The percentage written out in [cmdCoverage] for the thresholds. *)
Definition thresholdPct (covered missed : option Z) : Z :=
  if Js.nullish covered 0 + Js.nullish missed 0 =? 0 then 0
  else
    Js.Math_round
      (Js.mul
         (Js.div (inject_Z (Js.nullish covered 0))
                 (inject_Z (Js.nullish covered 0 + Js.nullish missed 0)))
         100).

(** The code [cmdCoverage] returns, given what
    [buildCoverageTreeFromJaCoCo] returned for the report and the two
    optional minimums ([None] when the option is not a number that
    compares). *)
Definition cmdCoverage (root : option PackageNode)
    (minLines minFuncs : option Q) : Z :=
  match root with
  | None => 1
  | Some root =>
      let lPct := thresholdPct (pn_linesCovered root) (pn_linesMissed root) in
      let fPct := thresholdPct (pn_funcsCovered root) (pn_funcsMissed root) in
      let exitCode := 0 in
      let exitCode :=
        match minLines with
        | Some m => if Js.Qltb (inject_Z lPct) m then 2 else exitCode
        | None => exitCode
        end in
      let exitCode :=
        match minFuncs with
        | Some m =>
            if Js.Qltb (inject_Z fPct) m then Z.max exitCode 2 else exitCode
        | None => exitCode
        end in
      exitCode
  end.

Record TestOptions : Type := mkTestOptions {
  coverage : bool;
  minLines : option Q;
  minFuncs : option Q
}.

(** The code [cmdTest] returns: [testCode] is the exit code of the
    Gradle run, [covRoot] the coverage tree [cmdCoverage] gets to see. *)
Definition cmdTest (testCode : Z) (opts : TestOptions)
    (covRoot : option PackageNode) : Z :=
  let finalCode := testCode in
  if coverage opts then
    let covCode := cmdCoverage covRoot (minLines opts) (minFuncs opts) in
    if negb (covCode =? 0) then covCode else finalCode
  else finalCode.

End Cli.

(** ** The properties, in the words of the specification *)

Module Spec.

Definition zsum (l : list Z) : Z := fold_right Z.add 0 l.

(** *** Range compression *)

(** A run of consecutive integers: each exactly one greater than the
    previous. *)
Inductive consecutive : list Z -> Prop :=
| consecutive_one : forall x, consecutive [x]
| consecutive_cons : forall x y r,
    y = x + 1 -> consecutive (y :: r) -> consecutive (x :: y :: r).

(** No run can be extended by the one that follows it. *)
Fixpoint separated (rs : list (list Z)) : Prop :=
  match rs with
  | r1 :: ((r2 :: _) as rest) =>
      last r1 0 + 1 <> hd 0 r2 /\ separated rest
  | _ => True
  end.

(** The maximal runs of a list, in input order. *)
Fixpoint runs (l : list Z) : list (list Z) :=
  match l with
  | [] => []
  | x :: rest =>
      match runs rest with
      | (y :: run) :: rs =>
          if y =? x + 1 then (x :: y :: run) :: rs
          else [x] :: (y :: run) :: rs
      | _ => [[x]]
      end
  end.

(** A run is rendered as "start-end", an isolated integer as itself. *)
Definition token (run : list Z) : string :=
  match run with
  | [] => ""
  | [x] => Js.show x
  | x :: r => (Js.show x ++ "-" ++ Js.show (last r x))%string
  end.

Definition compressed (l : list Z) : string :=
  Js.join "," (map token (runs l)).

(** *** Aggregation of the coverage tree *)

Definition sumTotals (l : list Coverage.Totals) : Coverage.Totals :=
  fold_right Coverage.addTotals Coverage.zeroTotals l.

Definition has_totals (n : Coverage.PackageNode) : Prop :=
  Coverage.pn_linesCovered n <> None /\
  Coverage.pn_linesMissed n <> None /\
  Coverage.pn_funcsCovered n <> None /\
  Coverage.pn_funcsMissed n <> None.

(** The metrics of a node are the sum of those of its own files plus
    the sum of those of its children. *)
Definition coverage_aggregated (n : Coverage.PackageNode) : Prop :=
  has_totals n /\
  Coverage.node_totals n =
    Coverage.addTotals
      (sumTotals (map Coverage.file_totals (Coverage.pn_sourcefile n)))
      (sumTotals (map Coverage.node_totals
                      (Js.values (Coverage.pn_children n)))).

(** *** Aggregation of the outcome tree *)

Import TestsTree.

Definition sumCounts (l : list Counts) : Counts :=
  fold_right addCounts zeroCounts l.

Definition count_status (s : TestStatus) (cases : list TestCaseNode) : Z :=
  Z.of_nat
    (List.length (filter (fun c => status_eqb (tc_status c) s) cases)).

(** The numbers of a class derive from its own case list. *)
Definition class_aggregated (c : TestClassNode) : Prop :=
  cls_counts c =
    mkCounts (count_status Passed (cls_cases c))
             (count_status Failed (cls_cases c))
             (count_status Skipped (cls_cases c)) /\
  cls_durationMs c = zsum (map tc_durationMs (cls_cases c)).

(** The numbers of a package are the sum of those of its own classes
    plus the sum of those of its children. *)
Definition outcome_aggregated (n : TestPackageNode) : Prop :=
  pkg_counts n =
    addCounts
      (sumCounts (map cls_counts (Js.values (pkg_classes n))))
      (sumCounts (map pkg_counts (Js.values (pkg_children n)))) /\
  pkg_durationMs n =
    zsum (map cls_durationMs (Js.values (pkg_classes n))) +
    zsum (map pkg_durationMs (Js.values (pkg_children n))) /\
  Forall class_aggregated (Js.values (pkg_classes n)).

(** Every aggregated number of a node is zero. *)
Definition outcome_zero (n : TestPackageNode) : Prop :=
  pkg_counts n = zeroCounts /\ pkg_durationMs n = 0.

Definition coverage_zero (n : Coverage.PackageNode) : Prop :=
  Coverage.pn_linesCovered n = Some 0 /\
  Coverage.pn_linesMissed n = Some 0 /\
  Coverage.pn_funcsCovered n = Some 0 /\
  Coverage.pn_funcsMissed n = Some 0.

End Spec.

(** ** Invariants of the two trees *)

Module Inv.

(** [R] holds of the file list of every node of [t]. *)
Definition every_files (R : list Coverage.SourceFile -> Prop)
    (t : Coverage.PackageNode) : Prop :=
  forall n, Coverage.subnode t n -> R (Coverage.pn_sourcefile n).

(** The keys of a map are in the order of the comparator. *)
Definition keys_sorted {V : Type} (cmp : string -> string -> Z)
    (m : Js.Map V) : Prop :=
  Sorted (fun a b => cmp a b <= 0) (Js.keys m).

(** A package of the outcome tree as [ensurePackage] makes it and as it
    stays until [aggregate] runs: no count, no duration. *)
Definition fresh (n : TestsTree.TestPackageNode) : Prop :=
  TestsTree.pkg_counts n = TestsTree.zeroCounts /\
  TestsTree.pkg_durationMs n = 0.

Definition every_package (R : TestsTree.TestPackageNode -> Prop)
    (t : TestsTree.TestPackageNode) : Prop :=
  forall n, TestsTree.subnode t n -> R n.

End Inv.

(** ** Comparators and sample inputs *)

Module Samples.
Import Coverage TestsTree.

(** Case-sensitive lexical comparison, code unit by code unit, with the
    sign convention of [localeCompare]. *)
Definition lexical_compare (a b : string) : Z :=
  match String.compare a b with
  | Lt => -1
  | Eq => 0
  | Gt => 1
  end.

Definition test_case (name classname : string) (time : option Q)
    (failure : option XmlFailure) : XmlTestCase :=
  {| x_name := Some name;
     x_time := time;
     x_classname := Some classname;
     x_failure := failure;
     x_error := None;
     x_skipped := false;
     x_status := None |}.

(** A results directory: one report with three test cases in two
    packages, one of them failing, a report that does not parse, and a
    file that is not a report. *)
Definition junit_entries : list DirEntry :=
    [ {| e_name := "TEST-app.xml";
         e_isFile := Js.Normal true;
         e_parsed :=
           Some
             {| d_testsuite :=
                  One
                    {| s_name := Some "app";
                       s_testcase :=
                         Many
                           [ test_case "adds" "app.core.MathTest"
                               (Some (1 # 2)%Q) None;
                             test_case "divides" "app.core.MathTest"
                               (Some (3 # 2)%Q)
                               (Some (mkXmlFailure (Some "boom") None None));
                             test_case "greets" "app.ui.HelloTest"
                               None None ] |};
                d_testsuites_testsuite := Absent |} |};
      {| e_name := "TEST-broken.xml"; e_isFile := Js.Normal true; e_parsed := None |};
      {| e_name := "notes.txt"; e_isFile := Js.Normal true; e_parsed := None |} ].

Definition junit_dir : option (list DirEntry) := Some junit_entries.

(** A results directory with nothing to read in it. *)
Definition junit_dir_no_cases : list DirEntry :=
  [ {| e_name := "TEST-broken.xml"; e_isFile := Js.Normal true; e_parsed := None |};
    {| e_name := "TEST-empty.xml";
       e_isFile := Js.Normal true;
       e_parsed :=
         Some {| d_testsuite := One (mkXmlSuite (Some "empty") Absent);
                 d_testsuites_testsuite := Absent |} |} ].

(** A results directory one entry of which cannot be examined, a link
    to a report that is gone. *)
Definition junit_dir_dangling : list DirEntry :=
  [ {| e_name := "TEST-gone.xml"; e_isFile := Js.Throw; e_parsed := None |};
    {| e_name := "TEST-empty.xml";
       e_isFile := Js.Normal true;
       e_parsed :=
         Some {| d_testsuite := One (mkXmlSuite (Some "empty") Absent);
                 d_testsuites_testsuite := Absent |} |} ].

(** A directory with one passing test case. *)
Definition junit_dir_one_pass : option (list DirEntry) :=
  Some
    [ {| e_name := "TEST-one.xml";
         e_isFile := Js.Normal true;
         e_parsed :=
           Some
             {| d_testsuite :=
                  One
                    {| s_name := Some "one";
                       s_testcase :=
                         One (test_case "passes" "one.OneTest"
                                (Some (1 # 4)%Q) None) |};
                d_testsuites_testsuite := Absent |} |} ].


Definition counter (type : string) (covered missed : Z) : Counter :=
  {| ct_type := Some type;
     ct_covered := Some covered;
     ct_missed := Some missed |}.

Definition line (nr mi ci : Z) : LineEntry :=
  {| ln_nr := nr;
     ln_mi := Some mi;
     ln_ci := Some ci;
     ln_mb := None;
     ln_cb := None |}.

(** A report with three packages: one with a source file whose lines
    come out of order, one with class counters only, one empty.  The
    lines add up to 40 covered and 60 missed. *)
Definition jacoco_report : option (list XmlPackage) :=
  Some
    [ {| xp_name := Some "b.c";
         xp_sourcefile :=
           [ {| xs_name := Some "Foo.java";
                xs_counter := [counter "LINE" 30 20; counter "METHOD" 1 1];
                xs_line :=
                  [line 15 1 0; line 10 2 0; line 12 1 1; line 11 1 0] |} ];
         xp_class := [] |};
      {| xp_name := Some "B.x";
         xp_sourcefile := [];
         xp_class :=
           [ {| xc_sourcefilename := Some "Bar.java";
                xc_counter := [counter "LINE" 5 35] |};
             {| xc_sourcefilename := Some "Bar.java";
                xc_counter := [counter "LINE" 5 5] |} ] |};
      {| xp_name := Some "a"; xp_sourcefile := []; xp_class := [] |} ].

(** A report whose packages hold no source file and no class. *)
Definition jacoco_report_no_files : list XmlPackage :=
  [ {| xp_name := Some "a.b"; xp_sourcefile := []; xp_class := [] |};
    {| xp_name := Some "a.c"; xp_sourcefile := []; xp_class := [] |} ].

(** A package with class counters only, one class without a source
    file name. *)
Definition class_only_package : XmlPackage :=
  {| xp_name := Some "B.x";
     xp_sourcefile := [];
     xp_class :=
       [ {| xc_sourcefilename := Some "Bar.java";
            xc_counter := [counter "LINE" 5 35] |};
         {| xc_sourcefilename := None;
            xc_counter := [counter "METHOD" 1 0] |};
         {| xc_sourcefilename := Some "Bar.java";
            xc_counter := [counter "LINE" 5 5] |} ] |}.

End Samples.

(** ** The leaf records of a results directory *)

Module Records.
Import TestsTree.

(** The test cases [buildTestsTree] reads from one directory entry,
    each with its suite: none unless the entry is named [*.xml], is a
    file, and parses. *)
Definition is_file (f : DirEntry) : bool :=
  match e_isFile f with
  | Js.Normal b => b
  | Js.Throw => false
  end.

Definition entry_records (f : DirEntry) : list (XmlSuite * XmlTestCase) :=
  if Js.endsWith (e_name f) ".xml" && is_file f then
    match e_parsed f with
    | Some data =>
        flat_map (fun s => map (pair s) (normalizeCases s))
                 (normalizeSuites data)
    | None => []
    end
  else [].

(** [statSync] answers for every entry that [buildTestsTree] examines,
    those named [*.xml]. *)
Definition examinable (entries : list DirEntry) : Prop :=
  forall f, In f entries -> Js.endsWith (e_name f) ".xml" = true ->
            e_isFile f <> Js.Throw.

Definition leaf_records (entries : list DirEntry)
  : list (XmlSuite * XmlTestCase) :=
  flat_map entry_records entries.


End Records.

(** ** What a rendering shows *)

Module Rendered.
Import TestsTree.


(** The arrays [classesToShow] and [childrenToShow] of [renderPkg]. *)
Definition classesToShow (opts : TestTreeOptions) (pkg : TestPackageNode)
  : list TestClassNode :=
  if failuresOnly opts
  then filter (fun c => 0 <? failed (cls_counts c)) (Js.values (pkg_classes pkg))
  else Js.values (pkg_classes pkg).

Definition childrenToShow (toFixed : Q -> nat -> string)
    (opts : TestTreeOptions) (pkg : TestPackageNode)
  : list (TestPackageNode * (string -> bool -> bool -> list (Shown * string))) :=
  let allChildren :=
    map (fun kc => (snd kc, renderLines toFixed opts (snd kc)))
        (pkg_children pkg) in
  if failuresOnly opts
  then filter (fun c => 0 <? failed (pkg_counts (fst c))) allChildren
  else allChildren.

(** What the lines of [printTestsTree] stand for, in output order. *)
Definition shown (toFixed : Q -> nat -> string) (opts : TestTreeOptions)
    (root : TestPackageNode) : list Shown :=
  map fst (renderLines toFixed opts root "" true true).


Definition icon (s : TestStatus) : string :=
  match s with
  | Passed => "✅"
  | Skipped => "⚠️"
  | Failed => "❌"
  end.





End Rendered.

(** ** A host for the examples *)

Module Host.

(** [Number.prototype.toFixed] on a non-negative exact rational: the
    value rounded to [digits] decimals, a tie going up. *)
Definition toFixed (q : Q) (digits : nat) : string :=
  let scale := 10 ^ Z.of_nat digits in
  let scaled := Js.Math_round (q * inject_Z scale) in
  let frac := Js.show (scaled mod scale) in
  (Js.show (scaled / scale) ++ "." ++
   String.concat "" (repeat "0" (digits - String.length frac)) ++ frac)%string.

(** [String.prototype.localeCompare] of a host that collates by the
    root collation of the Unicode Collation Algorithm, as Node and Bun
    do under an English locale, on strings of printable ASCII
    characters.  Strings are compared by the primary weights of their
    characters: the space, punctuation, symbols, digits, then the
    letters in alphabetical order whatever their case.  Strings that
    agree on these are compared by case, lower case first.  [order]
    lists the characters by primary weight, as character codes; any
    other character is outside this description and goes last. *)
Definition order : list nat :=
  [32; 95; 45; 44; 59; 58; 33; 63; 46; 39; 34; 40; 41; 91; 93; 123; 125;
   64; 42; 47; 92; 38; 35; 37; 96; 94; 43; 60; 61; 62; 124; 126; 36;
   48; 49; 50; 51; 52; 53; 54; 55; 56; 57;
   97; 98; 99; 100; 101; 102; 103; 104; 105; 106; 107; 108; 109; 110;
   111; 112; 113; 114; 115; 116; 117; 118; 119; 120; 121; 122]%nat.

Definition is_upper (c : ascii) : bool :=
  ((65 <=? nat_of_ascii c) && (nat_of_ascii c <=? 90))%nat.

Definition lower (c : ascii) : nat :=
  if is_upper c then (nat_of_ascii c + 32)%nat else nat_of_ascii c.

Fixpoint rank (n : nat) (l : list nat) (i : nat) : nat :=
  match l with
  | [] => (i + n)%nat
  | x :: r => if (n =? x)%nat then i else rank n r (S i)
  end.

Definition primary (s : string) : list nat :=
  map (fun c => rank (lower c) order 0) (list_ascii_of_string s).

Definition tertiary (s : string) : list nat :=
  map (fun c => if is_upper c then 1%nat else 0%nat) (list_ascii_of_string s).

Fixpoint lex (a b : list nat) : comparison :=
  match a, b with
  | [], [] => Eq
  | [], _ :: _ => Lt
  | _ :: _, [] => Gt
  | x :: a', y :: b' =>
      match Nat.compare x y with
      | Eq => lex a' b'
      | r => r
      end
  end.

Definition collate (a b : string) : comparison :=
  match lex (primary a) (primary b) with
  | Eq => lex (tertiary a) (tertiary b)
  | r => r
  end.

Definition localeCompare (a b : string) : Z :=
  match collate a b with
  | Lt => -1
  | Eq => 0
  | Gt => 1
  end.

(** The rational that a binary64 value of the machine stands for,
    [None] for an infinity or NaN, and the binary64 value of a small
    natural number. *)
Definition rational (f : PrimFloat.float) : option Q :=
  match FloatOps.Prim2SF f with
  | SpecFloat.S754_zero _ => Some 0%Q
  | SpecFloat.S754_finite s m e =>
      Some (Qred ((if s then -1 else 1) * inject_Z (Z.pos m) * 2 ^ e))
  | _ => None
  end.

Definition number (n : Z) : PrimFloat.float :=
  PrimFloat.of_uint63 (Uint63.of_Z n).

(** Pairs of counts, among them exact ties of the percentage. *)
Definition counts : list (Z * Z) :=
  [(23, 40); (29, 200); (1, 8); (3, 4); (1, 3); (2, 3); (1, 7); (5, 1000);
   (999, 1000); (1, 1); (0, 5); (123456789, 987654321);
   (17592186044415, 17592186044416)].

(** The name on a line of the rendered tree. *)
Definition label (e : TestsTree.Shown) : string :=
  match e with
  | TestsTree.ShownPackage p => TestsTree.pkg_name p
  | TestsTree.ShownClass c => TestsTree.cls_name c
  | TestsTree.ShownCase t => TestsTree.tc_name t
  | TestsTree.ShownDetail t => Js.or_else (TestsTree.tc_failureMessage t) ""
  end.

End Host.

(** ** Walking the trees *)

Module Walk.
Import TestsTree.

(** The cases of the class [className] of the package reached from [n]
    by looking up the segments of [path] in the children maps, one after
    the other; none when a lookup fails. *)
Fixpoint cases_at (n : TestPackageNode) (path : list string)
    (className : string) : list TestCaseNode :=
  match path with
  | [] =>
      match Js.get className (pkg_classes n) with
      | Some c => cls_cases c
      | None => []
      end
  | part :: rest =>
      match Js.get part (pkg_children n) with
      | Some c => cases_at c rest className
      | None => []
      end
  end.

(** Where [buildTestsTree] puts a record: the package path and the class
    name that [splitClassName] gives for its class name. *)
Definition place (r : XmlSuite * XmlTestCase) : list string * string :=
  let '(pkgPath, className, _) :=
    splitClassName (classname_of (fst r) (snd r)) in
  (pkgPath, className).

(** The body of the innermost loop of [buildTestsTree] for one record. *)
Definition add_record (root : TestPackageNode) (r : XmlSuite * XmlTestCase)
  : TestPackageNode :=
  add_case (fst r) root (snd r).

Fixpoint path_eqb (a b : list string) : bool :=
  match a, b with
  | [], [] => true
  | x :: a', y :: b' => String.eqb x y && path_eqb a' b'
  | _, _ => false
  end.

Definition at_place (path : list string) (className : string)
    (r : XmlSuite * XmlTestCase) : bool :=
  path_eqb (fst (place r)) path && String.eqb (snd (place r)) className.

(** Every test case of a tree: those of the classes of the node, then
    those of its children. *)
Fixpoint all_cases (n : TestPackageNode) : list TestCaseNode :=
  flat_map (fun kc => cls_cases (snd kc)) (pkg_classes n) ++
  flat_map (fun kc => all_cases (snd kc)) (pkg_children n).

(** The three counts of a list of test cases. *)
Definition tally (cases : list TestCaseNode) : Counts :=
  mkCounts (Spec.count_status Passed cases)
           (Spec.count_status Failed cases)
           (Spec.count_status Skipped cases).

(** Every source file of a coverage tree: those of the node, then those
    of its children. *)
Fixpoint all_files (n : Coverage.PackageNode) : list Coverage.SourceFile :=
  Coverage.pn_sourcefile n ++
  flat_map (fun kc => all_files (snd kc)) (Coverage.pn_children n).

(** The counters of one [<class>] element. *)
Definition class_totals (c : Coverage.XmlClass) : Coverage.Totals :=
  let lineCounter := Coverage.find_counter "LINE" (Coverage.xc_counter c) in
  let methodCounter := Coverage.find_counter "METHOD" (Coverage.xc_counter c) in
  Coverage.mkTotals
    (Coverage.covered_of lineCounter) (Coverage.missed_of lineCounter)
    (Coverage.covered_of methodCounter) (Coverage.missed_of methodCounter).

(** The files one [<package>] element brings: one per [<sourcefile>], or
    without any, one per source file name of its [<class>] elements. *)
Definition files_of_package (pkg : Coverage.XmlPackage)
  : list Coverage.SourceFile :=
  if (0 <? List.length (Coverage.xp_sourcefile pkg))%nat
  then map Coverage.sourceFile_of (Coverage.xp_sourcefile pkg)
  else map Coverage.sourceFile_of_group
           (fold_left Coverage.group_step (Coverage.xp_class pkg) []).

(** The source file a [<class>] element is counted under. *)
Definition class_file (c : Coverage.XmlClass) : string :=
  Js.nullish (Coverage.xc_sourcefilename c) "unknown".

(** The [<class>] elements counted under the file [name]. *)
Definition classes_of_file (name : string) (classes : list Coverage.XmlClass)
  : list Coverage.XmlClass :=
  filter (fun c => String.eqb (class_file c) name) classes.

End Walk.

(** ** The shape of the trees *)

Module Shape.

(** [parent ? `${parent}${sep}${part}` : part]. *)
Definition join_path (sep parent part : string) : string :=
  if String.eqb parent "" then part else (parent ++ sep ++ part)%string.

(** The keys of the two maps of a package are distinct; a child is named
    by its key and its full name is that of the package followed by the
    key; a class is named by its key. *)
Definition outcome_shape (n : TestsTree.TestPackageNode) : Prop :=
  NoDup (Js.keys (TestsTree.pkg_children n)) /\
  NoDup (Js.keys (TestsTree.pkg_classes n)) /\
  (forall k c, In (k, c) (TestsTree.pkg_children n) ->
     TestsTree.pkg_name c = k /\
     TestsTree.pkg_fullName c = join_path "." (TestsTree.pkg_fullName n) k) /\
  (forall k c, In (k, c) (TestsTree.pkg_classes n) -> TestsTree.cls_name c = k).

(** The same for a node of the coverage tree, whose paths use "/". *)
Definition coverage_shape (n : Coverage.PackageNode) : Prop :=
  NoDup (Js.keys (Coverage.pn_children n)) /\
  (forall k c, In (k, c) (Coverage.pn_children n) ->
     Coverage.pn_name c = k /\
     Coverage.pn_fullName c = join_path "/" (Coverage.pn_fullName n) k).

End Shape.

(** ** parseTree.ts: the earlier aggregator *)

Module Legacy.
Import Coverage.

(** [aggregateCoverage] of parseTree.ts, over the same node type: the
    same sums, and the children map left in insertion order. *)
Fixpoint aggregateCoverage (pkg : PackageNode) : PackageNode :=
  let children :=
    map (fun kc => (fst kc, aggregateCoverage (snd kc))) (pn_children pkg) in
  let t :=
    fold_left (fun acc child => addTotals acc (node_totals child))
              (Js.values children) zeroTotals in
  let t :=
    fold_left (fun acc f => addTotals acc (file_totals f))
              (pn_sourcefile pkg) t in
  {| pn_name := pn_name pkg;
     pn_fullName := pn_fullName pkg;
     pn_sourcefile := pn_sourcefile pkg;
     pn_children := children;
     pn_linesCovered := Some (linesCovered t);
     pn_linesMissed := Some (linesMissed t);
     pn_funcsCovered := Some (funcsCovered t);
     pn_funcsMissed := Some (funcsMissed t) |}.

Section Order.
Variable localeCompare : string -> string -> Z.

(** A tree with the children map of every node rebuilt from its entries
    sorted by key, and nothing else changed. *)
Fixpoint in_key_order (pkg : PackageNode) : PackageNode :=
  {| pn_name := pn_name pkg;
     pn_fullName := pn_fullName pkg;
     pn_sourcefile := pn_sourcefile pkg;
     pn_children :=
       Js.sort (fun a b => localeCompare (fst a) (fst b))
         (map (fun kc => (fst kc, in_key_order (snd kc))) (pn_children pkg));
     pn_linesCovered := pn_linesCovered pkg;
     pn_linesMissed := pn_linesMissed pkg;
     pn_funcsCovered := pn_funcsCovered pkg;
     pn_funcsMissed := pn_funcsMissed pkg |}.
End Order.

End Legacy.

(** ** cli/commands: the arguments handed from [test] to [coverage] *)

Module Args.

Inductive UncoveredMode : Type := Auto | All | NoUncovered.

(** [String(mode)]: the modes are the strings "auto", "all", "none". *)
Definition mode_string (m : UncoveredMode) : string :=
  match m with
  | Auto => "auto"
  | All => "all"
  | NoUncovered => "none"
  end.

(** The test [v === "auto" || v === "all" || v === "none"]. *)
Definition mode_of (v : string) : option UncoveredMode :=
  if String.eqb v "auto" then Some Auto
  else if String.eqb v "all" then Some All
  else if String.eqb v "none" then Some NoUncovered
  else None.

(** [CoverageOptions] of coverage.ts.  A minimum is [None] when it is
    absent or not a number. *)
Record CoverageOptions : Type := mkCoverageOptions {
  co_path : option string;
  co_run : bool;
  co_gradle : option string;
  co_verbose : bool;
  co_noSpinner : bool;
  co_uncovered : UncoveredMode;
  co_minLines : option Q;
  co_minFuncs : option Q;
  co_cwd : string
}.

(** The options of [cmdTest] that it hands on to [cmdCoverage]. *)
Record TestOptions : Type := mkTestOptions {
  to_cwd : string;
  to_gradle : option string;
  to_verbose : bool;
  to_noSpinner : bool;
  to_minLines : option Q;
  to_minFuncs : option Q;
  to_uncovered : option UncoveredMode
}.

Section Numbers.

(** The unary plus on a string, [None] for NaN, and [String(n)]. *)
Variable toNumber : string -> option Q.
Variable toString : Q -> string.

(** One turn of the loop of [parseArgs] of coverage.ts on the argument
    [a], with [next] for [argv[i + 1]]: the options after it, and whether
    the turn took the next argument as a value ([argv[++i]]). *)
Definition step (a : string) (next : option string) (o : CoverageOptions)
  : CoverageOptions * bool :=
  let value := Js.or_else next "" in
  if String.eqb a "" then (o, false)
  else if String.eqb a "--run" then
    (mkCoverageOptions (co_path o) true (co_gradle o) (co_verbose o)
       (co_noSpinner o) (co_uncovered o) (co_minLines o) (co_minFuncs o)
       (co_cwd o), false)
  else if String.eqb a "--gradle" && Js.truthy next then
    (mkCoverageOptions (co_path o) (co_run o) (Some value) (co_verbose o)
       (co_noSpinner o) (co_uncovered o) (co_minLines o) (co_minFuncs o)
       (co_cwd o), true)
  else if String.eqb a "--verbose" || String.eqb a "-v" then
    (mkCoverageOptions (co_path o) (co_run o) (co_gradle o) true
       (co_noSpinner o) (co_uncovered o) (co_minLines o) (co_minFuncs o)
       (co_cwd o), false)
  else if String.eqb a "--no-spinner" then
    (mkCoverageOptions (co_path o) (co_run o) (co_gradle o) (co_verbose o)
       true (co_uncovered o) (co_minLines o) (co_minFuncs o)
       (co_cwd o), false)
  else if String.eqb a "--cwd" && Js.truthy next then
    (mkCoverageOptions (co_path o) (co_run o) (co_gradle o) (co_verbose o)
       (co_noSpinner o) (co_uncovered o) (co_minLines o) (co_minFuncs o)
       value, true)
  else if String.prefix "--uncovered=" a then
    (mkCoverageOptions (co_path o) (co_run o) (co_gradle o) (co_verbose o)
       (co_noSpinner o)
       (Js.nullish (mode_of (nth 1 (Js.split "="%char a) "")) (co_uncovered o))
       (co_minLines o) (co_minFuncs o) (co_cwd o), false)
  else if String.eqb a "--uncovered" && Js.truthy next then
    (mkCoverageOptions (co_path o) (co_run o) (co_gradle o) (co_verbose o)
       (co_noSpinner o) (Js.nullish (mode_of value) (co_uncovered o))
       (co_minLines o) (co_minFuncs o) (co_cwd o), true)
  else if String.eqb a "--min-lines" && Js.truthy next then
    (mkCoverageOptions (co_path o) (co_run o) (co_gradle o) (co_verbose o)
       (co_noSpinner o) (co_uncovered o) (toNumber value) (co_minFuncs o)
       (co_cwd o), true)
  else if String.eqb a "--min-funcs" && Js.truthy next then
    (mkCoverageOptions (co_path o) (co_run o) (co_gradle o) (co_verbose o)
       (co_noSpinner o) (co_uncovered o) (co_minLines o) (toNumber value)
       (co_cwd o), true)
  else if negb (String.prefix "-" a) then
    (mkCoverageOptions (Some a) (co_run o) (co_gradle o) (co_verbose o)
       (co_noSpinner o) (co_uncovered o) (co_minLines o) (co_minFuncs o)
       (co_cwd o), false)
  else (o, false).

(** The loop [for (let i = 0; i < argv.length; i++)]. *)
Fixpoint parse_from (argv : list string) (o : CoverageOptions)
  : CoverageOptions :=
  match argv with
  | [] => o
  | a :: rest =>
      match rest with
      | [] => fst (step a None o)
      | v :: rest' =>
          let r := step a (Some v) o in
          if snd r then parse_from rest' (fst r) else parse_from rest (fst r)
      end
  end.

(** [parseArgs] of coverage.ts; [processCwd] is [process.cwd()]. *)
Definition parseArgs (processCwd : string) (argv : list string)
  : CoverageOptions :=
  parse_from argv
    {| co_path := None;
       co_run := false;
       co_gradle := None;
       co_verbose := false;
       co_noSpinner := false;
       co_uncovered := Auto;
       co_minLines := None;
       co_minFuncs := None;
       co_cwd := processCwd |}.

(** The [covArgs] that [cmdTest] builds for [cmdCoverage]. *)
Definition covArgs (opts : TestOptions) : list string :=
  ["--run"; "--cwd"; to_cwd opts] ++
  (if to_verbose opts then ["--verbose"] else []) ++
  (if to_noSpinner opts then ["--no-spinner"] else []) ++
  (if Js.truthy (to_gradle opts)
   then ["--gradle"; Js.or_else (to_gradle opts) ""] else []) ++
  (match to_minLines opts with
   | Some m => ["--min-lines"; toString m]
   | None => []
   end) ++
  (match to_minFuncs opts with
   | Some m => ["--min-funcs"; toString m]
   | None => []
   end) ++
  (match to_uncovered opts with
   | Some u => ["--uncovered"; mode_string u]
   | None => []
   end).

End Numbers.

(** Sample conversions, right on the two thresholds used below, and a
    sample set of options. *)
Definition sample_toString (q : Q) : string := Js.show (Qfloor q).

Definition sample_toNumber (s : string) : option Q :=
  if String.eqb s "80" then Some (80 # 1)
  else if String.eqb s "75" then Some (75 # 1)
  else None.

Definition sample_options : TestOptions :=
  {| to_cwd := "app";
     to_gradle := Some "./gradlew";
     to_verbose := true;
     to_noSpinner := false;
     to_minLines := Some (80 # 1);
     to_minFuncs := Some (75 # 1);
     to_uncovered := Some All |}.

End Args.

(** * Properties *)

(** ** Sums and folds *)


(** ** [Array.prototype.sort] *)

Section SortFacts.
Context {A : Type} (cmp : A -> A -> Z).

Lemma insert_perm (x : A) (l : list A) :
  Permutation (x :: l) (Js.insert cmp x l).
Proof.
  induction l as [|y r IH]; simpl.
  - apply Permutation_refl.
  - destruct (0 <? cmp y x).
    + apply Permutation_refl.
    + eapply perm_trans; [apply perm_swap | apply perm_skip, IH].
Qed.

Lemma sort_from_perm (l acc : list A) :
  Permutation (acc ++ l) (fold_left (fun acc x => Js.insert cmp x acc) l acc).
Proof.
  revert acc; induction l as [|x l IH]; intros acc; simpl.
  - rewrite app_nil_r. apply Permutation_refl.
  - eapply perm_trans; [| apply IH].
    eapply perm_trans; [apply Permutation_sym, Permutation_middle |].
    change (x :: acc ++ l) with ((x :: acc) ++ l).
    apply Permutation_app_tail, insert_perm.
Qed.

Lemma sort_perm (l : list A) : Permutation l (Js.sort cmp l).
Proof. exact (sort_from_perm l []). Qed.

Lemma sort_In (l : list A) (x : A) : In x (Js.sort cmp l) <-> In x l.
Proof.
  split; intros H.
  - eapply Permutation_in; [apply Permutation_sym, sort_perm | exact H].
  - eapply Permutation_in; [apply sort_perm | exact H].
Qed.

Lemma sort_Forall (P : A -> Prop) (l : list A) :
  Forall P l -> Forall P (Js.sort cmp l).
Proof.
  rewrite !Forall_forall. intros H x Hx. apply H, sort_In, Hx.
Qed.

(** The one property of the comparator that sortedness rests on: when
    it puts [a] after [b] it does not also put [b] after [a]. *)
Hypothesis cmp_total : forall a b, 0 < cmp a b -> cmp b a <= 0.

Lemma insert_sorted (x : A) (l : list A) :
  Sorted (fun a b => cmp a b <= 0) l ->
  Sorted (fun a b => cmp a b <= 0) (Js.insert cmp x l).
Proof.
  induction 1 as [|y r Hr IH Hhd]; simpl.
  - repeat constructor.
  - destruct (0 <? cmp y x) eqn:E.
    + apply Z.ltb_lt in E.
      constructor; [constructor; assumption |].
      constructor. apply cmp_total, E.
    + apply Z.ltb_ge in E.
      constructor; [exact IH |].
      destruct r as [|z r']; simpl.
      * constructor. exact E.
      * inversion Hhd; subst.
        destruct (0 <? cmp z x); constructor; assumption.
Qed.

Lemma sort_from_sorted (l acc : list A) :
  Sorted (fun a b => cmp a b <= 0) acc ->
  Sorted (fun a b => cmp a b <= 0)
         (fold_left (fun acc x => Js.insert cmp x acc) l acc).
Proof.
  revert acc; induction l as [|x l IH]; intros acc Hacc; simpl.
  - exact Hacc.
  - apply IH, insert_sorted, Hacc.
Qed.

Lemma sort_sorted (l : list A) :
  Sorted (fun a b => cmp a b <= 0) (Js.sort cmp l).
Proof. apply sort_from_sorted. constructor. Qed.

End SortFacts.

(** The numeric comparator [(a, b) => a - b] sorts in ascending order. *)
Lemma sort_numeric_ascending (l : list Z) :
  Sorted Z.le (Js.sort (fun a b => a - b) l).
Proof.
  assert (H : Sorted (fun a b => a - b <= 0) (Js.sort (fun a b => a - b) l)).
  { apply sort_sorted. intros a b; lia. }
  induction H as [|x r Hr IH Hhd]; constructor.
  - exact IH.
  - destruct Hhd; constructor; lia.
Qed.

(** ** Range compression *)

Section CompressFacts.
Import Coverage Spec.

Lemma runs_head (x : Z) (rest : list Z) :
  exists run rs, runs (x :: rest) = (x :: run) :: rs.
Proof.
  simpl. destruct (runs rest) as [|[|y run] rs]; eauto.
  destruct (y =? x + 1); eauto.
Qed.

Lemma consecutive_last (cur : list Z) (d : Z) :
  consecutive cur ->
  last cur d = hd d cur + Z.of_nat (List.length cur) - 1.
Proof.
  induction 1 as [x | x y r Hy Hr IH].
  - simpl. lia.
  - change (last (x :: y :: r) d) with (last (y :: r) d).
    rewrite IH. simpl hd. simpl List.length. lia.
Qed.

Lemma consecutive_snoc (cur : list Z) (v : Z) :
  consecutive cur -> v = last cur 0 + 1 -> consecutive (cur ++ [v]).
Proof.
  induction 1 as [x | x y r Hy Hr IH]; intros Hv.
  - simpl in *. constructor; [lia | constructor].
  - change (last (x :: y :: r) 0) with (last (y :: r) 0) in Hv.
    simpl. constructor; [exact Hy | apply IH, Hv].
Qed.

Lemma runs_consecutive_alone (cur : list Z) :
  consecutive cur -> runs cur = [cur].
Proof.
  induction 1 as [x | x y r Hy Hr IH].
  - reflexivity.
  - change (runs (x :: y :: r)) with
      (match runs (y :: r) with
       | (y0 :: run) :: rs =>
           if y0 =? x + 1 then (x :: y0 :: run) :: rs
           else [x] :: (y0 :: run) :: rs
       | _ => [[x]]
       end).
    rewrite IH. subst y. rewrite Z.eqb_refl. reflexivity.
Qed.

Lemma runs_app_separate (cur : list Z) (v : Z) (rest : list Z) :
  consecutive cur -> last cur 0 + 1 <> v ->
  runs (cur ++ v :: rest) = cur :: runs (v :: rest).
Proof.
  induction 1 as [x | x y r Hy Hr IH]; intros Hv.
  - destruct (runs_head v rest) as (run & rs & E).
    change (runs ([x] ++ v :: rest)) with
      (match runs (v :: rest) with
       | (y0 :: run) :: rs =>
           if y0 =? x + 1 then (x :: y0 :: run) :: rs
           else [x] :: (y0 :: run) :: rs
       | _ => [[x]]
       end).
    rewrite E. simpl in Hv.
    destruct (v =? x + 1) eqn:E'; [apply Z.eqb_eq in E'; lia | reflexivity].
  - change (last (x :: y :: r) 0) with (last (y :: r) 0) in Hv.
    change (runs ((x :: y :: r) ++ v :: rest)) with
      (match runs ((y :: r) ++ v :: rest) with
       | (y0 :: run) :: rs =>
           if y0 =? x + 1 then (x :: y0 :: run) :: rs
           else [x] :: (y0 :: run) :: rs
       | _ => [[x]]
       end).
    rewrite (IH Hv). subst y. rewrite Z.eqb_refl. reflexivity.
Qed.

Lemma last_default (l : list Z) (x d d' : Z) :
  last (x :: l) d = last (x :: l) d'.
Proof.
  revert x; induction l as [|y l IH]; intros x; [reflexivity |].
  change (last (y :: l) d = last (y :: l) d'). apply IH.
Qed.

Lemma token_range (cur : list Z) :
  consecutive cur -> token cur = range_token (hd 0 cur) (last cur 0).
Proof.
  intros H. pose proof (consecutive_last cur 0 H) as HL.
  destruct H as [x | x y r Hy Hr]; unfold range_token.
  - simpl. rewrite Z.eqb_refl. reflexivity.
  - simpl hd in *. simpl List.length in HL.
    destruct (x =? last (x :: y :: r) 0) eqn:E.
    + apply Z.eqb_eq in E. lia.
    + unfold token.
      change (last (x :: y :: r) 0) with (last (y :: r) 0).
      rewrite (last_default r y x 0). reflexivity.
Qed.

(** The loop invariant: [cur] is the run being read, from [s] to [e],
    and [out] holds the tokens of the runs closed so far. *)
Lemma compress_loop (rest cur : list Z) (s e : Z) (out : list string) :
  consecutive cur -> hd 0 cur = s -> last cur 0 = e ->
  let '(s', e', out') := fold_left compress_step rest (s, e, out) in
  out' ++ [range_token s' e'] = out ++ map token (runs (cur ++ rest)).
Proof.
  revert cur s e out.
  induction rest as [|v rest IH]; intros cur s e out Hc Hs He.
  - simpl. rewrite app_nil_r, (runs_consecutive_alone cur Hc).
    simpl. rewrite (token_range cur Hc), Hs, He. reflexivity.
  - simpl fold_left.
    change (compress_step (s, e, out) v) with
      (if v =? e + 1 then (s, v, out)
       else (v, v, out ++ [range_token s e])).
    destruct (v =? e + 1) eqn:E.
    + apply Z.eqb_eq in E.
      assert (Hc' : consecutive (cur ++ [v]))
        by (apply consecutive_snoc; [exact Hc | lia]).
      specialize (IH (cur ++ [v]) s v out Hc').
      rewrite <- app_assoc in IH. simpl app in IH.
      apply IH.
      * destruct cur; [inversion Hc | exact Hs].
      * apply last_last.
    + apply Z.eqb_neq in E.
      specialize (IH [v] v v (out ++ [range_token s e])
                     (consecutive_one v) eq_refl eq_refl).
      destruct (fold_left compress_step rest
                  (v, v, out ++ [range_token s e])) as [[s' e'] out'].
      rewrite IH, runs_app_separate by (try assumption; lia).
      rewrite <- app_assoc. simpl.
      rewrite (token_range cur Hc), Hs, He. reflexivity.
Qed.

Lemma compressLines_compressed (lines : list Z) :
  compressLines lines = compressed lines.
Proof.
  destruct lines as [|x rest]; [reflexivity |].
  unfold compressLines, compressed.
  pose proof (compress_loop rest [x] x x [] (consecutive_one x)
                eq_refl eq_refl) as H.
  destruct (fold_left compress_step rest (x, x, [])) as [[s e] out].
  rewrite H. reflexivity.
Qed.

Lemma runs_all_consecutive (l : list Z) : Forall consecutive (runs l).
Proof.
  induction l as [|x rest IH]; [constructor |].
  simpl. destruct (runs rest) as [|[|y run] rs].
  - repeat constructor.
  - repeat constructor.
  - inversion IH; subst.
    destruct (y =? x + 1) eqn:E.
    + apply Z.eqb_eq in E. constructor; [| assumption].
      constructor; [lia | assumption].
    + repeat constructor; assumption.
Qed.

Lemma runs_concat (l : list Z) : List.concat (runs l) = l.
Proof.
  induction l as [|x rest IH]; [reflexivity |].
  pose proof (runs_all_consecutive rest) as Hc.
  simpl. destruct (runs rest) as [|[|y run] rs].
  - simpl in IH. subst rest. reflexivity.
  - inversion Hc as [|? ? Hnil]; inversion Hnil.
  - destruct (y =? x + 1); simpl in *; subst rest; reflexivity.
Qed.

Lemma runs_separated (l : list Z) : separated (runs l).
Proof.
  induction l as [|x rest IH]; [exact I |].
  simpl. destruct (runs rest) as [|[|y run] rs] eqn:E.
  - exact I.
  - exact I.
  - destruct (y =? x + 1) eqn:E'.
    + destruct rs as [|r2 rs']; [exact I |].
      simpl in IH |- *. exact IH.
    + apply Z.eqb_neq in E'. simpl. split; [simpl; lia | exact IH].
Qed.

End CompressFacts.

(** C4. [compressLines] returns the comma-separated string in which each
    maximal run of consecutive integers of the input is rendered as
    "start-end" and each isolated integer as itself, in input order:
    [Spec.runs] cuts the input into runs of consecutive integers none of
    which can be extended by the next one, and the output joins their
    tokens.  This holds for every list, so in particular for the
    ascending lists of distinct integers the callers pass; [[]] gives
    the empty string, [[5]] gives "5" and [[1,2,3,7,9,10]] gives
    "1-3,7,9-10". *)
Theorem compressLines_maximal_runs (lines : list Z) :
  Coverage.compressLines lines = Js.join "," (map Spec.token (Spec.runs lines)) /\
  List.concat (Spec.runs lines) = lines /\
  Forall Spec.consecutive (Spec.runs lines) /\
  Spec.separated (Spec.runs lines) /\
  Coverage.compressLines [] = "" /\
  Coverage.compressLines [5] = "5" /\
  Coverage.compressLines [1; 2; 3; 7; 9; 10] = "1-3,7,9-10".
Proof.
  split; [apply compressLines_compressed |].
  split; [apply runs_concat |].
  split; [apply runs_all_consecutive |].
  split; [apply runs_separated |].
  repeat split; reflexivity.
Qed.

(** ** binary64 rounding *)

Section FloatFacts.
Import Js.
Local Open Scope Q_scope.

Lemma pow2_pos (k : Z) : 0 < 2 ^ k.
Proof. apply Qpower_0_lt. reflexivity. Qed.

Lemma pow2_succ (k : Z) : 2 ^ (k + 1) == 2 * 2 ^ k.
Proof.
  rewrite Qpower_plus by (intros H; discriminate H).
  change (2 ^ 1) with 2. ring.
Qed.

Lemma pow2_le (a b : Z) : (a <= b)%Z -> 2 ^ a <= 2 ^ b.
Proof. intros H. apply Qpower_le_compat_l; [exact H | discriminate]. Qed.

Lemma pow2_lt (a b : Z) : (a < b)%Z -> 2 ^ a < 2 ^ b.
Proof. intros H. apply Qpower_lt_compat_l; [exact H | reflexivity]. Qed.

Lemma pow2_Z (k : Z) : (0 <= k)%Z -> inject_Z (2 ^ k) == 2 ^ k.
Proof. intros H. apply (Zpower_Qpower 2 k H). Qed.

Lemma Qdiv_lt_cross (x d a b : Q) :
  0 < d -> 0 < b -> x * b < a * d -> x / d < a / b.
Proof.
  intros Hd Hb H. apply Qlt_shift_div_r; [exact Hd |].
  setoid_replace (a / b * d) with (a * d / b)
    by (field; intros E; rewrite E in Hb; discriminate Hb).
  apply Qlt_shift_div_l; [exact Hb | exact H].
Qed.

Lemma Qdiv_le_cross (x d a b : Q) :
  0 < d -> 0 < b -> x * b <= a * d -> x / d <= a / b.
Proof.
  intros Hd Hb H. apply Qle_shift_div_r; [exact Hd |].
  setoid_replace (a / b * d) with (a * d / b)
    by (field; intros E; rewrite E in Hb; discriminate Hb).
  apply Qle_shift_div_l; [exact Hb | exact H].
Qed.

Lemma ilog2_spec (q : Q) :
  0 < q -> 2 ^ ilog2 q <= q /\ q < 2 ^ (ilog2 q + 1).
Proof.
  intros Hq. unfold ilog2.
  destruct q as [n d]. cbn [Qnum Qden].
  assert (Hn : (0 < n)%Z) by (unfold Qlt in Hq; simpl in Hq; lia).
  set (a := Z.log2 n). set (b := Z.log2 (Z.pos d)).
  assert (Ha : (0 <= a)%Z) by apply Z.log2_nonneg.
  assert (Hb : (0 <= b)%Z) by apply Z.log2_nonneg.
  destruct (Z.log2_spec n Hn) as [Ha1 Ha2]. fold a in Ha1, Ha2.
  destruct (Z.log2_spec (Z.pos d) (Pos2Z.is_pos d)) as [Hb1 Hb2].
  fold b in Hb1, Hb2.
  assert (Hqv : n # d == inject_Z n / inject_Z (Z.pos d))
    by apply Qmake_Qdiv.
  assert (Hd : 0 < inject_Z (Z.pos d)) by reflexivity.
  assert (HX : 0 < inject_Z n) by (unfold Qlt; simpl; lia).
  assert (H1 : inject_Z n < 2 ^ (a + 1)).
  { rewrite <- pow2_Z by lia. rewrite <- Zlt_Qlt.
    replace (a + 1)%Z with (Z.succ a) by lia. exact Ha2. }
  assert (H2 : 2 ^ b <= inject_Z (Z.pos d)).
  { rewrite <- pow2_Z by lia. rewrite <- Zle_Qle. exact Hb1. }
  assert (H3 : 2 ^ a <= inject_Z n).
  { rewrite <- pow2_Z by lia. rewrite <- Zle_Qle. exact Ha1. }
  assert (H4 : inject_Z (Z.pos d) < 2 ^ (b + 1)).
  { rewrite <- pow2_Z by lia. rewrite <- Zlt_Qlt.
    replace (b + 1)%Z with (Z.succ b) by lia. exact Hb2. }
  pose proof (pow2_pos a) as Pa. pose proof (pow2_pos b) as Pb.
  pose proof (pow2_pos (a + 1)) as Pa1. pose proof (pow2_pos (b + 1)) as Pb1.
  assert (Hup : n # d < 2 ^ (a - b + 1)).
  { rewrite Hqv.
    replace (a - b + 1)%Z with ((a + 1) - b)%Z by lia.
    rewrite Qpower_minus by (intros H; discriminate H).
    apply Qdiv_lt_cross; [exact Hd | exact Pb |].
    generalize dependent (2 ^ (a + 1)). generalize dependent (2 ^ b).
    generalize dependent (inject_Z n). generalize dependent (inject_Z (Z.pos d)).
    intros; nra. }
  assert (Hlo : 2 ^ (a - b - 1) <= n # d).
  { rewrite Hqv.
    replace (a - b - 1)%Z with (a - (b + 1))%Z by lia.
    rewrite Qpower_minus by (intros H; discriminate H).
    apply Qdiv_le_cross; [exact Pb1 | exact Hd |].
    generalize dependent (2 ^ (b + 1)). generalize dependent (2 ^ a).
    generalize dependent (inject_Z n). generalize dependent (inject_Z (Z.pos d)).
    intros; nra. }
  destruct (Qle_bool (2 ^ (a - b)) (n # d)) eqn:E.
  - apply Qle_bool_iff in E. split; [exact E | exact Hup].
  - split.
    + exact Hlo.
    + replace (a - b - 1 + 1)%Z with (a - b)%Z by lia.
      apply Qnot_le_lt. intros H. apply Qle_bool_iff in H. congruence.
Qed.

Lemma ilog2_unique (q : Q) (k : Z) :
  2 ^ k <= q -> q < 2 ^ (k + 1) -> ilog2 q = k.
Proof.
  intros Hlo Hhi.
  assert (Hq : 0 < q) by (eapply Qlt_le_trans; [apply (pow2_pos k) | exact Hlo]).
  destruct (ilog2_spec q Hq) as [Slo Shi].
  destruct (Z.lt_trichotomy (ilog2 q) k) as [H | [H | H]]; [| exact H |].
  - exfalso. assert (2 ^ (ilog2 q + 1) <= 2 ^ k) by (apply pow2_le; lia). lra.
  - exfalso. assert (2 ^ (k + 1) <= 2 ^ ilog2 q) by (apply pow2_le; lia). lra.
Qed.

Lemma ilog2_comp (q q' : Q) : 0 < q -> q == q' -> ilog2 q = ilog2 q'.
Proof.
  intros Hq E. symmetry. destruct (ilog2_spec q Hq) as [Slo Shi].
  apply ilog2_unique; rewrite <- E; assumption.
Qed.

Lemma ilog2_mono (q q' : Q) : 0 < q -> q <= q' -> (ilog2 q <= ilog2 q')%Z.
Proof.
  intros Hq Hle.
  assert (Hq' : 0 < q') by lra.
  destruct (ilog2_spec q Hq) as [Slo Shi].
  destruct (ilog2_spec q' Hq') as [Slo' Shi'].
  destruct (Z_le_gt_dec (ilog2 q) (ilog2 q')) as [H | H]; [exact H |].
  exfalso. assert (2 ^ (ilog2 q' + 1) <= 2 ^ ilog2 q) by (apply pow2_le; lia).
  lra.
Qed.


Lemma round_even_comp (x y : Q) : x == y -> round_even x = round_even y.
Proof.
  intros E. unfold round_even. rewrite (Qfloor_comp _ _ E).
  assert (H : (x - inject_Z (Qfloor y) ?= 1 # 2) = (y - inject_Z (Qfloor y) ?= 1 # 2)).
  { apply Qcompare_comp; [rewrite E |]; reflexivity. }
  rewrite H. reflexivity.
Qed.

Lemma round_even_cases (x : Q) :
  (round_even x = Qfloor x /\ x - inject_Z (Qfloor x) <= 1 # 2) \/
  (round_even x = (Qfloor x + 1)%Z /\ 1 # 2 <= x - inject_Z (Qfloor x)).
Proof.
  unfold round_even.
  destruct (x - inject_Z (Qfloor x) ?= 1 # 2) eqn:E.
  - apply Qeq_alt in E. destruct (Z.even (Qfloor x)); [left | right];
      (split; [reflexivity | rewrite E; apply Qle_refl]).
  - apply Qlt_alt in E. left. split; [reflexivity | apply Qlt_le_weak, E].
  - apply Qgt_alt in E. right. split; [reflexivity | apply Qlt_le_weak, E].
Qed.

Lemma round_even_near (x : Q) :
  inject_Z (round_even x) - (1 # 2) <= x /\
  x <= inject_Z (round_even x) + (1 # 2).
Proof.
  pose proof (Qfloor_le x) as Hlo. pose proof (Qlt_floor x) as Hhi.
  rewrite inject_Z_plus in Hhi. change (inject_Z 1) with 1 in Hhi.
  destruct (round_even_cases x) as [[-> H] | [-> H]].
  - split; lra.
  - rewrite inject_Z_plus. change (inject_Z 1) with 1. split; lra.
Qed.

Lemma round_even_Z (z : Z) : round_even (inject_Z z) = z.
Proof.
  unfold round_even. rewrite Qfloor_Z.
  destruct (inject_Z z - inject_Z z ?= 1 # 2) eqn:E; [| reflexivity |].
  - apply Qeq_alt in E. exfalso. lra.
  - apply Qgt_alt in E. exfalso. lra.
Qed.

Lemma round_even_mono (x y : Q) : x <= y -> (round_even x <= round_even y)%Z.
Proof.
  intros Hle. pose proof (Qfloor_resp_le x y Hle) as Hf.
  unfold round_even.
  destruct (Z.eq_dec (Qfloor x) (Qfloor y)) as [E | NE].
  - rewrite <- E.
    destruct (x - inject_Z (Qfloor x) ?= 1 # 2) eqn:Ex;
      destruct (y - inject_Z (Qfloor x) ?= 1 # 2) eqn:Ey;
      try (destruct (Z.even (Qfloor x))); try lia;
      first [apply Qeq_alt in Ex | apply Qlt_alt in Ex | apply Qgt_alt in Ex];
      first [apply Qeq_alt in Ey | apply Qlt_alt in Ey | apply Qgt_alt in Ey];
      exfalso; lra.
  - assert (Qfloor x + 1 <= Qfloor y)%Z by lia.
    destruct (x - inject_Z (Qfloor x) ?= 1 # 2);
      destruct (y - inject_Z (Qfloor y) ?= 1 # 2);
      try (destruct (Z.even (Qfloor x)));
      try (destruct (Z.even (Qfloor y))); lia.
Qed.

Lemma exponent_comp (q q' : Q) : ~ q == 0 -> q == q' -> exponent q = exponent q'.
Proof.
  intros Hq E. unfold exponent. f_equal. f_equal.
  apply ilog2_comp; [| rewrite E; reflexivity].
  pose proof (Qabs_nonneg q) as H. apply Qle_lt_or_eq in H.
  destruct H as [H | H]; [exact H |].
  exfalso. apply Hq. 
  destruct (Qabs_Qle_condition q 0) as [Hc _].
  assert (Hz : Qabs q <= 0) by (rewrite <- H; apply Qle_refl).
  specialize (Hc Hz). lra.
Qed.

Lemma fl_zero (q : Q) : q == 0 -> fl q = 0.
Proof.
  intros E. unfold fl.
  assert (H : Qeq_bool (Qred q) 0 = true).
  { apply Qeq_bool_iff. rewrite Qred_correct. exact E. }
  rewrite H. reflexivity.
Qed.

Lemma fl_eq (q : Q) :
  ~ q == 0 ->
  fl q == inject_Z (round_even (q / 2 ^ exponent q)) * 2 ^ exponent q.
Proof.
  intros Hq. unfold fl.
  assert (H : Qeq_bool (Qred q) 0 = false).
  { destruct (Qeq_bool (Qred q) 0) eqn:E; [| reflexivity].
    apply Qeq_bool_iff in E. rewrite Qred_correct in E. contradiction. }
  rewrite H, Qred_correct.
  assert (He : exponent (Qred q) = exponent q).
  { apply exponent_comp; [rewrite Qred_correct; exact Hq | apply Qred_correct]. }
  rewrite He.
  rewrite (round_even_comp (Qred q / 2 ^ exponent q) (q / 2 ^ exponent q)).
  - reflexivity.
  - rewrite Qred_correct. reflexivity.
Qed.

Lemma fl_comp (q q' : Q) : q == q' -> fl q = fl q'.
Proof.
  intros E. unfold fl. rewrite (Qred_complete _ _ E). reflexivity.
Qed.

Lemma fl_nonneg (q : Q) : 0 <= q -> 0 <= fl q.
Proof.
  intros Hq. destruct (Qeq_dec q 0) as [E | NE].
  - rewrite (fl_zero q E). apply Qle_refl.
  - rewrite (fl_eq q NE).
    pose proof (pow2_pos (exponent q)) as Hp.
    assert (H : (0 <= round_even (q / 2 ^ exponent q))%Z).
    { rewrite <- (round_even_Z 0). apply round_even_mono.
      apply Qle_shift_div_l; [exact Hp |]. change (inject_Z 0) with 0. lra. }
    apply Qmult_le_0_compat; [| apply Qlt_le_weak, Hp].
    rewrite Zle_Qle in H. exact H.
Qed.

Lemma fl_nonpos (q : Q) : q <= 0 -> fl q <= 0.
Proof.
  intros Hq. destruct (Qeq_dec q 0) as [E | NE].
  - rewrite (fl_zero q E). apply Qle_refl.
  - rewrite (fl_eq q NE).
    pose proof (pow2_pos (exponent q)) as Hp.
    assert (H : (round_even (q / 2 ^ exponent q) <= 0)%Z).
    { apply Z.le_trans with (round_even (inject_Z 0));
        [| rewrite round_even_Z; lia].
      apply round_even_mono.
      apply Qle_shift_div_r; [exact Hp |]. change (inject_Z 0) with 0. lra. }
    rewrite Zle_Qle in H. change (inject_Z 0) with 0 in H.
    generalize dependent (inject_Z (round_even (q / 2 ^ exponent q))).
    generalize dependent (2 ^ exponent q). intros; nra.
Qed.


Lemma exponent_pos (q : Q) :
  0 < q -> exponent q = Z.max (ilog2 q - 52) (-1074).
Proof.
  intros Hq. unfold exponent. f_equal. f_equal.
  apply ilog2_comp.
  - rewrite Qabs_pos; [exact Hq | apply Qlt_le_weak, Hq].
  - apply Qabs_pos, Qlt_le_weak, Hq.
Qed.

Lemma exponent_upper (q : Q) : 0 < q -> q < 2 ^ (exponent q + 53).
Proof.
  intros Hq. rewrite (exponent_pos q Hq).
  destruct (ilog2_spec q Hq) as [_ Hhi].
  eapply Qlt_le_trans; [exact Hhi |]. apply pow2_le. lia.
Qed.

Lemma exponent_lower (q : Q) :
  0 < q -> (-1022 <= ilog2 q)%Z -> 2 ^ (exponent q + 52) <= q.
Proof.
  intros Hq Hn. rewrite (exponent_pos q Hq).
  destruct (ilog2_spec q Hq) as [Hlo _].
  replace (Z.max (ilog2 q - 52) (-1074) + 52)%Z with (ilog2 q) by lia.
  exact Hlo.
Qed.

Lemma exponent_mono (q q' : Q) :
  0 < q -> q <= q' -> (exponent q <= exponent q')%Z.
Proof.
  intros Hq Hle. assert (Hq' : 0 < q') by lra.
  rewrite (exponent_pos q Hq), (exponent_pos q' Hq').
  pose proof (ilog2_mono q q' Hq Hle). lia.
Qed.

Lemma pow2_split (a b : Z) : 2 ^ (a + b) == 2 ^ a * 2 ^ b.
Proof. apply Qpower_plus. intros H; discriminate H. Qed.

Lemma fl_mono (q q' : Q) : 0 <= q -> q <= q' -> fl q <= fl q'.
Proof.
  intros Hq Hle. destruct (Qeq_dec q 0) as [E | NE].
  { rewrite (fl_zero q E). apply fl_nonneg. lra. }
  assert (Hq0 : 0 < q).
  { apply Qle_lt_or_eq in Hq. destruct Hq as [H | H]; [exact H |].
    exfalso. apply NE. symmetry. exact H. }
  assert (Hq'0 : 0 < q') by lra.
  assert (NE' : ~ q' == 0) by (intros E; rewrite E in Hq'0; discriminate Hq'0).
  rewrite (fl_eq q NE), (fl_eq q' NE').
  pose proof (exponent_mono q q' Hq0 Hle) as He.
  pose proof (pow2_pos (exponent q)) as Hp.
  pose proof (pow2_pos (exponent q')) as Hp'.
  destruct (Z.eq_dec (exponent q) (exponent q')) as [Ee | NEe].
  - rewrite <- Ee.
    assert (H : (round_even (q / 2 ^ exponent q)
                 <= round_even (q' / 2 ^ exponent q))%Z).
    { apply round_even_mono. apply Qdiv_le_cross; try assumption.
      generalize dependent (2 ^ exponent q). intros; nra. }
    rewrite Zle_Qle in H.
    apply Qmult_le_compat_r; [exact H | apply Qlt_le_weak, Hp].
  - assert (Hlt : (exponent q + 1 <= exponent q')%Z) by lia.
    assert (Hn : (-1022 <= ilog2 q')%Z).
    { rewrite (exponent_pos q Hq0) in Hlt.
      rewrite (exponent_pos q' Hq'0) in Hlt. lia. }
    pose proof (exponent_upper q Hq0) as Hup.
    pose proof (exponent_lower q' Hq'0 Hn) as Hlo.
    assert (H1 : (round_even (q / 2 ^ exponent q) <= 2 ^ 53)%Z).
    { rewrite <- (round_even_Z (2 ^ 53)). apply round_even_mono.
      apply Qle_shift_div_r; [exact Hp |].
      rewrite (pow2_Z 53) by lia. rewrite <- pow2_split.
      rewrite Z.add_comm. apply Qlt_le_weak, Hup. }
    assert (H2 : (2 ^ 52 <= round_even (q' / 2 ^ exponent q'))%Z).
    { rewrite <- (round_even_Z (2 ^ 52)) at 1. apply round_even_mono.
      apply Qle_shift_div_l; [exact Hp' |].
      rewrite (pow2_Z 52) by lia. rewrite <- pow2_split.
      rewrite Z.add_comm. exact Hlo. }
    rewrite Zle_Qle in H1, H2.
    rewrite (pow2_Z 53) in H1 by lia. rewrite (pow2_Z 52) in H2 by lia.
    apply Qle_trans with (2 ^ 53 * 2 ^ exponent q).
    { apply Qmult_le_compat_r; [exact H1 | apply Qlt_le_weak, Hp]. }
    apply Qle_trans with (2 ^ 52 * 2 ^ exponent q').
    2: { apply Qmult_le_compat_r; [exact H2 | apply Qlt_le_weak, Hp']. }
    rewrite <- !pow2_split. apply pow2_le. lia.
Qed.

(** The relative error of a rounding in the normal range. *)
Lemma fl_error (q : Q) :
  2 ^ (-1022) <= q ->
  fl q - q <= q * (1 # 9007199254740992) /\
  q - fl q <= q * (1 # 9007199254740992).
Proof.
  intros Hn.
  assert (Hq : 0 < q) by (pose proof (pow2_pos (-1022)); lra).
  assert (NE : ~ q == 0) by (intros E; rewrite E in Hq; discriminate Hq).
  assert (Hi : (-1022 <= ilog2 q)%Z).
  { destruct (ilog2_spec q Hq) as [_ Hhi].
    destruct (Z_le_gt_dec (-1022) (ilog2 q)) as [H | H]; [exact H |].
    exfalso. assert (2 ^ (ilog2 q + 1) <= 2 ^ (-1022)) by (apply pow2_le; lia).
    lra. }
  pose proof (exponent_lower q Hq Hi) as Hlo.
  rewrite (fl_eq q NE).
  pose proof (pow2_pos (exponent q)) as Hp.
  destruct (round_even_near (q / 2 ^ exponent q)) as [R1 R2].
  rewrite pow2_split in Hlo.
  assert (Hd : q / 2 ^ exponent q * 2 ^ exponent q == q).
  { field. intros E. rewrite E in Hp. discriminate Hp. }
  assert (H52 : 2 ^ 52 == 4503599627370496) by reflexivity.
  rewrite H52 in Hlo.
  generalize dependent (q / 2 ^ exponent q). intros u R1 R2 Hd.
  generalize dependent (inject_Z (round_even u)). intros r R1 R2.
  generalize dependent (2 ^ exponent q). intros p Hlo Hp Hd.
  assert (A1 : r * p <= (u + (1 # 2)) * p).
  { apply Qmult_le_compat_r; [lra | apply Qlt_le_weak, Hp]. }
  assert (A2 : (u - (1 # 2)) * p <= r * p).
  { apply Qmult_le_compat_r; [lra | apply Qlt_le_weak, Hp]. }
  assert (A3 : (u + (1 # 2)) * p == q + (1 # 2) * p) by (rewrite <- Hd; ring).
  assert (A4 : (u - (1 # 2)) * p == q - (1 # 2) * p) by (rewrite <- Hd; ring).
  rewrite A3 in A1. rewrite A4 in A2.
  clear Hn Hd A3 A4 R1 R2 H52 NE Hi.
  generalize dependent (r * p). intros rp A1 A2.
  split; lra.
Qed.

End FloatFacts.

(** ** Percentages *)

Lemma Math_round_nearest (q : Q) :
  (inject_Z (Js.Math_round q) - (1 # 2) <= q /\
   q < inject_Z (Js.Math_round q) + (1 # 2))%Q.
Proof.
  unfold Js.Math_round.
  pose proof (Qfloor_le (q + (1 # 2))) as Hlo.
  pose proof (Qlt_floor (q + (1 # 2))) as Hhi.
  rewrite inject_Z_plus in Hhi.
  change (inject_Z 1) with 1%Q in Hhi.
  split; lra.
Qed.

Section Percent.
Import Js.
Local Open Scope Q_scope.

Lemma Math_round_mono (x y : Q) : x <= y -> (Math_round x <= Math_round y)%Z.
Proof. intros H. apply Qfloor_resp_le. lra. Qed.

Lemma Math_round_Z (z : Z) : Math_round (inject_Z z) = z.
Proof.
  unfold Math_round. pose proof (Qfloor_le (inject_Z z + (1 # 2))) as Hlo.
  pose proof (Qlt_floor (inject_Z z + (1 # 2))) as Hhi.
  rewrite inject_Z_plus in Hhi. change (inject_Z 1) with 1 in Hhi.
  assert (H1 : inject_Z (Qfloor (inject_Z z + (1 # 2))) < inject_Z z + 1) by lra.
  assert (H2 : inject_Z z - 1 < inject_Z (Qfloor (inject_Z z + (1 # 2)))) by lra.
  change 1 with (inject_Z 1) in H1, H2.
  rewrite <- inject_Z_plus in H1. unfold Qminus in H2.
  rewrite <- inject_Z_opp, <- inject_Z_plus in H2.
  rewrite <- Zlt_Qlt in H1, H2. lia.
Qed.

(** The quotient of the counts, as a rational. *)
Lemma ratio_bounds (c t : Z) :
  (0 <= c <= t)%Z -> (0 < t)%Z ->
  0 <= inject_Z c / inject_Z t <= 1.
Proof.
  intros Hc Ht.
  assert (HT : 0 < inject_Z t) by (unfold Qlt; simpl; lia).
  assert (HC : 0 <= inject_Z c) by (unfold Qle; simpl; lia).
  assert (HCT : inject_Z c <= inject_Z t) by (rewrite <- Zle_Qle; lia).
  split.
  - apply Qle_shift_div_l; [exact HT | lra].
  - apply Qle_shift_div_r; [exact HT | lra].
Qed.

Lemma percent_range (c t : Z) :
  (0 <= c <= t)%Z -> (0 < t)%Z ->
  0 <= fl (fl (inject_Z c / inject_Z t) * 100) <= 100.
Proof.
  intros Hc Ht. destruct (ratio_bounds c t Hc Ht) as [H0 H1].
  assert (F0 : 0 <= fl (inject_Z c / inject_Z t)) by (apply fl_nonneg; exact H0).
  assert (F1 : fl (inject_Z c / inject_Z t) <= 1).
  { change 1 with (fl 1). apply fl_mono; assumption. }
  split.
  - apply fl_nonneg. lra.
  - change 100 with (fl 100) at 2. apply fl_mono; lra.
Qed.

Lemma pctInt_range (covered missed : Z) :
  (0 <= covered)%Z -> (0 <= missed)%Z -> (0 <= Coverage.pctInt covered missed <= 100)%Z.
Proof.
  intros Hc Hm. unfold Coverage.pctInt, Js.mul, Js.div.
  destruct (covered + missed =? 0)%Z eqn:E; [lia |].
  apply Z.eqb_neq in E.
  destruct (percent_range covered (covered + missed)) as [H0 H1]; [lia | lia |].
  split.
  - rewrite <- (Math_round_Z 0). apply Math_round_mono. exact H0.
  - rewrite <- (Math_round_Z 100). apply Math_round_mono. exact H1.
Qed.


Lemma pctInt_mono_covered (c c' m : Z) :
  (0 <= c <= c')%Z -> (0 <= m)%Z -> (0 < c + m)%Z ->
  (Coverage.pctInt c m <= Coverage.pctInt c' m)%Z.
Proof.
  intros Hc Hm Ht. unfold Coverage.pctInt, Js.mul, Js.div.
  destruct (c + m =? 0)%Z eqn:E; [apply Z.eqb_eq in E; lia |].
  destruct (c' + m =? 0)%Z eqn:E'; [apply Z.eqb_eq in E'; lia |].
  destruct (ratio_bounds c (c + m)) as [H0 H1]; [lia | lia |].
  apply Math_round_mono, fl_mono.
  - assert (0 <= fl (inject_Z c / inject_Z (c + m))) by (apply fl_nonneg; exact H0).
    lra.
  - apply Qmult_le_compat_r; [| discriminate].
    apply fl_mono; [exact H0 |].
    assert (HT : 0 < inject_Z (c + m)) by (unfold Qlt; simpl; lia).
    assert (HT' : 0 < inject_Z (c' + m)) by (unfold Qlt; simpl; lia).
    apply Qdiv_le_cross; [exact HT | exact HT' |].
    rewrite <- !inject_Z_mult, <- Zle_Qle. nia.
Qed.

Lemma pctInt_mono_missed (c m m' : Z) :
  (0 <= c)%Z -> (0 <= m <= m')%Z -> (Coverage.pctInt c m' <= Coverage.pctInt c m)%Z.
Proof.
  intros Hc Hm. unfold Coverage.pctInt, Js.mul, Js.div.
  destruct (c + m' =? 0)%Z eqn:E'.
  { destruct (c + m =? 0)%Z eqn:E; [lia |].
    apply Z.eqb_eq in E'. apply Z.eqb_neq in E. lia. }
  apply Z.eqb_neq in E'.
  destruct (c + m =? 0)%Z eqn:E.
  { apply Z.eqb_eq in E. assert (c = 0)%Z by lia. subst c.
    assert (Hz : inject_Z 0 / inject_Z (0 + m') == 0).
    { unfold Qdiv. rewrite Qmult_0_l. reflexivity. }
    rewrite (fl_comp _ _ Hz).
    change (Math_round (fl (fl 0 * 100))) with 0%Z. lia. }
  apply Z.eqb_neq in E.
  destruct (ratio_bounds c (c + m')) as [H0 H1]; [lia | lia |].
  apply Math_round_mono, fl_mono.
  - assert (0 <= fl (inject_Z c / inject_Z (c + m'))) by (apply fl_nonneg; exact H0).
    lra.
  - apply Qmult_le_compat_r; [| discriminate].
    apply fl_mono; [exact H0 |].
    assert (HT : 0 < inject_Z (c + m)) by (unfold Qlt; simpl; lia).
    assert (HT' : 0 < inject_Z (c + m')) by (unfold Qlt; simpl; lia).
    apply Qdiv_le_cross; [exact HT' | exact HT |].
    rewrite <- !inject_Z_mult, <- Zle_Qle. nia.
Qed.

Lemma pctInt_all_covered (c : Z) : (0 < c)%Z -> Coverage.pctInt c 0 = 100%Z.
Proof.
  intros Hc. unfold Coverage.pctInt, Js.mul, Js.div.
  destruct (c + 0 =? 0)%Z eqn:E; [apply Z.eqb_eq in E; lia |].
  assert (H1 : inject_Z c / inject_Z (c + 0) == 1).
  { rewrite Z.add_0_r. field. unfold Qeq; simpl; lia. }
  rewrite (fl_comp _ _ H1). reflexivity.
Qed.

Lemma pctInt_none_covered (m : Z) : Coverage.pctInt 0 m = 0%Z.
Proof.
  unfold Coverage.pctInt, Js.mul, Js.div. destruct (0 + m =? 0)%Z; [reflexivity |].
  assert (Hz : inject_Z 0 / inject_Z (0 + m) == 0).
  { unfold Qdiv. rewrite Qmult_0_l. reflexivity. }
  rewrite (fl_comp _ _ Hz). reflexivity.
Qed.

(** The binary64 percentage is within 100 * (2^-52 + 2^-106) of the
    exact one, relatively. *)
Lemma percent_error (c t : Z) :
  (1 <= c <= t)%Z -> (t < 2 ^ 44)%Z ->
  let a := inject_Z c / inject_Z t in
  let y := fl (fl a * 100) in
  y <= 100 * a + a * (1 # 45035996273704) /\
  100 * a - a * (1 # 45035996273704) <= y.
Proof.
  intros Hc Ht a y.
  destruct (ratio_bounds c t) as [H0 H1]; [lia | lia |]. fold a in H0, H1.
  assert (HT : 0 < inject_Z t) by (unfold Qlt; simpl; lia).
  assert (Hlow : (1 # 17592186044416) <= a).
  { unfold a. 
    setoid_replace (1 # 17592186044416) with (1 / 17592186044416) by reflexivity.
    apply Qdiv_le_cross; [reflexivity | exact HT |].
    assert (inject_Z t <= 17592186044416).
    { change 17592186044416 with (inject_Z (2 ^ 44)). rewrite <- Zle_Qle. lia. }
    assert (1 <= inject_Z c).
    { change 1 with (inject_Z 1). rewrite <- Zle_Qle. lia. }
    generalize dependent (inject_Z c). generalize dependent (inject_Z t).
    intros; nra. }
  assert (Hmin : 2 ^ (-1022) <= (1 # 35184372088832)).
  { change (1 # 35184372088832) with (2 ^ (-45)). apply pow2_le. lia. }
  destruct (fl_error a) as [E1 E2]; [lra |].
  destruct (fl_error (fl a * 100)) as [E3 E4]; [lra |].
  fold y in E3, E4.
  generalize dependent (fl a). intros y1 y E1 E2 E3 E4.
  clear Hmin. split; lra.
Qed.


Lemma pctInt_near (c m : Z) :
  (0 <= c)%Z -> (0 <= m)%Z -> (0 < c + m < 2 ^ 44)%Z ->
  inject_Z (Coverage.pctInt c m) - (1 # 2) <= inject_Z c / inject_Z (c + m) * 100 /\
  inject_Z c / inject_Z (c + m) * 100 <= inject_Z (Coverage.pctInt c m) + (1 # 2).
Proof.
  intros Hc Hm Ht.
  destruct (Z.eq_dec c 0) as [-> | Hc0].
  { rewrite pctInt_none_covered. unfold Qdiv. rewrite !Qmult_0_l.
    split; discriminate. }
  set (t := (c + m)%Z) in *.
  assert (Hp : Coverage.pctInt c m = Math_round (fl (fl (inject_Z c / inject_Z t) * 100))).
  { unfold Coverage.pctInt, Js.mul, Js.div. fold t. destruct (t =? 0)%Z eqn:E; [| reflexivity].
    apply Z.eqb_eq in E. lia. }
  destruct (percent_error c t) as [Y1 Y2]; [lia | lia |].
  destruct (Math_round_nearest (fl (fl (inject_Z c / inject_Z t) * 100)))
    as [R1 R2].
  rewrite <- Hp in R1, R2.
  set (p := Coverage.pctInt c m) in *.
  assert (HT : 0 < inject_Z t) by (unfold Qlt; simpl; lia).
  assert (HTb : inject_Z t < 17592186044416).
  { change 17592186044416 with (inject_Z (2 ^ 44)). rewrite <- Zlt_Qlt. lia. }
  assert (HX : inject_Z c <= inject_Z t) by (rewrite <- Zle_Qle; lia).
  assert (HX1 : 1 <= inject_Z c).
  { change 1 with (inject_Z 1). rewrite <- Zle_Qle. lia. }
  assert (Ha : inject_Z c / inject_Z t * inject_Z t == inject_Z c).
  { field. intros E. rewrite E in HT. discriminate HT. }
  set (a := inject_Z c / inject_Z t) in *.
  generalize dependent (fl (fl a * 100)). intros y Hp Y1 Y2 R1 R2.
  (* the integer on either side *)
  assert (Zlo : (2 * (p * t) <= 200 * c + t)%Z).
  { destruct (Z_le_gt_dec (2 * (p * t)) (200 * c + t)) as [H | H]; [exact H |].
    exfalso. assert (H' : (200 * c + t + 1 <= 2 * (p * t))%Z) by lia.
    rewrite Zle_Qle in H'.
    rewrite !inject_Z_plus, !inject_Z_mult in H'.
    change (inject_Z 200) with 200 in H'. change (inject_Z 2) with 2 in H'.
    change (inject_Z 1) with 1 in H'.
    assert (M : (inject_Z p - (1 # 2)) * inject_Z t
                <= (100 * a + a * (1 # 45035996273704)) * inject_Z t).
    { apply Qmult_le_compat_r; [lra | apply Qlt_le_weak, HT]. }
    assert (M' : (100 * a + a * (1 # 45035996273704)) * inject_Z t
                 == 100 * inject_Z c + inject_Z c * (1 # 45035996273704)).
    { rewrite <- Ha. ring. }
    rewrite M' in M.
    assert (N : (inject_Z p - (1 # 2)) * inject_Z t
                == inject_Z p * inject_Z t - (1 # 2) * inject_Z t) by ring.
    rewrite N in M.
    clear Ha M' N Y1 Y2 R1 R2.
    generalize dependent (inject_Z p * inject_Z t). intros pt H' M. lra. }
  assert (Zhi : (200 * c <= 2 * (p * t) + t)%Z).
  { destruct (Z_le_gt_dec (200 * c) (2 * (p * t) + t)) as [H | H]; [exact H |].
    exfalso. assert (H' : (2 * (p * t) + t + 1 <= 200 * c)%Z) by lia.
    rewrite Zle_Qle in H'.
    rewrite !inject_Z_plus, !inject_Z_mult in H'.
    change (inject_Z 200) with 200 in H'. change (inject_Z 2) with 2 in H'.
    change (inject_Z 1) with 1 in H'.
    assert (M : (100 * a - a * (1 # 45035996273704)) * inject_Z t
                <= (inject_Z p + (1 # 2)) * inject_Z t).
    { apply Qmult_le_compat_r; [lra | apply Qlt_le_weak, HT]. }
    assert (M' : (100 * a - a * (1 # 45035996273704)) * inject_Z t
                 == 100 * inject_Z c - inject_Z c * (1 # 45035996273704)).
    { rewrite <- Ha. ring. }
    rewrite M' in M.
    assert (N : (inject_Z p + (1 # 2)) * inject_Z t
                == inject_Z p * inject_Z t + (1 # 2) * inject_Z t) by ring.
    rewrite N in M.
    clear Ha M' N Y1 Y2 R1 R2.
    generalize dependent (inject_Z p * inject_Z t). intros pt H' M. lra. }
  (* back to the rationals *)
  rewrite Zle_Qle in Zlo, Zhi.
  rewrite !inject_Z_plus, !inject_Z_mult in Zlo, Zhi.
  change (inject_Z 200) with 200 in *. change (inject_Z 2) with 2 in *.
  assert (G1 : (inject_Z p - (1 # 2)) * inject_Z t <= a * 100 * inject_Z t).
  { setoid_replace (a * 100 * inject_Z t) with (100 * inject_Z c)
      by (rewrite <- Ha; ring).
    setoid_replace ((inject_Z p - (1 # 2)) * inject_Z t)
      with (inject_Z p * inject_Z t - (1 # 2) * inject_Z t) by ring.
    clear Ha Y1 Y2 R1 R2.
    generalize dependent (inject_Z p * inject_Z t). intros; lra. }
  assert (G2 : a * 100 * inject_Z t <= (inject_Z p + (1 # 2)) * inject_Z t).
  { setoid_replace (a * 100 * inject_Z t) with (100 * inject_Z c)
      by (rewrite <- Ha; ring).
    setoid_replace ((inject_Z p + (1 # 2)) * inject_Z t)
      with (inject_Z p * inject_Z t + (1 # 2) * inject_Z t) by ring.
    clear Ha Y1 Y2 R1 R2 G1.
    generalize dependent (inject_Z p * inject_Z t). intros; lra. }
  split.
  - apply Qmult_lt_0_le_reg_r with (inject_Z t); assumption.
  - apply Qmult_lt_0_le_reg_r with (inject_Z t); assumption.
Qed.

(** Away from a tie an integer within one half is the rounded value. *)
Lemma Math_round_unique (x : Q) (p : Z) :
  inject_Z p - (1 # 2) <= x -> x <= inject_Z p + (1 # 2) ->
  ~ x == inject_Z (Math_round x) - (1 # 2) ->
  p = Math_round x.
Proof.
  intros Hlo Hhi Htie.
  destruct (Math_round_nearest x) as [Rlo Rhi].
  assert (Rlo' : inject_Z (Math_round x) - (1 # 2) < x).
  { apply Qle_lt_or_eq in Rlo. destruct Rlo as [H | H]; [exact H |].
    exfalso. apply Htie. symmetry. exact H. }
  assert (H1 : inject_Z p < inject_Z (Math_round x) + 1) by lra.
  assert (H2 : inject_Z (Math_round x) - 1 < inject_Z p) by lra.
  change 1 with (inject_Z 1) in H1, H2.
  rewrite <- inject_Z_plus in H1. unfold Qminus in H2.
  rewrite <- inject_Z_opp, <- inject_Z_plus in H2.
  rewrite <- Zlt_Qlt in H1, H2. lia.
Qed.

End Percent.

(** C5, as the code has it.  For non-negative counts whose total is
    below 2^44 the percentage is 0 when there is nothing to cover;
    otherwise it is an integer within one half of
    [covered / (covered + missed) * 100], and it is that quotient
    rounded, [Math.round] of it, whenever the quotient is not exactly
    halfway between two integers.  It lies between 0 and 100, it is the
    number [cmdCoverage] computes for its thresholds, and [3, 1] gives 75
    and [1, 2] gives 33.  On an exact tie the binary64 product decides
    between the two neighbours. *)
Theorem pctInt_rounds (covered missed : Z) :
  0 <= covered -> 0 <= missed -> covered + missed < 2 ^ 44 ->
  let exact := (inject_Z covered / inject_Z (covered + missed) * 100)%Q in
  (covered + missed = 0 -> Coverage.pctInt covered missed = 0) /\
  (0 < covered + missed ->
   (inject_Z (Coverage.pctInt covered missed) - (1 # 2) <= exact /\
    exact <= inject_Z (Coverage.pctInt covered missed) + (1 # 2))%Q /\
   (~ (exact == inject_Z (Js.Math_round exact) - (1 # 2))%Q ->
    Coverage.pctInt covered missed = Js.Math_round exact)) /\
  0 <= Coverage.pctInt covered missed <= 100 /\
  Cli.thresholdPct (Some covered) (Some missed) =
    Coverage.pctInt covered missed /\
  Coverage.pctInt 0 0 = 0 /\
  Coverage.pctInt 3 1 = 75 /\
  Coverage.pctInt 1 2 = 33.
Proof.
  intros Hc Hm Ht exact.
  split.
  { intros H0. unfold Coverage.pctInt. rewrite H0. reflexivity. }
  split.
  { intros Hpos.
    destruct (pctInt_near covered missed Hc Hm (conj Hpos Ht)) as [Hlo Hhi].
    split; [split; assumption |].
    intros Htie. apply Math_round_unique; assumption. }
  split; [apply pctInt_range; assumption |].
  split; [reflexivity |].
  repeat split; vm_compute; reflexivity.
Qed.

Lemma pctInt_rounds_witness :
  Coverage.pctInt 3 1 = 75 /\
  Coverage.pctInt 3 1 = Js.Math_round (inject_Z 3 / inject_Z (3 + 1) * 100).
Proof.
  pose proof (pctInt_rounds 3 1 ltac:(lia) ltac:(lia) ltac:(lia)) as H.
  cbv zeta in H. split.
  - apply H.
  - apply (proj1 (proj2 H)); [lia |].
    vm_compute. discriminate.
Defined.

(** C5, as stated, fails on a tie: 23 covered and 17 missed are 57.5
    percent, which rounds to 58, while the binary64 product of the
    source is 57.49999999999999 and [pctInt], like the percentage of
    [cmdCoverage], is 57. *)
Lemma pctInt_tie_falls_short :
  Coverage.pctInt 23 17 = 57 /\
  Cli.thresholdPct (Some 23) (Some 17) = 57 /\
  Js.Math_round (inject_Z 23 / inject_Z (23 + 17) * 100) = 58 /\
  (Js.mul (Js.div (inject_Z 23) (inject_Z (23 + 17))) 100
   == 8092405580431359 # 140737488355328)%Q /\
  Coverage.pctInt 23 17
    <> Js.Math_round (inject_Z 23 / inject_Z (23 + 17) * 100).
Proof.
  repeat split; try (vm_compute; reflexivity).
  vm_compute. discriminate.
Qed.

(** ** Maps *)

Section MapFacts.
Context {V : Type}.

Lemma set_In (k : string) (v : V) (m : Js.Map V) (e : string * V) :
  In e (Js.set k v m) -> e = (k, v) \/ In e m.
Proof.
  induction m as [|[k' v'] r IH]; simpl.
  - intros [H | []]; left; symmetry; exact H.
  - destruct (String.eqb k' k).
    + simpl. intros [H | H]; [left; symmetry; exact H | right; right; exact H].
    + simpl. intros [H | H]; [right; left; exact H |].
      destruct (IH H) as [H' | H']; [left; exact H' | right; right; exact H'].
Qed.

Lemma get_In (k : string) (m : Js.Map V) (v : V) :
  Js.get k m = Some v -> In (k, v) m.
Proof.
  induction m as [|[k' v'] r IH]; simpl; [discriminate |].
  destruct (String.eqb k' k) eqn:E.
  - apply String.eqb_eq in E. intros H; inversion H; subst. left; reflexivity.
  - intros H. right. exact (IH H).
Qed.

Lemma values_In (m : Js.Map V) (v : V) :
  In v (Js.values m) <-> exists k, In (k, v) m.
Proof.
  unfold Js.values. rewrite in_map_iff. split.
  - intros [[k v'] [E H]]. simpl in E; subst. exists k; exact H.
  - intros [k H]. exists (k, v). split; [reflexivity | exact H].
Qed.

End MapFacts.

(** ** The coverage tree *)

Section CoverageFacts.
Import Coverage Spec Inv.

Lemma subnode_trans (a b c : PackageNode) :
  subnode a b -> subnode b c -> subnode a c.
Proof.
  induction 1 as [n | n k ch m Hin Hsub IH]; intros Hbc.
  - exact Hbc.
  - eapply subnode_child; [exact Hin | exact (IH Hbc)].
Qed.

Lemma every_files_child (R : list SourceFile -> Prop) (t : PackageNode)
    (k : string) (c : PackageNode) :
  every_files R t -> In (k, c) (pn_children t) -> every_files R c.
Proof.
  intros H Hin n Hn. apply H. eapply subnode_child; eassumption.
Qed.

Lemma every_files_newNode (R : list SourceFile -> Prop) (part path : string) :
  R [] -> every_files R (newNode part path).
Proof.
  intros H n Hn. inversion Hn; subst; [exact H |].
  simpl in *. contradiction.
Qed.

(** Walking to a node and changing its files keeps a property of file
    lists that the change keeps. *)
Lemma at_path_every_files (R : list SourceFile -> Prop)
    (f : PackageNode -> PackageNode) :
  R [] ->
  (forall n, R (pn_sourcefile n) -> R (pn_sourcefile (f n))) ->
  (forall n, pn_children (f n) = pn_children n) ->
  forall parts path cur,
    every_files R cur -> every_files R (at_path parts path f cur).
Proof.
  intros Hnil Hf Hch parts.
  induction parts as [|part rest IH]; intros path cur Hcur n Hn.
  - simpl in Hn. inversion Hn; subst.
    + apply Hf, Hcur, subnode_here.
    + rewrite Hch in *. apply Hcur. eapply subnode_child; eassumption.
  - simpl in Hn. inversion Hn; subst.
    + simpl. apply Hcur, subnode_here.
    + simpl in H. apply set_In in H. destruct H as [H | H].
      * inversion H; subst. revert H0. apply IH.
        destruct (Js.get part (pn_children cur)) as [c0|] eqn:E.
        -- eapply every_files_child; [exact Hcur | apply get_In, E].
        -- apply every_files_newNode, Hnil.
      * apply Hcur. eapply subnode_child; eassumption.
Qed.

(** Every node of the aggregated tree is the aggregate of a node of the
    tree that was given. *)
Lemma aggregateCoverage_subnode (cmp : string -> string -> Z)
    (t n : PackageNode) :
  subnode (aggregateCoverage cmp t) n ->
  exists n0, subnode t n0 /\ n = aggregateCoverage cmp n0.
Proof.
  revert n.
  induction t as [name fullName sfs children lc lm fc fm IH]
    using PackageNode_ind.
  intros n Hn. inversion Hn; subst.
  - eexists; split; [apply subnode_here | reflexivity].
  - simpl in H. apply sort_In in H. apply in_map_iff in H.
    destruct H as [[k0 c0] [E Hin]]. simpl in E. injection E as <- <-.
    rewrite Forall_forall in IH.
    destruct (IH (k0, c0) Hin n H0) as [n0 [Hsub Heq]].
    exists n0. split; [| exact Heq].
    eapply subnode_child; [| exact Hsub]. simpl. exact Hin.
Qed.

End CoverageFacts.

Section CoverageAggregation.
Import Coverage Spec Inv.

Variable cmp : string -> string -> Z.

Lemma totals_eq (a b : Totals) :
  linesCovered a = linesCovered b -> linesMissed a = linesMissed b ->
  funcsCovered a = funcsCovered b -> funcsMissed a = funcsMissed b ->
  a = b.
Proof.
  destruct a, b; simpl; intros; subst; reflexivity.
Qed.

Lemma addTotals_zero_l (a : Totals) : addTotals zeroTotals a = a.
Proof. apply totals_eq; simpl; lia. Qed.

Lemma addTotals_assoc (a b c : Totals) :
  addTotals (addTotals a b) c = addTotals a (addTotals b c).
Proof. apply totals_eq; simpl; lia. Qed.

Lemma addTotals_swap (a b c : Totals) :
  addTotals a (addTotals b c) = addTotals b (addTotals a c).
Proof. apply totals_eq; simpl; lia. Qed.

Lemma addTotals_comm (a b : Totals) : addTotals a b = addTotals b a.
Proof. apply totals_eq; simpl; lia. Qed.

Lemma fold_left_addTotals (A : Type) (f : A -> Totals) (l : list A)
    (a : Totals) :
  fold_left (fun acc x => addTotals acc (f x)) l a =
  addTotals a (sumTotals (map f l)).
Proof.
  revert a; induction l as [|x l IH]; intros a; simpl.
  - apply totals_eq; simpl; lia.
  - rewrite IH. apply addTotals_assoc.
Qed.

Lemma sumTotals_perm (l1 l2 : list Totals) :
  Permutation l1 l2 -> sumTotals l1 = sumTotals l2.
Proof.
  induction 1 as [| x l l' _ IH | x y l | l l' l'' _ IH1 _ IH2]; simpl.
  - reflexivity.
  - rewrite IH. reflexivity.
  - apply addTotals_swap.
  - rewrite IH1. exact IH2.
Qed.

(** What [aggregateCoverage] writes into a node, whatever the node
    held before. *)
Lemma aggregateCoverage_sums (t : PackageNode) :
  coverage_aggregated (aggregateCoverage cmp t).
Proof.
  destruct t as [name fullName sfs children lc lm fc fm].
  split.
  - simpl. repeat split; discriminate.
  - unfold node_totals. simpl.
    rewrite !fold_left_addTotals, addTotals_zero_l.
    rewrite (addTotals_comm (sumTotals (map file_totals sfs))).
    match goal with
    | |- mkTotals (linesCovered ?a) _ _ _ = _ =>
        transitivity a; [destruct a; reflexivity |]
    end.
    f_equal. apply sumTotals_perm.
    apply Permutation_map. unfold Js.values. apply Permutation_map.
    apply sort_perm.
Qed.

Lemma Sorted_keys (V : Type) (m : Js.Map V) :
  Sorted (fun a b => cmp (fst a) (fst b) <= 0) m -> keys_sorted cmp m.
Proof.
  unfold keys_sorted, Js.keys.
  induction 1 as [|x r Hr IH Hhd]; simpl; constructor.
  - exact IH.
  - destruct Hhd; simpl; constructor; assumption.
Qed.

Lemma aggregateCoverage_children_sorted (t : PackageNode) :
  (forall a b, 0 < cmp a b -> cmp b a <= 0) ->
  keys_sorted cmp (pn_children (aggregateCoverage cmp t)).
Proof.
  intros Htotal. destruct t as [name fullName sfs children lc lm fc fm].
  simpl. apply Sorted_keys.
  apply (sort_sorted (fun a b : string * PackageNode => cmp (fst a) (fst b))).
  intros a b. apply Htotal.
Qed.

Lemma aggregateCoverage_sourcefile (t : PackageNode) :
  pn_sourcefile (aggregateCoverage cmp t) = pn_sourcefile t.
Proof. destruct t; reflexivity. Qed.

Lemma aggregateCoverage_every_files (R : list SourceFile -> Prop)
    (t : PackageNode) :
  every_files R t -> every_files R (aggregateCoverage cmp t).
Proof.
  intros H n Hn.
  destruct (aggregateCoverage_subnode cmp t n Hn) as [n0 [Hsub ->]].
  rewrite aggregateCoverage_sourcefile. apply H, Hsub.
Qed.

(** *** The builder *)

Lemma attach_children (pkg : XmlPackage) (n : PackageNode) :
  pn_children (attach cmp pkg n) = pn_children n.
Proof. reflexivity. Qed.

Lemma addPackage_every_files (R : list SourceFile -> Prop) (pkg : XmlPackage) :
  R [] ->
  (forall n, R (pn_sourcefile n) -> R (pn_sourcefile (attach cmp pkg n))) ->
  forall root, every_files R root -> every_files R (addPackage cmp root pkg).
Proof.
  intros Hnil Hattach root Hroot. unfold addPackage.
  apply at_path_every_files; try assumption.
  intros n. apply attach_children.
Qed.

Lemma addPackages_every_files (R : list SourceFile -> Prop)
    (pkgs : list XmlPackage) :
  R [] ->
  (forall pkg n, In pkg pkgs ->
     R (pn_sourcefile n) -> R (pn_sourcefile (attach cmp pkg n))) ->
  forall root,
    every_files R root ->
    every_files R (fold_left (addPackage cmp) pkgs root).
Proof.
  intros Hnil. induction pkgs as [|pkg pkgs IH]; intros Hattach root Hroot.
  - exact Hroot.
  - simpl. apply IH.
    + intros p n Hp. apply Hattach. right; exact Hp.
    + apply addPackage_every_files; try assumption.
      intros n. apply Hattach. left; reflexivity.
Qed.

Lemma build_every_files (R : list SourceFile -> Prop)
    (pkgs : list XmlPackage) (root : PackageNode) :
  R [] ->
  (forall pkg n, In pkg pkgs ->
     R (pn_sourcefile n) -> R (pn_sourcefile (attach cmp pkg n))) ->
  buildCoverageTreeFromJaCoCo cmp (Some pkgs) = Some root ->
  every_files R root.
Proof.
  intros Hnil Hattach. unfold buildCoverageTreeFromJaCoCo.
  destruct (List.length pkgs =? 0)%nat; [discriminate |].
  intros H; injection H as <-.
  apply aggregateCoverage_every_files, addPackages_every_files;
    try assumption.
  apply every_files_newNode, Hnil.
Qed.

Lemma build_root_aggregate (report : option (list XmlPackage))
    (root : PackageNode) :
  buildCoverageTreeFromJaCoCo cmp report = Some root ->
  exists t, root = aggregateCoverage cmp t.
Proof.
  unfold buildCoverageTreeFromJaCoCo.
  destruct report as [pkgs|]; [| discriminate].
  destruct (List.length pkgs =? 0)%nat; [discriminate |].
  intros H; injection H as <-. eexists; reflexivity.
Qed.

(** The uncovered lines of the files one package brings are in
    ascending order. *)
Lemma attach_lines_ascending (pkg : XmlPackage) (n : PackageNode) :
  Forall (fun sf => Sorted Z.le (sf_uncoveredLines sf)) (pn_sourcefile n) ->
  Forall (fun sf => Sorted Z.le (sf_uncoveredLines sf))
         (pn_sourcefile (attach cmp pkg n)).
Proof.
  intros H. unfold attach. simpl. apply sort_Forall.
  destruct (0 <? List.length (xp_sourcefile pkg))%nat.
  - apply Forall_app. split; [exact H |].
    apply Forall_forall. intros sf Hsf. apply in_map_iff in Hsf.
    destruct Hsf as [x [<- _]]. simpl. apply sort_numeric_ascending.
  - apply Forall_app. split; [exact H |].
    apply Forall_forall. intros sf Hsf. apply in_map_iff in Hsf.
    destruct Hsf as [[name g] [<- _]]. simpl. constructor.
Qed.

End CoverageAggregation.

(** ** The outcome tree *)

Section OutcomeAggregation.
Import TestsTree Spec Inv.

Lemma counts_eq (a b : Counts) :
  passed a = passed b -> failed a = failed b -> skipped a = skipped b ->
  a = b.
Proof.
  destruct a, b; simpl; intros; subst; reflexivity.
Qed.

Lemma addCounts_zero_l (a : Counts) : addCounts zeroCounts a = a.
Proof. apply counts_eq; simpl; lia. Qed.

Lemma addCounts_assoc (a b c : Counts) :
  addCounts (addCounts a b) c = addCounts a (addCounts b c).
Proof. apply counts_eq; simpl; lia. Qed.

(** The two running numbers of the loops of [aggregate]. *)
Lemma fold_left_stats (A : Type) (f : A -> Z) (g : A -> Counts)
    (l : list A) (d : Z) (c : Counts) :
  fold_left (fun acc x => (fst acc + f x, addCounts (snd acc) (g x))) l (d, c)
  = (d + zsum (map f l), addCounts c (sumCounts (map g l))).
Proof.
  revert d c; induction l as [|x l IH]; intros d c; simpl.
  - f_equal; [lia | apply counts_eq; simpl; lia].
  - rewrite IH. f_equal; [lia | apply addCounts_assoc].
Qed.

Lemma fold_left_cases (cases : list TestCaseNode) (d : Z) (c : Counts) :
  fold_left
    (fun acc x => (fst acc + tc_durationMs x, bump (snd acc) (tc_status x)))
    cases (d, c)
  = (d + zsum (map tc_durationMs cases),
     addCounts c (mkCounts (count_status Passed cases)
                           (count_status Failed cases)
                           (count_status Skipped cases))).
Proof.
  revert d c; induction cases as [|x l IH]; intros d c.
  - unfold count_status. simpl.
    f_equal; [lia | apply counts_eq; simpl; lia].
  - simpl fold_left. rewrite IH. f_equal.
    + simpl. lia.
    + unfold count_status. simpl filter.
      destruct (tc_status x); simpl status_eqb; cbv iota;
        apply counts_eq; simpl bump; simpl List.length;
        simpl addCounts; simpl passed; simpl failed; simpl skipped;
        lia.
Qed.

Lemma aggregateClass_aggregated (cls : TestClassNode) :
  class_aggregated (aggregateClass cls).
Proof.
  unfold class_aggregated, aggregateClass. simpl.
  rewrite fold_left_cases. simpl.
  split; [apply addCounts_zero_l | reflexivity].
Qed.

(** What one run of [aggregate] leaves in a node: what the node held,
    plus its classes, plus its children. *)
Lemma aggregate_adds (n : TestPackageNode) :
  pkg_counts (aggregate n) =
    addCounts
      (addCounts (pkg_counts n)
         (sumCounts (map cls_counts (Js.values (pkg_classes (aggregate n))))))
      (sumCounts (map pkg_counts (Js.values (pkg_children (aggregate n)))))
  /\
  pkg_durationMs (aggregate n) =
    pkg_durationMs n +
    zsum (map cls_durationMs (Js.values (pkg_classes (aggregate n)))) +
    zsum (map pkg_durationMs (Js.values (pkg_children (aggregate n))))
  /\
  Forall class_aggregated (Js.values (pkg_classes (aggregate n))).
Proof.
  destruct n as [name fullName children classes counts dur].
  simpl. rewrite !fold_left_stats. simpl.
  split; [reflexivity |]. split; [reflexivity |].
  apply Forall_forall. intros c Hc. unfold Js.values in Hc.
  rewrite map_map in Hc. apply in_map_iff in Hc.
  destruct Hc as [kc [<- _]]. simpl. apply aggregateClass_aggregated.
Qed.

Lemma aggregate_fresh (n : TestPackageNode) :
  fresh n -> outcome_aggregated (aggregate n).
Proof.
  intros [Hc Hd]. destruct (aggregate_adds n) as (H1 & H2 & H3).
  rewrite Hc, addCounts_zero_l in H1. rewrite Hd in H2.
  split; [exact H1 |]. split; [lia | exact H3].
Qed.

(** Every node of the aggregated tree is the aggregate of a node of the
    tree that was given. *)
Lemma aggregate_subnode (t n : TestPackageNode) :
  subnode (aggregate t) n ->
  exists n0, subnode t n0 /\ n = aggregate n0.
Proof.
  revert n.
  induction t as [name fullName children classes counts dur IH]
    using TestPackageNode_ind.
  intros n Hn. inversion Hn; subst.
  - eexists; split; [apply subnode_here | reflexivity].
  - simpl in H. apply in_map_iff in H.
    destruct H as [[k0 c0] [E Hin]]. simpl in E. injection E as <- <-.
    rewrite Forall_forall in IH.
    destruct (IH (k0, c0) Hin n H0) as [n0 [Hsub Heq]].
    exists n0. split; [| exact Heq].
    eapply subnode_child; [| exact Hsub]. simpl. exact Hin.
Qed.

Lemma aggregate_every_fresh (t : TestPackageNode) :
  every_package fresh t ->
  every_package outcome_aggregated (aggregate t).
Proof.
  intros H n Hn.
  destruct (aggregate_subnode t n Hn) as [n0 [Hsub ->]].
  apply aggregate_fresh, H, Hsub.
Qed.

(** *** The builder *)

Lemma every_package_child (R : TestPackageNode -> Prop)
    (t : TestPackageNode) (k : string) (c : TestPackageNode) :
  every_package R t -> In (k, c) (pkg_children t) -> every_package R c.
Proof.
  intros H Hin n Hn. apply H. eapply subnode_child; eassumption.
Qed.

Lemma every_package_new (R : TestPackageNode -> Prop) (part full : string) :
  R (newPackage part full) -> every_package R (newPackage part full).
Proof.
  intros H n Hn. inversion Hn; subst; [exact H |].
  simpl in *. contradiction.
Qed.

(** [ensurePackage] followed by a change [k] of the node reached keeps
    a property of nodes that new nodes have, that [k] keeps, and that
    does not look at the children. *)
Lemma ensurePackage_every (R : TestPackageNode -> Prop)
    (k : TestPackageNode -> TestPackageNode) :
  (forall part full, R (newPackage part full)) ->
  (forall n cs, R n -> R (with_children n cs)) ->
  (forall n, R n -> R (k n)) ->
  (forall n, pkg_children (k n) = pkg_children n) ->
  forall path full cur,
    every_package R cur -> every_package R (ensurePackage cur path full k).
Proof.
  intros Hnew Hwc Hk Hch path.
  induction path as [|part rest IH]; intros full cur Hcur n Hn.
  - simpl in Hn. inversion Hn; subst.
    + apply Hk, Hcur, subnode_here.
    + rewrite Hch in *. apply Hcur. eapply subnode_child; eassumption.
  - simpl in Hn. inversion Hn; subst.
    + apply Hwc, Hcur, subnode_here.
    + simpl in H. apply set_In in H. destruct H as [H | H].
      * inversion H; subst. revert H0. apply IH.
        destruct (Js.get part (pkg_children cur)) as [c0|] eqn:E.
        -- eapply every_package_child; [exact Hcur | apply get_In, E].
        -- apply every_package_new, Hnew.
      * apply Hcur. eapply subnode_child; eassumption.
Qed.

Lemma add_case_fresh (s : XmlSuite) (root : TestPackageNode)
    (tc : XmlTestCase) :
  every_package fresh root -> every_package fresh (add_case s root tc).
Proof.
  intros H. unfold add_case.
  destruct (splitClassName (classname_of s tc)) as [[pkgPath className] fullName].
  apply ensurePackage_every; try assumption.
  - intros; split; reflexivity.
  - intros n cs Hn. exact Hn.
  - intros n Hn. exact Hn.
  - reflexivity.
Qed.

Lemma fold_left_invariant (A B : Type) (R : B -> Prop) (f : B -> A -> B)
    (l : list A) (b : B) :
  (forall b a, R b -> R (f b a)) -> R b -> R (fold_left f l b).
Proof.
  intros Hf. revert b. induction l as [|a l IH]; intros b Hb; simpl.
  - exact Hb.
  - apply IH, Hf, Hb.
Qed.

(** *** The loops of the builder *)

Lemma fold_left_flat_map (A B C : Type) (f : C -> B -> C) (g : A -> list B)
    (l : list A) (c : C) :
  fold_left f (flat_map g l) c =
  fold_left (fun c x => fold_left f (g x) c) l c.
Proof.
  revert c. induction l as [|x l IH]; intros c; simpl; [reflexivity |].
  rewrite fold_left_app. apply IH.
Qed.

Lemma add_suites_as_records (suites : list XmlSuite) (root : TestPackageNode) :
  fold_left add_suite suites root =
  fold_left Walk.add_record
    (flat_map (fun s => map (pair s) (normalizeCases s)) suites) root.
Proof.
  rewrite fold_left_flat_map. revert root.
  induction suites as [|s suites IH]; intros root; simpl; [reflexivity |].
  rewrite IH. f_equal. unfold add_suite.
  generalize (normalizeCases s). intros cases. revert root.
  induction cases as [|tc cases IHc]; intros root; simpl; [reflexivity |].
  apply IHc.
Qed.

(** When the body of the loop over the files returns, it has added the
    records of the entry, one by one. *)
Lemma add_file_returns (root r : TestPackageNode) (f : DirEntry) :
  Js.endsWith (e_name f) ".xml" = true ->
  add_file root f = Js.Normal r ->
  r = fold_left Walk.add_record (Records.entry_records f) root.
Proof.
  intros E. unfold add_file, Records.entry_records, Records.is_file.
  rewrite E. simpl.
  destruct (e_isFile f) as [[|]|]; simpl; try discriminate.
  - destruct (e_parsed f) as [data|]; intros H; injection H as <-;
      [apply add_suites_as_records | reflexivity].
  - intros H; injection H as <-. reflexivity.
Qed.

Lemma add_file_examinable (root : TestPackageNode) (f : DirEntry) :
  e_isFile f <> Js.Throw -> exists r, add_file root f = Js.Normal r.
Proof.
  unfold add_file. destruct (e_isFile f) as [b|]; [| congruence].
  intros _. destruct (negb b); [eexists; reflexivity |].
  destruct (e_parsed f); eexists; reflexivity.
Qed.

(** The three nested loops of [buildTestsTree], when they come to an
    end, have added the records of the directory one by one, in the
    order of [leaf_records]. *)
Lemma add_files_returns (entries : list DirEntry) (root r : TestPackageNode) :
  Js.for_of add_file
    (filter (fun f => Js.endsWith (e_name f) ".xml") entries) root
  = Js.Normal r ->
  r = fold_left Walk.add_record (Records.leaf_records entries) root.
Proof.
  unfold Records.leaf_records. revert root.
  induction entries as [|f entries IH]; intros root; simpl.
  - intros H; injection H as <-. reflexivity.
  - rewrite fold_left_app.
    destruct (Js.endsWith (e_name f) ".xml") eqn:E; simpl.
    + destruct (add_file root f) as [r1|] eqn:Ef; [| discriminate].
      rewrite <- (add_file_returns root r1 f E Ef). apply IH.
    + assert (Hn : Records.entry_records f = []).
      { unfold Records.entry_records. rewrite E. reflexivity. }
      rewrite Hn. simpl. apply IH.
Qed.

(** They come to an end when [statSync] answers for every report. *)
Lemma add_files_examinable (entries : list DirEntry) (root : TestPackageNode) :
  Records.examinable entries ->
  exists r,
    Js.for_of add_file
      (filter (fun f => Js.endsWith (e_name f) ".xml") entries) root
    = Js.Normal r.
Proof.
  revert root. induction entries as [|f entries IH]; intros root Hex; simpl.
  - eexists; reflexivity.
  - assert (Hex' : Records.examinable entries).
    { intros g Hg. apply Hex. right; exact Hg. }
    destruct (Js.endsWith (e_name f) ".xml") eqn:E; simpl.
    + destruct (add_file_examinable root f) as [r1 ->].
      * apply Hex; [left; reflexivity | exact E].
      * apply IH, Hex'.
    + apply IH, Hex'.
Qed.

(** And they are left by the exception of [statSync] otherwise. *)
Lemma add_files_throws (entries : list DirEntry) (root : TestPackageNode) :
  ~ Records.examinable entries ->
  Js.for_of add_file
    (filter (fun f => Js.endsWith (e_name f) ".xml") entries) root
  = Js.Throw.
Proof.
  intros Hno.
  destruct (Js.for_of add_file
              (filter (fun f => Js.endsWith (e_name f) ".xml") entries) root)
    as [r|] eqn:E; [| reflexivity].
  exfalso. apply Hno. clear Hno. revert root r E.
  induction entries as [|f entries IH]; intros root r E g Hg Hxml;
    [contradiction |].
  simpl in E. destruct (Js.endsWith (e_name f) ".xml") eqn:Ef; simpl in E.
  - destruct (add_file root f) as [r1|] eqn:Ea; [| discriminate].
    destruct Hg as [<- | Hg].
    + unfold add_file in Ea. intros Hthrow. rewrite Hthrow in Ea.
      discriminate.
    + exact (IH _ _ E g Hg Hxml).
  - destruct Hg as [<- | Hg]; [congruence |].
    exact (IH _ _ E g Hg Hxml).
Qed.

Lemma buildTestsTree_returns (dir : option (list DirEntry))
    (root : TestPackageNode) :
  buildTestsTree dir = Js.Normal (Some root) ->
  exists entries,
    dir = Some entries /\
    root = aggregate
             (fold_left Walk.add_record (Records.leaf_records entries) root0).
Proof.
  unfold buildTestsTree. destruct dir as [entries|]; [| discriminate].
  destruct (Js.for_of add_file _ root0) as [r|] eqn:E; [| discriminate].
  intros H; injection H as <-. exists entries. split; [reflexivity |].
  rewrite (add_files_returns entries root0 r E). reflexivity.
Qed.

Lemma buildTestsTree_aggregated (dir : option (list DirEntry))
    (root : TestPackageNode) :
  buildTestsTree dir = Js.Normal (Some root) ->
  every_package outcome_aggregated root.
Proof.
  intros H. destruct (buildTestsTree_returns dir root H) as (entries & _ & ->).
  apply aggregate_every_fresh, fold_left_invariant.
  - intros b r Hb. apply add_case_fresh, Hb.
  - apply every_package_new. split; reflexivity.
Qed.

End OutcomeAggregation.

(** ** The collation of the host *)

Section Collation.
Import Host.

Lemma lex_refl (a : list nat) : lex a a = Eq.
Proof.
  induction a as [|x a IH]; simpl; [reflexivity |].
  rewrite Nat.compare_refl. exact IH.
Qed.

Lemma lex_eq (a b : list nat) : lex a b = Eq -> a = b.
Proof.
  revert b. induction a as [|x a IH]; intros [|y b]; simpl;
    try discriminate; [reflexivity |].
  destruct (Nat.compare_spec x y) as [-> | H | H]; try discriminate.
  intros E. rewrite (IH b E). reflexivity.
Qed.

Lemma lex_antisym (a b : list nat) : lex b a = CompOpp (lex a b).
Proof.
  revert b. induction a as [|x a IH]; intros [|y b]; simpl; try reflexivity.
  rewrite (Nat.compare_antisym x y).
  destruct (Nat.compare x y); simpl; [apply IH | reflexivity | reflexivity].
Qed.

Lemma lex_lt_trans (a b c : list nat) :
  lex a b = Lt -> lex b c = Lt -> lex a c = Lt.
Proof.
  revert b c. induction a as [|x a IH]; intros [|y b] [|z c]; simpl;
    try discriminate; try reflexivity.
  destruct (Nat.compare_spec x y) as [-> | Hxy | Hxy]; try discriminate.
  - destruct (Nat.compare_spec y z) as [-> | Hyz | Hyz]; try discriminate.
    + apply IH.
    + reflexivity.
  - intros _.
    destruct (Nat.compare_spec y z) as [-> | Hyz | Hyz]; try discriminate.
    + intros _. destruct (Nat.compare_spec x z); try lia. reflexivity.
    + intros _. destruct (Nat.compare_spec x z); try lia. reflexivity.
Qed.

Lemma lex_le_trans (a b c : list nat) :
  lex a b <> Gt -> lex b c <> Gt -> lex a c <> Gt.
Proof.
  intros Hab Hbc.
  destruct (lex a b) eqn:Eab; [| | congruence].
  - apply lex_eq in Eab. subst b. exact Hbc.
  - destruct (lex b c) eqn:Ebc; [| | congruence].
    + apply lex_eq in Ebc. subst c. rewrite Eab. discriminate.
    + rewrite (lex_lt_trans a b c Eab Ebc). discriminate.
Qed.

Lemma collate_antisym (a b : string) : collate b a = CompOpp (collate a b).
Proof.
  unfold collate. rewrite (lex_antisym (primary a) (primary b)).
  destruct (lex (primary a) (primary b)); simpl; [| reflexivity | reflexivity].
  apply lex_antisym.
Qed.

Lemma collate_le_trans (a b c : string) :
  collate a b <> Gt -> collate b c <> Gt -> collate a c <> Gt.
Proof.
  unfold collate. intros Hab Hbc.
  destruct (lex (primary a) (primary b)) eqn:Eab; [| | congruence].
  - apply lex_eq in Eab. rewrite Eab.
    destruct (lex (primary b) (primary c)) eqn:Ebc; [| discriminate | congruence].
    eapply lex_le_trans; eassumption.
  - destruct (lex (primary b) (primary c)) eqn:Ebc; [| | congruence].
    + apply lex_eq in Ebc. rewrite <- Ebc, Eab. discriminate.
    + rewrite (lex_lt_trans _ _ _ Eab Ebc). discriminate.
Qed.

Lemma localeCompare_total (a b : string) :
  0 < localeCompare a b -> localeCompare b a <= 0.
Proof.
  unfold localeCompare. rewrite (collate_antisym a b).
  destruct (collate a b); simpl; lia.
Qed.

Lemma localeCompare_trans (a b c : string) :
  localeCompare a b <= 0 -> localeCompare b c <= 0 -> localeCompare a c <= 0.
Proof.
  unfold localeCompare. intros Hab Hbc.
  assert (H1 : collate a b <> Gt) by (destruct (collate a b); [discriminate | discriminate | lia]).
  assert (H2 : collate b c <> Gt) by (destruct (collate b c); [discriminate | discriminate | lia]).
  pose proof (collate_le_trans a b c H1 H2) as H.
  destruct (collate a c); [lia | lia | congruence].
Qed.

End Collation.

(** ** The trees that the builders return *)

Lemma lexical_compare_total (a b : string) :
  0 < Samples.lexical_compare a b -> Samples.lexical_compare b a <= 0.
Proof.
  unfold Samples.lexical_compare.
  rewrite (String.compare_antisym a b).
  destruct (String.compare b a); simpl; lia.
Qed.

(** C1. After a build, every node of the returned tree has aggregated
    metrics equal to the sum of the metrics of its own leaves plus the
    sum of the aggregated metrics of its children: counts and duration
    for the outcome tree of [buildTestsTree] (where the numbers of each
    class are in turn those of its case list), covered and missed lines
    and functions for the coverage tree of
    [buildCoverageTreeFromJaCoCo]. *)
Theorem build_aggregates_every_node
    (localeCompare : string -> string -> Z)
    (dir : option (list TestsTree.DirEntry))
    (report : option (list Coverage.XmlPackage))
    (tests : TestsTree.TestPackageNode) (files : Coverage.PackageNode) :
  TestsTree.buildTestsTree dir = Js.Normal (Some tests) ->
  Coverage.buildCoverageTreeFromJaCoCo localeCompare report = Some files ->
  (forall n, TestsTree.subnode tests n -> Spec.outcome_aggregated n) /\
  (forall n, Coverage.subnode files n -> Spec.coverage_aggregated n).
Proof.
  intros Ht Hf. split.
  - exact (buildTestsTree_aggregated dir tests Ht).
  - intros n Hn.
    destruct (build_root_aggregate _ _ _ Hf) as [t ->].
    destruct (aggregateCoverage_subnode _ _ _ Hn) as [n0 [_ ->]].
    apply aggregateCoverage_sums.
Qed.

Lemma build_aggregates_every_node_witness :
  exists tests files,
    TestsTree.buildTestsTree Samples.junit_dir = Js.Normal (Some tests) /\
    Coverage.buildCoverageTreeFromJaCoCo
      Samples.lexical_compare Samples.jacoco_report = Some files /\
    (forall n, TestsTree.subnode tests n -> Spec.outcome_aggregated n) /\
    (forall n, Coverage.subnode files n -> Spec.coverage_aggregated n).
Proof.
  eexists. eexists.
  split; [vm_compute; reflexivity |].
  split; [vm_compute; reflexivity |].
  apply (build_aggregates_every_node
           Samples.lexical_compare Samples.junit_dir Samples.jacoco_report);
    vm_compute; reflexivity.
Defined.

(** C8, as the code has it.  After the coverage tree is built and
    aggregated, the children map of every node is ordered by child name
    under [localeCompare], the comparison the sort is given.  That
    comparison is the host's collation; it enters as a parameter with the
    one property the sort needs. *)
Theorem coverage_children_sorted
    (localeCompare : string -> string -> Z)
    (report : option (list Coverage.XmlPackage)) (root : Coverage.PackageNode) :
  (forall a b, 0 < localeCompare a b -> localeCompare b a <= 0) ->
  Coverage.buildCoverageTreeFromJaCoCo localeCompare report = Some root ->
  forall n, Coverage.subnode root n ->
    Inv.keys_sorted localeCompare (Coverage.pn_children n).
Proof.
  intros Htotal Hb n Hn.
  destruct (build_root_aggregate _ _ _ Hb) as [t ->].
  destruct (aggregateCoverage_subnode _ _ _ Hn) as [n0 [_ ->]].
  apply aggregateCoverage_children_sorted, Htotal.
Qed.

Lemma coverage_children_sorted_witness :
  exists root,
    Coverage.buildCoverageTreeFromJaCoCo
      Host.localeCompare Samples.jacoco_report = Some root /\
    Js.keys (Coverage.pn_children root) = ["a"; "b"; "B"] /\
    forall n, Coverage.subnode root n ->
      Inv.keys_sorted Host.localeCompare (Coverage.pn_children n).
Proof.
  eexists.
  split; [vm_compute; reflexivity |].
  split; [vm_compute; reflexivity |].
  apply (coverage_children_sorted
           Host.localeCompare Samples.jacoco_report).
  - exact localeCompare_total.
  - vm_compute; reflexivity.
Defined.

(** C8, as stated, fails on names of mixed case.  Under the collation
    of the host the packages [b], [B] and [a] of the report come out as
    [a], [b], [B], lower case before upper case, while case-sensitive
    lexical comparison, code unit by code unit, puts [B] before [a]. *)
Lemma coverage_children_not_lexical :
  exists root,
    Coverage.buildCoverageTreeFromJaCoCo
      Host.localeCompare Samples.jacoco_report = Some root /\
    Js.keys (Coverage.pn_children root) = ["a"; "b"; "B"] /\
    0 < Samples.lexical_compare "b" "B" /\
    ~ Inv.keys_sorted Samples.lexical_compare (Coverage.pn_children root).
Proof.
  eexists.
  split; [vm_compute; reflexivity |].
  split; [vm_compute; reflexivity |].
  split; [vm_compute; reflexivity |].
  unfold Inv.keys_sorted.
  change (Js.keys _) with ["a"; "b"; "B"].
  intros H. inversion H as [| x l Hs Hh]; subst.
  inversion Hs as [| x l Hs' Hh']; subst.
  inversion Hh' as [| y l' Hle]; subst.
  vm_compute in Hle. apply Hle. reflexivity.
Qed.

(** C10. Every source file attached by [buildCoverageTreeFromJaCoCo]
    has its [uncoveredLines] in ascending numeric order, whatever the
    order of the line entries of the report, so that [compressLines]
    gets a sorted list from every leaf. *)
Theorem uncoveredLines_ascending
    (localeCompare : string -> string -> Z)
    (report : option (list Coverage.XmlPackage)) (root : Coverage.PackageNode) :
  Coverage.buildCoverageTreeFromJaCoCo localeCompare report = Some root ->
  forall n sf,
    Coverage.subnode root n -> In sf (Coverage.pn_sourcefile n) ->
    Sorted Z.le (Coverage.sf_uncoveredLines sf).
Proof.
  intros Hb n sf Hn Hsf.
  destruct report as [pkgs|]; [| discriminate].
  pose proof (build_every_files localeCompare
                (Forall (fun sf => Sorted Z.le (Coverage.sf_uncoveredLines sf)))
                pkgs root) as H.
  assert (Hall : Forall (fun sf => Sorted Z.le (Coverage.sf_uncoveredLines sf))
                        (Coverage.pn_sourcefile n)).
  { apply H; try assumption.
    - constructor.
    - intros pkg m _. apply attach_lines_ascending. }
  rewrite Forall_forall in Hall. apply Hall, Hsf.
Qed.

Lemma uncoveredLines_ascending_witness :
  exists root,
    Coverage.buildCoverageTreeFromJaCoCo
      Samples.lexical_compare Samples.jacoco_report = Some root /\
    forall n sf,
      Coverage.subnode root n -> In sf (Coverage.pn_sourcefile n) ->
      Sorted Z.le (Coverage.sf_uncoveredLines sf).
Proof.
  eexists.
  split; [vm_compute; reflexivity |].
  apply (uncoveredLines_ascending
           Samples.lexical_compare Samples.jacoco_report).
  vm_compute; reflexivity.
Defined.

(** ** Builds over no leaf record *)

Section EmptyBuilds.
Import Spec Inv Records.

Lemma attach_no_files (cmp : string -> string -> Z)
    (pkg : Coverage.XmlPackage) (n : Coverage.PackageNode) :
  Coverage.xp_sourcefile pkg = [] -> Coverage.xp_class pkg = [] ->
  Coverage.pn_sourcefile n = [] ->
  Coverage.pn_sourcefile (Coverage.attach cmp pkg n) = [].
Proof.
  intros Hs Hc Hn. unfold Coverage.attach. rewrite Hs, Hc, Hn.
  reflexivity.
Qed.

Lemma sumTotals_zero (l : list Coverage.Totals) :
  Forall (fun t => t = Coverage.zeroTotals) l ->
  sumTotals l = Coverage.zeroTotals.
Proof.
  induction 1 as [|t l Ht _ IH]; simpl; [reflexivity |].
  rewrite Ht, IH. reflexivity.
Qed.

Lemma coverage_zero_totals (n : Coverage.PackageNode) :
  has_totals n -> Coverage.node_totals n = Coverage.zeroTotals ->
  coverage_zero n.
Proof.
  destruct n as [name fullName sfs children lc lm fc fm].
  unfold has_totals, coverage_zero, Coverage.node_totals. simpl.
  intros (H1 & H2 & H3 & H4) E.
  destruct lc, lm, fc, fm; try congruence.
  simpl in E. injection E as -> -> -> ->. repeat split.
Qed.

Lemma coverage_zero_node_totals (n : Coverage.PackageNode) :
  coverage_zero n -> Coverage.node_totals n = Coverage.zeroTotals.
Proof.
  unfold coverage_zero, Coverage.node_totals.
  intros (-> & -> & -> & ->). reflexivity.
Qed.

Lemma no_files_zero (t : Coverage.PackageNode) :
  every_files (fun l => l = []) t ->
  (forall n, Coverage.subnode t n -> coverage_aggregated n) ->
  coverage_zero t.
Proof.
  induction t as [name fullName sfs children lc lm fc fm IH]
    using Coverage.PackageNode_ind.
  intros Hfiles Hagg.
  destruct (Hagg _ (Coverage.subnode_here _)) as [Hhas Hsum].
  apply coverage_zero_totals; [exact Hhas |].
  rewrite Hsum. simpl Coverage.pn_sourcefile. simpl Coverage.pn_children.
  pose proof (Hfiles _ (Coverage.subnode_here _)) as Hnil.
  simpl in Hnil. subst sfs. simpl.
  rewrite sumTotals_zero; [reflexivity |].
  apply Forall_forall. intros x Hx. apply in_map_iff in Hx.
  destruct Hx as [c [<- Hc]]. apply values_In in Hc. destruct Hc as [k Hc].
  rewrite Forall_forall in IH.
  apply coverage_zero_node_totals. apply (IH (k, c) Hc).
  - intros n Hn. apply Hfiles. eapply Coverage.subnode_child; eassumption.
  - intros n Hn. apply Hagg. eapply Coverage.subnode_child; eassumption.
Qed.

End EmptyBuilds.

(** C6, as the code has it.  A build of the outcome tree over a results
    directory with no test-case record, each report of which can be
    examined, returns a root without children or classes whose aggregated
    numbers are all zero; a report that does not parse is passed over
    and the others are still read.  When [statSync] throws for a report
    the build is left by that exception.  A build of the coverage tree
    over a report with at least one package and no source-file or class
    record returns a root every node of which has all four metrics zero;
    over a report without any package it returns null. *)
Theorem builds_over_no_leaf
    (localeCompare : string -> string -> Z)
    (entries : list TestsTree.DirEntry) (pkgs : list Coverage.XmlPackage) :
  Records.examinable entries ->
  Records.leaf_records entries = [] ->
  pkgs <> [] ->
  (forall p, In p pkgs ->
     Coverage.xp_sourcefile p = [] /\ Coverage.xp_class p = []) ->
  (exists root,
     TestsTree.buildTestsTree (Some entries) = Js.Normal (Some root) /\
     Spec.outcome_zero root /\
     TestsTree.pkg_children root = [] /\ TestsTree.pkg_classes root = []) /\
  (forall others,
     ~ Records.examinable others ->
     TestsTree.buildTestsTree (Some others) = Js.Throw) /\
  (exists root,
     Coverage.buildCoverageTreeFromJaCoCo localeCompare (Some pkgs) = Some root /\
     forall n, Coverage.subnode root n -> Spec.coverage_zero n) /\
  Coverage.buildCoverageTreeFromJaCoCo localeCompare (Some []) = None.
Proof.
  intros Hex Hrec Hne Hpk. split; [| split; [| split]].
  - destruct (add_files_examinable entries TestsTree.root0 Hex) as [r Hr].
    pose proof (add_files_returns entries TestsTree.root0 r Hr) as Er.
    rewrite Hrec in Er. simpl in Er. subst r.
    exists (TestsTree.aggregate TestsTree.root0).
    unfold TestsTree.buildTestsTree. rewrite Hr.
    repeat split.
  - intros others Hno. unfold TestsTree.buildTestsTree.
    rewrite (add_files_throws others TestsTree.root0 Hno). reflexivity.
  - destruct (Coverage.buildCoverageTreeFromJaCoCo localeCompare (Some pkgs))
      as [root|] eqn:Hb.
    + exists root. split; [reflexivity |].
      assert (Hfiles : Inv.every_files (fun l => l = []) root).
      { apply (build_every_files localeCompare _ pkgs root);
          [reflexivity | | exact Hb].
        intros pkg n Hin Hn. destruct (Hpk pkg Hin) as [Hs Hc].
        apply attach_no_files; assumption. }
      assert (Hagg : forall n, Coverage.subnode root n ->
                               Spec.coverage_aggregated n).
      { intros n Hn.
        destruct (build_root_aggregate _ _ _ Hb) as [t ->].
        destruct (aggregateCoverage_subnode _ _ _ Hn) as [n0 [_ ->]].
        apply aggregateCoverage_sums. }
      intros n Hn. apply no_files_zero.
      * intros m Hm. apply Hfiles. eapply subnode_trans; eassumption.
      * intros m Hm. apply Hagg. eapply subnode_trans; eassumption.
    + exfalso. unfold Coverage.buildCoverageTreeFromJaCoCo in Hb.
      destruct pkgs; [apply Hne; reflexivity | discriminate].
  - reflexivity.
Qed.

Lemma builds_over_no_leaf_witness :
  (exists root,
     TestsTree.buildTestsTree (Some Samples.junit_dir_no_cases)
     = Js.Normal (Some root) /\
     Spec.outcome_zero root /\
     TestsTree.pkg_children root = [] /\ TestsTree.pkg_classes root = []) /\
  (forall others,
     ~ Records.examinable others ->
     TestsTree.buildTestsTree (Some others) = Js.Throw) /\
  (exists root,
     Coverage.buildCoverageTreeFromJaCoCo
       Samples.lexical_compare (Some Samples.jacoco_report_no_files)
     = Some root /\
     forall n, Coverage.subnode root n -> Spec.coverage_zero n) /\
  Coverage.buildCoverageTreeFromJaCoCo Samples.lexical_compare (Some []) = None.
Proof.
  apply (builds_over_no_leaf Samples.lexical_compare
           Samples.junit_dir_no_cases Samples.jacoco_report_no_files).
  - intros f [<- | [<- | []]] _; discriminate.
  - reflexivity.
  - discriminate.
  - intros p [<- | [<- | []]]; split; reflexivity.
Defined.

(** C6, as stated, fails for both builders.  A coverage report without
    any package holds no leaf record, and the builder returns null for
    it, which [cmdCoverage] turns into exit code 1.  A results directory
    without any record one entry of which cannot be examined gives no
    root either: the build throws. *)
Lemma coverage_build_empty_report :
  (~ exists root,
       Coverage.buildCoverageTreeFromJaCoCo Samples.lexical_compare (Some [])
       = Some root) /\
  Cli.cmdCoverage
    (Coverage.buildCoverageTreeFromJaCoCo Samples.lexical_compare (Some []))
    None None = 1 /\
  Records.leaf_records Samples.junit_dir_dangling = [] /\
  TestsTree.buildTestsTree (Some Samples.junit_dir_dangling) = Js.Throw.
Proof.
  split; [| repeat split].
  intros [root H]. discriminate H.
Qed.

(** ** The test cases of the outcome tree *)

Section CaseFacts.
Import TestsTree Inv Records.

Variable P : TestCaseNode -> Prop.






End CaseFacts.






(** ** Aggregating a second time *)

Section SortAgain.
Context {A : Type} (cmp : A -> A -> Z).
Hypothesis cmp_total : forall a b, 0 < cmp a b -> cmp b a <= 0.
Hypothesis cmp_trans :
  forall a b c, cmp a b <= 0 -> cmp b c <= 0 -> cmp a c <= 0.

Lemma insert_last (x : A) (l : list A) :
  Forall (fun y => cmp y x <= 0) l -> Js.insert cmp x l = l ++ [x].
Proof.
  induction 1 as [|y r Hy _ IH]; simpl; [reflexivity |].
  destruct (0 <? cmp y x) eqn:E; [apply Z.ltb_lt in E; lia |].
  rewrite IH. reflexivity.
Qed.

Lemma StronglySorted_before (a : list A) (x : A) (l : list A) :
  StronglySorted (fun a b => cmp a b <= 0) (a ++ x :: l) ->
  Forall (fun y => cmp y x <= 0) a.
Proof.
  induction a as [|y a IH]; simpl; intros H; [constructor |].
  inversion H as [|? ? Hs Hall]; subst. constructor.
  - rewrite Forall_forall in Hall. apply Hall, in_elt.
  - apply IH, Hs.
Qed.

Lemma sort_from_strongly_sorted (l acc : list A) :
  StronglySorted (fun a b => cmp a b <= 0) (acc ++ l) ->
  fold_left (fun acc x => Js.insert cmp x acc) l acc = acc ++ l.
Proof.
  revert acc. induction l as [|x l IH]; intros acc H; simpl.
  - rewrite app_nil_r. reflexivity.
  - rewrite (insert_last x acc (StronglySorted_before acc x l H)).
    rewrite IH; rewrite <- app_assoc; [reflexivity | exact H].
Qed.

(** Sorting a sorted array leaves it as it is. *)
Lemma sort_sort (l : list A) : Js.sort cmp (Js.sort cmp l) = Js.sort cmp l.
Proof.
  unfold Js.sort at 1. apply (sort_from_strongly_sorted _ []).
  simpl. apply Sorted_StronglySorted.
  - intros a b c. apply cmp_trans.
  - apply sort_sorted, cmp_total.
Qed.

End SortAgain.

(** The coverage half of idempotence: [aggregateCoverage] starts its
    sums from zero and assigns them, so a second run returns the tree of
    the first. *)
Lemma aggregateCoverage_idempotent
    (cmp : string -> string -> Z) (t : Coverage.PackageNode) :
  (forall a b, 0 < cmp a b -> cmp b a <= 0) ->
  (forall a b c, cmp a b <= 0 -> cmp b c <= 0 -> cmp a c <= 0) ->
  Coverage.aggregateCoverage cmp (Coverage.aggregateCoverage cmp t) =
  Coverage.aggregateCoverage cmp t.
Proof.
  intros Htotal Htrans.
  induction t as [name fullName sfs children lc lm fc fm IH]
    using Coverage.PackageNode_ind.
  set (agg' := fun kc : string * Coverage.PackageNode =>
                 (fst kc, Coverage.aggregateCoverage cmp (snd kc))).
  set (by_key := fun a b : string * Coverage.PackageNode => cmp (fst a) (fst b)).
  assert (Hmap : map agg' (Js.sort by_key (map agg' children)) =
                 Js.sort by_key (map agg' children)).
  { rewrite <- (map_id (Js.sort by_key (map agg' children))) at 2.
    apply map_ext_in. intros e He. apply sort_In in He.
    apply in_map_iff in He. destruct He as [[k c] [<- Hin]].
    rewrite Forall_forall in IH. pose proof (IH (k, c) Hin) as Hc.
    unfold agg'. simpl in *. rewrite Hc. reflexivity. }
  assert (Hsort : Js.sort by_key (Js.sort by_key (map agg' children)) =
                  Js.sort by_key (map agg' children)).
  { apply sort_sort; unfold by_key; intros; eauto. }
  change (Coverage.aggregateCoverage cmp
            (Coverage.mkPackageNode name fullName sfs children lc lm fc fm))
    with (let t :=
            fold_left
              (fun acc f => Coverage.addTotals acc (Coverage.file_totals f)) sfs
              (fold_left
                 (fun acc child =>
                    Coverage.addTotals acc (Coverage.node_totals child))
                 (Js.values (map agg' children)) Coverage.zeroTotals) in
          Coverage.mkPackageNode name fullName sfs
            (Js.sort by_key (map agg' children))
            (Some (Coverage.linesCovered t)) (Some (Coverage.linesMissed t))
            (Some (Coverage.funcsCovered t)) (Some (Coverage.funcsMissed t))).
  cbv zeta.
  match goal with
  | |- Coverage.aggregateCoverage cmp
         (Coverage.mkPackageNode ?n ?f ?s ?c ?a1 ?a2 ?a3 ?a4) = _ =>
      change (Coverage.aggregateCoverage cmp
                (Coverage.mkPackageNode n f s c a1 a2 a3 a4))
        with (let t :=
                fold_left
                  (fun acc f => Coverage.addTotals acc (Coverage.file_totals f))
                  s
                  (fold_left
                     (fun acc child =>
                        Coverage.addTotals acc (Coverage.node_totals child))
                     (Js.values (map agg' c)) Coverage.zeroTotals) in
              Coverage.mkPackageNode n f s (Js.sort by_key (map agg' c))
                (Some (Coverage.linesCovered t)) (Some (Coverage.linesMissed t))
                (Some (Coverage.funcsCovered t)) (Some (Coverage.funcsMissed t)))
  end.
  cbv zeta. rewrite Hmap, Hsort.
  rewrite !fold_left_addTotals.
  assert (Hsum :
            Spec.sumTotals
              (map Coverage.node_totals
                 (Js.values (Js.sort by_key (map agg' children)))) =
            Spec.sumTotals
              (map Coverage.node_totals (Js.values (map agg' children)))).
  { apply sumTotals_perm, Permutation_map. unfold Js.values.
    apply Permutation_map, Permutation_sym, sort_perm. }
  rewrite Hsum. reflexivity.
Qed.

(** C3, as the code has it.  The coverage pass can be run again: a
    second run of [aggregateCoverage] returns the tree of the first,
    under a collation that is a total preorder.  The outcome pass is run
    once, by [buildTestsTree], on a tree whose packages hold no count
    and no duration, and there it leaves the sums.  On any tree it sets
    the numbers of each class anew from its cases, and it adds the
    numbers of the classes and of the aggregated children of a package
    to those the package already holds. *)
Theorem aggregation_rerun
    (cmp : string -> string -> Z)
    (files : Coverage.PackageNode) (tests : TestsTree.TestPackageNode) :
  (forall a b, 0 < cmp a b -> cmp b a <= 0) ->
  (forall a b c, cmp a b <= 0 -> cmp b c <= 0 -> cmp a c <= 0) ->
  Coverage.aggregateCoverage cmp (Coverage.aggregateCoverage cmp files)
    = Coverage.aggregateCoverage cmp files /\
  (forall dir root,
     TestsTree.buildTestsTree dir = Js.Normal (Some root) ->
     exists built,
       Inv.every_package Inv.fresh built /\
       root = TestsTree.aggregate built) /\
  (Inv.every_package Inv.fresh tests ->
   Inv.every_package Spec.outcome_aggregated (TestsTree.aggregate tests)) /\
  TestsTree.pkg_counts (TestsTree.aggregate tests) =
    TestsTree.addCounts
      (TestsTree.addCounts (TestsTree.pkg_counts tests)
         (Spec.sumCounts
            (map TestsTree.cls_counts
               (Js.values
                  (TestsTree.pkg_classes (TestsTree.aggregate tests))))))
      (Spec.sumCounts
         (map TestsTree.pkg_counts
            (Js.values (TestsTree.pkg_children (TestsTree.aggregate tests)))))
  /\
  TestsTree.pkg_durationMs (TestsTree.aggregate tests) =
    TestsTree.pkg_durationMs tests +
    Spec.zsum
      (map TestsTree.cls_durationMs
         (Js.values (TestsTree.pkg_classes (TestsTree.aggregate tests)))) +
    Spec.zsum
      (map TestsTree.pkg_durationMs
         (Js.values (TestsTree.pkg_children (TestsTree.aggregate tests))))
  /\
  Forall Spec.class_aggregated
    (Js.values (TestsTree.pkg_classes (TestsTree.aggregate tests))).
Proof.
  intros Htotal Htrans.
  split; [apply aggregateCoverage_idempotent; assumption |].
  split.
  { intros dir root Hb.
    destruct (buildTestsTree_returns dir root Hb) as (entries & _ & ->).
    eexists. split; [| reflexivity].
    apply fold_left_invariant.
    - intros b r Hb'. apply add_case_fresh, Hb'.
    - apply every_package_new. split; reflexivity. }
  split; [apply aggregate_every_fresh |].
  apply aggregate_adds.
Qed.

Lemma aggregation_rerun_witness :
  Coverage.aggregateCoverage Host.localeCompare
    (Coverage.aggregateCoverage Host.localeCompare
       (Coverage.addPackage Host.localeCompare Coverage.root0
          Samples.class_only_package))
  = Coverage.aggregateCoverage Host.localeCompare
      (Coverage.addPackage Host.localeCompare Coverage.root0
         Samples.class_only_package).
Proof.
  apply (aggregation_rerun Host.localeCompare
           (Coverage.addPackage Host.localeCompare Coverage.root0
              Samples.class_only_package)
           TestsTree.root0).
  - exact localeCompare_total.
  - exact localeCompare_trans.
Defined.

(** C3, as stated, fails for the outcome tree.  [aggregate] adds to the
    numbers a package already holds, so a second run over the tree that
    [buildTestsTree] returned for one passing test case of 250 ms counts
    the case again at every level: the package of the class goes from 1
    passed and 250 ms to 2 and 500, the root from 1 and 250 to 3 and
    750.  Only the numbers of the class itself stay. *)
Lemma aggregate_again_adds :
  exists root,
    TestsTree.buildTestsTree Samples.junit_dir_one_pass
    = Js.Normal (Some root) /\
    TestsTree.pkg_counts root = TestsTree.mkCounts 1 0 0 /\
    TestsTree.pkg_durationMs root = 250 /\
    TestsTree.pkg_counts (TestsTree.aggregate root)
      = TestsTree.mkCounts 3 0 0 /\
    TestsTree.pkg_durationMs (TestsTree.aggregate root) = 750 /\
    map (fun kc => TestsTree.pkg_counts (snd kc))
        (TestsTree.pkg_children root)
      = [TestsTree.mkCounts 1 0 0] /\
    map (fun kc => TestsTree.pkg_counts (snd kc))
        (TestsTree.pkg_children (TestsTree.aggregate root))
      = [TestsTree.mkCounts 2 0 0] /\
    TestsTree.aggregate root <> root.
Proof.
  eexists. split; [vm_compute; reflexivity |].
  repeat split; try (vm_compute; reflexivity).
  vm_compute. discriminate.
Qed.

(** ** Exit codes *)

Lemma Qltb_lt (x y : Q) : Js.Qltb x y = true <-> (x < y)%Q.
Proof.
  unfold Js.Qltb. rewrite negb_true_iff. split; intros H.
  - apply Qnot_le_lt. intros Hle. apply Qle_bool_iff in Hle. congruence.
  - destruct (Qle_bool y x) eqn:E; [| reflexivity].
    apply Qle_bool_iff in E. exfalso. exact (Qlt_not_le _ _ H E).
Qed.

Lemma cmdCoverage_codes (root : option Coverage.PackageNode)
    (minLines minFuncs : option Q) :
  Cli.cmdCoverage root minLines minFuncs = 0 \/
  Cli.cmdCoverage root minLines minFuncs = 1 \/
  Cli.cmdCoverage root minLines minFuncs = 2.
Proof.
  unfold Cli.cmdCoverage. destruct root as [root|]; [| auto].
  destruct minLines as [m|], minFuncs as [m'|];
    repeat match goal with
           | |- context [Js.Qltb ?a ?b] => destruct (Js.Qltb a b)
           end; simpl; auto.
Qed.

Lemma cmdCoverage_lines_below (root : Coverage.PackageNode) (m : Q)
    (minFuncs : option Q) :
  (inject_Z (Cli.thresholdPct (Coverage.pn_linesCovered root)
                              (Coverage.pn_linesMissed root)) < m)%Q ->
  Cli.cmdCoverage (Some root) (Some m) minFuncs = 2.
Proof.
  intros H. apply Qltb_lt in H. unfold Cli.cmdCoverage. rewrite H.
  destruct minFuncs as [m'|]; [| reflexivity].
  destruct (Js.Qltb _ m'); reflexivity.
Qed.

(** C2, as the code has it.  With coverage enabled the code [cmdTest]
    returns is the code of the coverage command when that is not zero (1
    when there is no coverage tree, 2 when a threshold fails) and the
    exit code of the test run otherwise.  It is therefore zero only when
    both are zero, it is the maximum of the two whenever the test run's
    code is non-negative and does not exceed a non-zero coverage code,
    and for a test run that exits with 0 and a lines percentage strictly
    below [minLines] it is 2. *)
Theorem cmdTest_exit_code
    (testCode : Z) (opts : Cli.TestOptions)
    (covRoot : option Coverage.PackageNode) :
  Cli.coverage opts = true ->
  let covCode :=
    Cli.cmdCoverage covRoot (Cli.minLines opts) (Cli.minFuncs opts) in
  Cli.cmdTest testCode opts covRoot
    = (if covCode =? 0 then testCode else covCode) /\
  (Cli.cmdTest testCode opts covRoot = 0 <-> testCode = 0 /\ covCode = 0) /\
  (0 <= testCode -> covCode = 0 \/ testCode <= covCode ->
   Cli.cmdTest testCode opts covRoot = Z.max testCode covCode) /\
  (forall root m,
     covRoot = Some root -> Cli.minLines opts = Some m ->
     (inject_Z (Cli.thresholdPct (Coverage.pn_linesCovered root)
                                 (Coverage.pn_linesMissed root)) < m)%Q ->
     testCode = 0 ->
     Cli.cmdTest testCode opts covRoot = 2).
Proof.
  intros Hcov covCode.
  assert (E : Cli.cmdTest testCode opts covRoot
              = (if covCode =? 0 then testCode else covCode)).
  { unfold Cli.cmdTest. rewrite Hcov. fold covCode.
    destruct (covCode =? 0); reflexivity. }
  pose proof (cmdCoverage_codes covRoot (Cli.minLines opts) (Cli.minFuncs opts))
    as Hcodes. fold covCode in Hcodes.
  split; [exact E |]. split; [| split].
  - rewrite E. destruct (covCode =? 0) eqn:E0.
    + apply Z.eqb_eq in E0. lia.
    + apply Z.eqb_neq in E0. lia.
  - intros Hpos Hle. rewrite E. destruct (covCode =? 0) eqn:E0.
    + apply Z.eqb_eq in E0. lia.
    + apply Z.eqb_neq in E0. lia.
  - intros root m -> Hm Hlt _. rewrite E. unfold covCode. rewrite Hm.
    rewrite (cmdCoverage_lines_below root m _ Hlt). reflexivity.
Qed.

Lemma cmdTest_exit_code_witness :
  Cli.cmdTest 0
    (Cli.mkTestOptions true (Some 50%Q) None)
    (Coverage.buildCoverageTreeFromJaCoCo
       Samples.lexical_compare Samples.jacoco_report)
  = 2.
Proof.
  pose proof (cmdTest_exit_code 0
                (Cli.mkTestOptions true (Some 50%Q) None)
                (Coverage.buildCoverageTreeFromJaCoCo
                   Samples.lexical_compare Samples.jacoco_report)
                eq_refl) as H.
  cbv zeta in H. destruct H as (H & _). rewrite H. vm_compute. reflexivity.
Defined.

(** C2, as stated, fails: a test run that exits with 3 and a lines
    percentage of 40 against a minimum of 50 end in exit code 2, not in
    the maximum of 3 and 2. *)
Lemma cmdTest_not_maximum :
  let root :=
    Coverage.buildCoverageTreeFromJaCoCo
      Samples.lexical_compare Samples.jacoco_report in
  let opts := Cli.mkTestOptions true (Some 50%Q) None in
  option_map (fun r => Cli.thresholdPct (Coverage.pn_linesCovered r)
                                        (Coverage.pn_linesMissed r)) root
    = Some 40 /\
  Cli.cmdCoverage root (Cli.minLines opts) (Cli.minFuncs opts) = 2 /\
  Cli.cmdTest 3 opts root = 2 /\
  Cli.cmdTest 3 opts root
    <> Z.max 3 (Cli.cmdCoverage root (Cli.minLines opts) (Cli.minFuncs opts)).
Proof.
  cbv zeta. repeat split; try (vm_compute; reflexivity).
  vm_compute. discriminate.
Qed.

(** ** Rendering with [failuresOnly] *)

Lemma string_append_assoc (a b c : string) :
  ((a ++ b) ++ c = a ++ (b ++ c))%string.
Proof.
  induction a as [|ch a IH]; simpl; [reflexivity | rewrite IH; reflexivity].
Qed.

Section IndexedFacts.
Context {A : Type}.





End IndexedFacts.

Section RenderFacts.
Import TestsTree Spec Inv Rendered.

Variable toFixed : Q -> nat -> string.
Variable opts : TestTreeOptions.





Hypothesis failures_only : failuresOnly opts = true.






End RenderFacts.

Section FailingChains.
Import TestsTree Spec Inv Rendered.












End FailingChains.

Section RenderText.
Import TestsTree Rendered.

Variable toFixed : Q -> nat -> string.
Variable opts : TestTreeOptions.





End RenderText.




(** What the lines of that text stand for. *)
Example render_failures_only :
  exists root,
    TestsTree.buildTestsTree Samples.junit_dir = Js.Normal (Some root) /\
    map Host.label
      (Rendered.shown Host.toFixed (TestsTree.mkTestTreeOptions true true)
         root)
    = ["All tests"; "app"; "core"; "MathTest"; "divides"; "boom"].
Proof.
  eexists. split; [vm_compute; reflexivity | vm_compute; reflexivity].
Qed.


(** Without the filter the same tree shows all of its packages, classes
    and test cases, in map order. *)
Example render_everything :
  exists root,
    TestsTree.buildTestsTree Samples.junit_dir = Js.Normal (Some root) /\
    map Host.label
      (Rendered.shown Host.toFixed (TestsTree.mkTestTreeOptions true false)
         root)
    = ["All tests"; "app"; "core"; "MathTest"; "adds"; "divides"; "boom";
       "ui"; "HelloTest"; "greets"].
Proof.
  eexists. split; [vm_compute; reflexivity | vm_compute; reflexivity].
Qed.

(** * Further properties of the code *)

(** ** The verdict of the coverage command *)

(** [cmdCoverage] returns 1 exactly when there is no coverage tree;
    with a tree it returns 2 exactly when a configured minimum is above
    the rounded percentage it guards, and 0 otherwise. *)
Theorem cmdCoverage_verdict (root : option Coverage.PackageNode)
    (minLines minFuncs : option Q) :
  let below (m : option Q) (pct : Z) :=
    exists q, m = Some q /\ (inject_Z pct < q)%Q in
  (Cli.cmdCoverage root minLines minFuncs = 1 <-> root = None) /\
  (forall r, root = Some r ->
     let lPct := Cli.thresholdPct (Coverage.pn_linesCovered r)
                                  (Coverage.pn_linesMissed r) in
     let fPct := Cli.thresholdPct (Coverage.pn_funcsCovered r)
                                  (Coverage.pn_funcsMissed r) in
     (Cli.cmdCoverage root minLines minFuncs = 2 <->
      below minLines lPct \/ below minFuncs fPct) /\
     (Cli.cmdCoverage root minLines minFuncs = 0 <->
      ~ (below minLines lPct \/ below minFuncs fPct))).
Proof.
  intros below. split.
  - destruct root as [r|]; [| split; reflexivity].
    split; [| discriminate]. unfold Cli.cmdCoverage.
    destruct minLines as [m|], minFuncs as [m'|];
      repeat match goal with
             | |- context [Js.Qltb ?a ?b] => destruct (Js.Qltb a b)
             end; simpl; discriminate.
  - intros r -> lPct fPct. unfold Cli.cmdCoverage. fold lPct fPct.
    clearbody lPct fPct.
    assert (HL : forall m, Js.Qltb (inject_Z lPct) m = true <->
                           below (Some m) lPct).
    { intros m. rewrite Qltb_lt. split.
      - intros H. exists m. split; [reflexivity | exact H].
      - intros [q [E H]]. injection E as <-. exact H. }
    assert (HF : forall m, Js.Qltb (inject_Z fPct) m = true <->
                           below (Some m) fPct).
    { intros m. rewrite Qltb_lt. split.
      - intros H. exists m. split; [reflexivity | exact H].
      - intros [q [E H]]. injection E as <-. exact H. }
    assert (HN : forall pct, ~ below None pct).
    { intros pct [q [E _]]. discriminate. }
    destruct minLines as [m|], minFuncs as [m'|];
      try (destruct (Js.Qltb (inject_Z lPct) m) eqn:EL);
      try (destruct (Js.Qltb (inject_Z fPct) m') eqn:EF);
      simpl;
      try (apply HL in EL);
      try (apply HF in EF);
      try (assert (NL : ~ below (Some m) lPct)
             by (intros HB; apply HL in HB; congruence));
      try (assert (NF : ~ below (Some m') fPct)
             by (intros HB; apply HF in HB; congruence));
      try pose proof (HN lPct) as NL';
      try pose proof (HN fPct) as NF';
      (split; split; intros; try discriminate; try reflexivity; tauto).
Qed.

(** ** Order of the files of a coverage node *)

(** The builder sorts the file list of a node each time it has pushed
    a package's files onto it, so in the returned tree the files of
    every node are in the order of [localeCompare] on their names. *)
Theorem coverage_files_sorted
    (localeCompare : string -> string -> Z)
    (report : option (list Coverage.XmlPackage)) (root : Coverage.PackageNode) :
  (forall a b, 0 < localeCompare a b -> localeCompare b a <= 0) ->
  Coverage.buildCoverageTreeFromJaCoCo localeCompare report = Some root ->
  forall n, Coverage.subnode root n ->
    Sorted (fun a b => localeCompare (Coverage.sf_name a) (Coverage.sf_name b) <= 0)
           (Coverage.pn_sourcefile n).
Proof.
  intros Htotal Hb n Hn.
  destruct report as [pkgs|]; [| discriminate].
  apply (build_every_files localeCompare
           (Sorted (fun a b =>
                      localeCompare (Coverage.sf_name a) (Coverage.sf_name b) <= 0))
           pkgs root); try assumption.
  - constructor.
  - intros pkg m _ _. unfold Coverage.attach. simpl.
    apply (sort_sorted
             (fun a b => localeCompare (Coverage.sf_name a) (Coverage.sf_name b))).
    intros a b. apply Htotal.
Qed.

Lemma coverage_files_sorted_witness :
  exists root,
    Coverage.buildCoverageTreeFromJaCoCo
      Samples.lexical_compare Samples.jacoco_report = Some root /\
    forall n, Coverage.subnode root n ->
      Sorted (fun a b =>
                Samples.lexical_compare (Coverage.sf_name a) (Coverage.sf_name b)
                <= 0)
             (Coverage.pn_sourcefile n).
Proof.
  eexists. split; [vm_compute; reflexivity |].
  apply (coverage_files_sorted Samples.lexical_compare Samples.jacoco_report).
  - exact lexical_compare_total.
  - vm_compute; reflexivity.
Defined.

(** ** Monotonicity of the percentage *)

(** For non-negative counts the percentage never goes down when more is
    covered and never goes up when more is missed; it is 100 when
    nothing is missed and 0 when nothing is covered. *)
Theorem pctInt_monotone (covered covered' missed missed' : Z) :
  0 <= covered <= covered' -> 0 <= missed <= missed' ->
  (0 < covered + missed ->
   Coverage.pctInt covered missed <= Coverage.pctInt covered' missed) /\
  Coverage.pctInt covered missed' <= Coverage.pctInt covered missed /\
  (0 < covered -> Coverage.pctInt covered 0 = 100) /\
  Coverage.pctInt 0 missed = 0.
Proof.
  intros Hc Hm. split; [| split; [| split]].
  - intros Hpos. apply pctInt_mono_covered; lia.
  - apply pctInt_mono_missed; lia.
  - apply pctInt_all_covered.
  - apply pctInt_none_covered.
Qed.

Lemma pctInt_monotone_witness :
  Coverage.pctInt 1 2 <= Coverage.pctInt 3 2 /\
  Coverage.pctInt 1 4 <= Coverage.pctInt 1 2.
Proof.
  pose proof (pctInt_monotone 1 3 2 2 ltac:(lia) ltac:(lia)) as H1.
  pose proof (pctInt_monotone 1 1 2 4 ltac:(lia) ltac:(lia)) as H2.
  split; [apply H1; lia | apply H2].
Defined.

(** ** Lookup after insertion in a map *)

Section MapLookup.
Context {V : Type}.

Lemma get_set_same (k : string) (v : V) (m : Js.Map V) :
  Js.get k (Js.set k v m) = Some v.
Proof.
  induction m as [|[k' v'] r IH]; simpl.
  - rewrite String.eqb_refl. reflexivity.
  - destruct (String.eqb k' k) eqn:E; simpl.
    + rewrite String.eqb_refl. reflexivity.
    + rewrite E. exact IH.
Qed.

Lemma get_set_other (k k' : string) (v : V) (m : Js.Map V) :
  k' <> k -> Js.get k' (Js.set k v m) = Js.get k' m.
Proof.
  intros Hk. induction m as [|[k0 v0] r IH]; simpl.
  - destruct (String.eqb k k') eqn:E; [| reflexivity].
    apply String.eqb_eq in E. congruence.
  - destruct (String.eqb k0 k) eqn:E; simpl.
    + apply String.eqb_eq in E. subst k0.
      destruct (String.eqb k k') eqn:E'; [| reflexivity].
      apply String.eqb_eq in E'. congruence.
    + destruct (String.eqb k0 k'); [reflexivity | exact IH].
Qed.

Lemma get_map_values (W : Type) (f : V -> W) (k : string) (m : Js.Map V) :
  Js.get k (map (fun kc => (fst kc, f (snd kc))) m) = option_map f (Js.get k m).
Proof.
  induction m as [|[k' v'] r IH]; simpl; [reflexivity |].
  destruct (String.eqb k' k); [reflexivity | exact IH].
Qed.

Lemma keys_set (k : string) (v : V) (m : Js.Map V) :
  Js.keys (Js.set k v m) =
  if existsb (String.eqb k) (Js.keys m) then Js.keys m else Js.keys m ++ [k].
Proof.
  induction m as [|[k' v'] r IH]; simpl; [reflexivity |].
  destruct (String.eqb k' k) eqn:E; simpl.
  - apply String.eqb_eq in E. subst k'. rewrite String.eqb_refl. reflexivity.
  - rewrite String.eqb_sym, E. simpl. rewrite IH.
    destruct (existsb (String.eqb k) (Js.keys r)); reflexivity.
Qed.

Lemma get_None_keys (k : string) (m : Js.Map V) :
  Js.get k m = None <-> ~ In k (Js.keys m).
Proof.
  induction m as [|[k' v'] r IH]; simpl; [tauto |].
  destruct (String.eqb k' k) eqn:E.
  - apply String.eqb_eq in E. split; [discriminate | intros H; tauto].
  - apply String.eqb_neq in E. rewrite IH. tauto.
Qed.

(** [set] never makes a key appear twice. *)
Lemma NoDup_keys_set (k : string) (v : V) (m : Js.Map V) :
  NoDup (Js.keys m) -> NoDup (Js.keys (Js.set k v m)).
Proof.
  intros H. rewrite keys_set.
  destruct (existsb (String.eqb k) (Js.keys m)) eqn:E; [exact H |].
  apply NoDup_app; [exact H | repeat constructor; simpl; tauto |].
  intros x Hx [E' | []]. subst x.
  assert (existsb (String.eqb k) (Js.keys m) = true); [| congruence].
  apply existsb_exists. exists k. split; [exact Hx | apply String.eqb_refl].
Qed.

End MapLookup.

(** ** Where the records of a results directory end up *)

Section RecordPlacement.
Import TestsTree Records Walk.

Lemma path_eqb_eq (a b : list string) : path_eqb a b = true <-> a = b.
Proof.
  revert b. induction a as [|x a IH]; intros [|y b]; simpl;
    try (split; [discriminate | discriminate]); [tauto |].
  rewrite andb_true_iff, String.eqb_eq, IH. split.
  - intros [-> ->]. reflexivity.
  - intros H. injection H as -> ->. tauto.
Qed.

Lemma cases_at_newPackage (part full : string) (path : list string)
    (className : string) :
  cases_at (newPackage part full) path className = [].
Proof. destruct path; reflexivity. Qed.

(** Adding a case at [ipath], class [icn], appends it to the cases found
    there and leaves what is found anywhere else as it was. *)
Lemma cases_at_ensurePackage (icn fullName : string) (x : TestCaseNode)
    (ipath : list string) :
  forall (cur : TestPackageNode) (full : string) (path : list string)
         (className : string),
    cases_at
      (ensurePackage cur ipath full
         (fun pkgNode => ensureClass pkgNode icn fullName (push_case x)))
      path className
    = cases_at cur path className ++
      (if path_eqb ipath path && String.eqb icn className then [x] else []).
Proof.
  induction ipath as [|ip irest IH]; intros cur full path className.
  - simpl ensurePackage. destruct path as [|part rest].
    + simpl. destruct (String.eqb icn className) eqn:E.
      * apply String.eqb_eq in E. subst className.
        rewrite get_set_same. simpl.
        destruct (Js.get icn (pkg_classes cur)); reflexivity.
      * apply String.eqb_neq in E.
        rewrite get_set_other by congruence.
        rewrite app_nil_r. reflexivity.
    + simpl. rewrite app_nil_r. reflexivity.
  - simpl ensurePackage. destruct path as [|part rest].
    + simpl. rewrite app_nil_r. reflexivity.
    + simpl. destruct (String.eqb ip part) eqn:E.
      * apply String.eqb_eq in E. subst part.
        rewrite get_set_same, IH. simpl.
        destruct (Js.get ip (pkg_children cur)) as [c|]; [reflexivity |].
        rewrite cases_at_newPackage. reflexivity.
      * apply String.eqb_neq in E.
        rewrite get_set_other by congruence.
        simpl. rewrite app_nil_r. reflexivity.
Qed.

Lemma cases_at_add_record (root : TestPackageNode) (r : XmlSuite * XmlTestCase)
    (path : list string) (className : string) :
  cases_at (add_record root r) path className =
  cases_at root path className ++
  (if at_place path className r then [caseNode_of (snd r)] else []).
Proof.
  unfold add_record, add_case, at_place, place.
  destruct (splitClassName (classname_of (fst r) (snd r)))
    as [[pkgPath cn] fullName].
  apply cases_at_ensurePackage.
Qed.

Lemma cases_at_add_records (records : list (XmlSuite * XmlTestCase))
    (root : TestPackageNode) (path : list string) (className : string) :
  cases_at (fold_left add_record records root) path className =
  cases_at root path className ++
  map (fun r => caseNode_of (snd r)) (filter (at_place path className) records).
Proof.
  revert root. induction records as [|r records IH]; intros root; simpl.
  - rewrite app_nil_r. reflexivity.
  - rewrite IH, cases_at_add_record, <- app_assoc.
    destruct (at_place path className r); reflexivity.
Qed.

Lemma cases_at_aggregate (t : TestPackageNode) (path : list string)
    (className : string) :
  cases_at (aggregate t) path className = cases_at t path className.
Proof.
  revert t. induction path as [|part rest IH]; intros t.
  - destruct t as [name fullName children classes counts dur]. simpl.
    rewrite (get_map_values _ aggregateClass).
    destruct (Js.get className classes); reflexivity.
  - destruct t as [name fullName children classes counts dur].
    change (cases_at (aggregate (mkTestPackageNode name fullName children
                                   classes counts dur))
              (part :: rest) className)
      with (match Js.get part
                    (map (fun kc => (fst kc, aggregate (snd kc))) children) with
            | Some c => cases_at c rest className
            | None => []
            end).
    rewrite (get_map_values _ aggregate). simpl.
    destruct (Js.get part children); simpl; [apply IH | reflexivity].
Qed.

End RecordPlacement.

(** In the tree [buildTestsTree] returns, walking the children maps
    along a package path and looking a class name up there finds exactly
    the test cases of the records that [splitClassName] sends to that
    path and class name, in the order in which the directory was read;
    a path or a class name that no record has gives no case. *)
Theorem buildTestsTree_cases_at
    (entries : list TestsTree.DirEntry) (root : TestsTree.TestPackageNode)
    (path : list string) (className : string) :
  TestsTree.buildTestsTree (Some entries) = Js.Normal (Some root) ->
  Walk.cases_at root path className =
  map (fun r => TestsTree.caseNode_of (snd r))
      (filter (Walk.at_place path className) (Records.leaf_records entries)).
Proof.
  intros H. destruct (buildTestsTree_returns _ _ H) as (entries' & E & ->).
  injection E as <-.
  rewrite cases_at_aggregate, cases_at_add_records.
  unfold TestsTree.root0. rewrite cases_at_newPackage. reflexivity.
Qed.

Lemma buildTestsTree_cases_at_witness :
  exists root,
    TestsTree.buildTestsTree (Some Samples.junit_entries) = Js.Normal (Some root) /\
    map TestsTree.tc_name (Walk.cases_at root ["app"; "core"] "MathTest")
      = ["adds"; "divides"] /\
    Walk.cases_at root ["app"; "core"] "MathTest" =
    map (fun r => TestsTree.caseNode_of (snd r))
        (filter (Walk.at_place ["app"; "core"] "MathTest")
                (Records.leaf_records Samples.junit_entries)).
Proof.
  eexists. split; [vm_compute; reflexivity |].
  split; [vm_compute; reflexivity |].
  apply (buildTestsTree_cases_at Samples.junit_entries).
  vm_compute; reflexivity.
Defined.

(** ** Every test case is counted once *)

Section OutcomeConservation.
Import TestsTree Spec Inv Records Walk.

Lemma flat_map_set_perm (V B : Type) (f : V -> list B) (k : string) (v : V)
    (m : Js.Map V) (x : B) :
  Permutation (f v)
    (x :: match Js.get k m with Some old => f old | None => [] end) ->
  Permutation (flat_map (fun kc => f (snd kc)) (Js.set k v m))
              (x :: flat_map (fun kc => f (snd kc)) m).
Proof.
  induction m as [|[k' v'] r IH]; simpl; intros H.
  - rewrite app_nil_r. exact H.
  - destruct (String.eqb k' k) eqn:E; simpl.
    + change (x :: f v' ++ flat_map (fun kc => f (snd kc)) r)
        with ((x :: f v') ++ flat_map (fun kc => f (snd kc)) r).
      apply Permutation_app_tail. exact H.
    + eapply perm_trans; [apply Permutation_app_head, IH, H |].
      apply Permutation_sym, Permutation_middle.
Qed.

Lemma all_cases_unfold (n : TestPackageNode) :
  all_cases n =
  flat_map (fun kc => cls_cases (snd kc)) (pkg_classes n) ++
  flat_map (fun kc => all_cases (snd kc)) (pkg_children n).
Proof. destruct n; reflexivity. Qed.

Lemma all_cases_ensureClass (n : TestPackageNode) (icn fullName : string)
    (x : TestCaseNode) :
  Permutation (all_cases (ensureClass n icn fullName (push_case x)))
              (x :: all_cases n).
Proof.
  rewrite !all_cases_unfold. unfold ensureClass. simpl.
  change (x :: flat_map (fun kc => cls_cases (snd kc)) (pkg_classes n) ++
               flat_map (fun kc => all_cases (snd kc)) (pkg_children n))
    with ((x :: flat_map (fun kc => cls_cases (snd kc)) (pkg_classes n)) ++
          flat_map (fun kc => all_cases (snd kc)) (pkg_children n)).
  apply Permutation_app_tail.
  apply (flat_map_set_perm _ _ cls_cases). simpl.
  destruct (Js.get icn (pkg_classes n)); simpl;
    apply Permutation_sym, Permutation_cons_append.
Qed.

Lemma all_cases_ensurePackage (k : TestPackageNode -> TestPackageNode)
    (x : TestCaseNode) :
  (forall n, Permutation (all_cases (k n)) (x :: all_cases n)) ->
  forall ipath cur full,
    Permutation (all_cases (ensurePackage cur ipath full k)) (x :: all_cases cur).
Proof.
  intros Hk ipath. induction ipath as [|ip irest IH]; intros cur full.
  - apply Hk.
  - simpl ensurePackage. rewrite (all_cases_unfold cur), all_cases_unfold.
    simpl pkg_classes. simpl pkg_children.
    eapply perm_trans; [| apply Permutation_sym, Permutation_middle].
    apply Permutation_app_head.
    apply (flat_map_set_perm _ _ all_cases).
    eapply perm_trans; [apply IH |].
    destruct (Js.get ip (pkg_children cur)); [apply Permutation_refl |].
    rewrite all_cases_unfold. simpl. apply Permutation_refl.
Qed.

Lemma all_cases_add_records (records : list (XmlSuite * XmlTestCase))
    (root : TestPackageNode) :
  Permutation (all_cases (fold_left add_record records root))
              (all_cases root ++ map (fun r => caseNode_of (snd r)) records).
Proof.
  revert root. induction records as [|r records IH]; intros root; simpl.
  - rewrite app_nil_r. apply Permutation_refl.
  - eapply perm_trans; [apply IH |].
    eapply perm_trans; [| apply Permutation_middle].
    change (caseNode_of (snd r) :: all_cases root ++
            map (fun r0 => caseNode_of (snd r0)) records)
      with ((caseNode_of (snd r) :: all_cases root) ++
            map (fun r0 => caseNode_of (snd r0)) records).
    apply Permutation_app_tail.
    unfold add_record, add_case.
    destruct (splitClassName (classname_of (fst r) (snd r)))
      as [[pkgPath cn] fullName].
    apply all_cases_ensurePackage. intros n. apply all_cases_ensureClass.
Qed.

Lemma all_cases_aggregate (t : TestPackageNode) :
  all_cases (aggregate t) = all_cases t.
Proof.
  induction t as [name fullName children classes counts dur IH]
    using TestPackageNode_ind.
  rewrite !all_cases_unfold. simpl pkg_classes. simpl pkg_children.
  rewrite !flat_map_concat_map, !map_map. f_equal.
  f_equal. apply map_ext_in. intros kc Hkc.
  rewrite Forall_forall in IH. apply (IH kc Hkc).
Qed.

Lemma count_status_app (s : TestStatus) (l1 l2 : list TestCaseNode) :
  count_status s (l1 ++ l2) = count_status s l1 + count_status s l2.
Proof.
  unfold count_status. rewrite filter_app, length_app. lia.
Qed.

Lemma count_status_perm (s : TestStatus) (l1 l2 : list TestCaseNode) :
  Permutation l1 l2 -> count_status s l1 = count_status s l2.
Proof.
  unfold count_status.
  induction 1 as [| x l l' _ IH | x y l | l l' l'' _ IH1 _ IH2]; simpl.
  - reflexivity.
  - destruct (status_eqb (tc_status x) s); simpl; lia.
  - destruct (status_eqb (tc_status x) s), (status_eqb (tc_status y) s);
      reflexivity.
  - lia.
Qed.

Lemma tally_app (l1 l2 : list TestCaseNode) :
  tally (l1 ++ l2) = addCounts (tally l1) (tally l2).
Proof.
  unfold tally, addCounts. simpl. rewrite !count_status_app. reflexivity.
Qed.

Lemma tally_perm (l1 l2 : list TestCaseNode) :
  Permutation l1 l2 -> tally l1 = tally l2.
Proof.
  intros H. unfold tally.
  rewrite (count_status_perm Passed _ _ H), (count_status_perm Failed _ _ H),
    (count_status_perm Skipped _ _ H). reflexivity.
Qed.

Lemma tally_total (l : list TestCaseNode) :
  passed (tally l) + failed (tally l) + skipped (tally l)
  = Z.of_nat (List.length l).
Proof.
  unfold tally, count_status. simpl.
  induction l as [|x l IH]; [reflexivity |].
  simpl filter. simpl List.length at 4.
  destruct (tc_status x); simpl status_eqb; cbv iota; simpl List.length; lia.
Qed.

Lemma zsum_append (l1 l2 : list Z) : zsum (l1 ++ l2) = zsum l1 + zsum l2.
Proof.
  induction l1 as [|x l1 IH]; simpl; [reflexivity | rewrite IH; lia].
Qed.

Lemma zsum_permutation (l1 l2 : list Z) :
  Permutation l1 l2 -> zsum l1 = zsum l2.
Proof. induction 1; simpl; lia. Qed.

(** In an aggregated tree the numbers of a package are those of all the
    test cases below it. *)
Lemma aggregated_numbers (t : TestPackageNode) :
  every_package outcome_aggregated t ->
  pkg_counts t = tally (all_cases t) /\
  pkg_durationMs t = zsum (map tc_durationMs (all_cases t)).
Proof.
  induction t as [name fullName children classes counts dur IH]
    using TestPackageNode_ind.
  intros H. destruct (H _ (subnode_here _)) as (Hc & Hd & Hcls).
  simpl in Hc, Hd, Hcls. rewrite all_cases_unfold. simpl pkg_classes.
  simpl pkg_children. simpl pkg_counts. simpl pkg_durationMs.
  assert (Hclasses :
            sumCounts (map cls_counts (Js.values classes)) =
              tally (flat_map (fun kc => cls_cases (snd kc)) classes) /\
            zsum (map cls_durationMs (Js.values classes)) =
              zsum (map tc_durationMs
                      (flat_map (fun kc => cls_cases (snd kc)) classes))).
  { clear -Hcls. induction classes as [|[k c] r IHr]; [split; reflexivity |].
    simpl in *. inversion Hcls as [|? ? [Hcc Hcd] Hr]; subst.
    destruct (IHr Hr) as [E1 E2].
    rewrite tally_app, map_app, zsum_append, E1, E2, Hcc, Hcd.
    split; reflexivity. }
  assert (Hchildren :
            sumCounts (map pkg_counts (Js.values children)) =
              tally (flat_map (fun kc => all_cases (snd kc)) children) /\
            zsum (map pkg_durationMs (Js.values children)) =
              zsum (map tc_durationMs
                      (flat_map (fun kc => all_cases (snd kc)) children))).
  { assert (Hsub : forall k c, In (k, c) children ->
                               every_package outcome_aggregated c).
    { intros k c Hin. eapply every_package_child; [exact H | exact Hin]. }
    clear -IH Hsub. induction children as [|[k c] r IHr]; [split; reflexivity |].
    simpl in *. inversion IH as [|? ? Hc Hr]; subst.
    destruct (Hc (Hsub k c (or_introl eq_refl))) as [E1 E2].
    destruct (IHr Hr) as [E3 E4].
    { intros k' c' Hin. apply (Hsub k' c'). right; exact Hin. }
    simpl in E1, E2.
    rewrite tally_app, map_app, zsum_append, E1, E2, E3, E4.
    split; reflexivity. }
  destruct Hclasses as [C1 C2]. destruct Hchildren as [K1 K2].
  rewrite Hc, Hd, C1, C2, K1, K2, tally_app, map_app, zsum_append.
  split; reflexivity.
Qed.

End OutcomeConservation.

(** The root of the tree [buildTestsTree] returns counts every record of
    the directory exactly once: its counts are the numbers of records
    classified passed, failed and skipped, they add up to the number of
    records, and its duration is the sum of the durations of their case
    nodes. *)
Theorem buildTestsTree_root_counts_records
    (entries : list TestsTree.DirEntry) (root : TestsTree.TestPackageNode) :
  TestsTree.buildTestsTree (Some entries) = Js.Normal (Some root) ->
  let cases :=
    map (fun r => TestsTree.caseNode_of (snd r))
        (Records.leaf_records entries) in
  TestsTree.pkg_counts root = Walk.tally cases /\
  TestsTree.pkg_durationMs root =
    Spec.zsum (map TestsTree.tc_durationMs cases) /\
  TestsTree.passed (TestsTree.pkg_counts root) +
  TestsTree.failed (TestsTree.pkg_counts root) +
  TestsTree.skipped (TestsTree.pkg_counts root)
  = Z.of_nat (List.length (Records.leaf_records entries)).
Proof.
  intros Hb cases.
  pose proof (buildTestsTree_aggregated _ _ Hb) as Hagg.
  destruct (aggregated_numbers root Hagg) as [Hc Hd].
  destruct (buildTestsTree_returns _ _ Hb) as (entries' & E & Hroot).
  injection E as <-.
  assert (Hperm : Permutation (Walk.all_cases root) cases).
  { rewrite Hroot, all_cases_aggregate.
    eapply perm_trans; [apply all_cases_add_records |].
    apply Permutation_refl. }
  assert (Htally : TestsTree.pkg_counts root = Walk.tally cases).
  { rewrite Hc. apply tally_perm, Hperm. }
  split; [exact Htally |]. split.
  - rewrite Hd. apply zsum_permutation, Permutation_map, Hperm.
  - rewrite Htally, tally_total. unfold cases. rewrite length_map.
    reflexivity.
Qed.

Lemma buildTestsTree_root_counts_records_witness :
  exists root,
    TestsTree.buildTestsTree (Some Samples.junit_entries) = Js.Normal (Some root) /\
    TestsTree.pkg_counts root = TestsTree.mkCounts 2 1 0 /\
    TestsTree.passed (TestsTree.pkg_counts root) +
    TestsTree.failed (TestsTree.pkg_counts root) +
    TestsTree.skipped (TestsTree.pkg_counts root)
    = Z.of_nat (List.length (Records.leaf_records Samples.junit_entries)).
Proof.
  eexists. split; [vm_compute; reflexivity |].
  split; [vm_compute; reflexivity |].
  apply (buildTestsTree_root_counts_records Samples.junit_entries).
  vm_compute; reflexivity.
Defined.

(** ** Every source file is counted once *)

Section CoverageConservation.
Import Coverage Spec Inv Walk.

Variable cmp : string -> string -> Z.

Lemma addTotals_zero_r (a : Totals) : addTotals a zeroTotals = a.
Proof. apply totals_eq; simpl; lia. Qed.

Lemma sumTotals_app (l1 l2 : list Totals) :
  sumTotals (l1 ++ l2) = addTotals (sumTotals l1) (sumTotals l2).
Proof.
  induction l1 as [|x l1 IH]; simpl.
  - symmetry. apply addTotals_zero_l.
  - rewrite IH. symmetry. apply addTotals_assoc.
Qed.

(** *** The fallback through the class counters *)

Lemma group_step_get (cs : list XmlClass) :
  forall (m : Js.Map Totals) (name : string),
    Js.get name (fold_left group_step cs m) =
    match classes_of_file name cs with
    | [] => Js.get name m
    | sel =>
        Some (addTotals (Js.nullish (Js.get name m) zeroTotals)
                        (sumTotals (map class_totals sel)))
    end.
Proof.
  induction cs as [|c cs IH]; intros m name; [reflexivity |].
  simpl fold_left. rewrite IH. unfold classes_of_file. simpl filter.
  assert (Hstep : group_step m c =
                  Js.set (class_file c)
                    (addTotals (Js.nullish (Js.get (class_file c) m) zeroTotals)
                               (class_totals c)) m) by reflexivity.
  rewrite Hstep. clear Hstep.
  destruct (String.eqb (class_file c) name) eqn:E.
  - apply String.eqb_eq in E. rewrite E. rewrite get_set_same. simpl.
    destruct (filter (fun c0 => String.eqb (class_file c0) name) cs)
      as [|c' sel]; simpl.
    + rewrite addTotals_zero_r. reflexivity.
    + rewrite addTotals_assoc. reflexivity.
  - apply String.eqb_neq in E.
    rewrite get_set_other by congruence. reflexivity.
Qed.

Lemma sumTotals_values_set (k : string) (x : Totals) (m : Js.Map Totals) :
  sumTotals
    (Js.values (Js.set k (addTotals (Js.nullish (Js.get k m) zeroTotals) x) m))
  = addTotals (sumTotals (Js.values m)) x.
Proof.
  unfold Js.values. induction m as [|[k' v'] r IH]; simpl.
  - rewrite addTotals_zero_l, addTotals_zero_r. reflexivity.
  - destruct (String.eqb k' k) eqn:E; simpl.
    + apply totals_eq; simpl; lia.
    + rewrite IH. symmetry. apply addTotals_assoc.
Qed.

Lemma group_step_sum (cs : list XmlClass) :
  forall m : Js.Map Totals,
    sumTotals (Js.values (fold_left group_step cs m)) =
    addTotals (sumTotals (Js.values m)) (sumTotals (map class_totals cs)).
Proof.
  induction cs as [|c cs IH]; intros m; simpl.
  - symmetry. apply addTotals_zero_r.
  - rewrite IH.
    assert (Hstep : group_step m c =
                    Js.set (class_file c)
                      (addTotals (Js.nullish (Js.get (class_file c) m) zeroTotals)
                                 (class_totals c)) m) by reflexivity.
    rewrite Hstep, sumTotals_values_set. apply addTotals_assoc.
Qed.

Lemma group_step_NoDup (cs : list XmlClass) :
  forall m : Js.Map Totals,
    NoDup (Js.keys m) -> NoDup (Js.keys (fold_left group_step cs m)).
Proof.
  induction cs as [|c cs IH]; intros m H; simpl; [exact H |].
  apply IH. unfold group_step. apply NoDup_keys_set, H.
Qed.

Lemma file_totals_of_group (e : string * Totals) :
  file_totals (sourceFile_of_group e) = snd e.
Proof. destruct e as [name [a b c d]]. reflexivity. Qed.

End CoverageConservation.

(** When a package of the report has no [<sourcefile>] element, its
    [<class>] elements are grouped by source file name: there is one
    file per distinct name, without uncovered lines, its counters are
    the sums of the LINE and METHOD counters of the classes of that
    name, and nothing is counted twice or lost. *)
Theorem class_fallback_groups
    (pkg : Coverage.XmlPackage) :
  Coverage.xp_sourcefile pkg = [] ->
  let files := Walk.files_of_package pkg in
  NoDup (map Coverage.sf_name files) /\
  (forall sf, In sf files ->
     Coverage.sf_uncoveredLines sf = [] /\
     Walk.classes_of_file (Coverage.sf_name sf) (Coverage.xp_class pkg) <> [] /\
     Coverage.file_totals sf =
       Spec.sumTotals
         (map Walk.class_totals
              (Walk.classes_of_file (Coverage.sf_name sf)
                                    (Coverage.xp_class pkg)))) /\
  (forall c, In c (Coverage.xp_class pkg) ->
     In (Walk.class_file c) (map Coverage.sf_name files)) /\
  Spec.sumTotals (map Coverage.file_totals files) =
    Spec.sumTotals (map Walk.class_totals (Coverage.xp_class pkg)).
Proof.
  intros Hs files. unfold files, Walk.files_of_package. rewrite Hs. simpl.
  set (grouped := fold_left Coverage.group_step (Coverage.xp_class pkg) []).
  assert (Hnames : map Coverage.sf_name (map Coverage.sourceFile_of_group grouped)
                   = Js.keys grouped).
  { rewrite map_map. unfold Js.keys. apply map_ext. intros [k v]. reflexivity. }
  assert (Hget : forall name,
             Js.get name grouped =
             match Walk.classes_of_file name (Coverage.xp_class pkg) with
             | [] => None
             | sel => Some (Coverage.addTotals Coverage.zeroTotals
                              (Spec.sumTotals (map Walk.class_totals sel)))
             end).
  { intros name. unfold grouped. rewrite group_step_get. reflexivity. }
  assert (Hnd : NoDup (Js.keys grouped)).
  { apply group_step_NoDup. constructor. }
  assert (Hfirst : forall k v, In (k, v) grouped -> Js.get k grouped = Some v).
  { clear -Hnd. induction grouped as [|[k' v'] r IH]; simpl; [tauto |].
    intros k v [E | Hin].
    - injection E as -> ->. rewrite String.eqb_refl. reflexivity.
    - simpl in Hnd. inversion Hnd as [|? ? Hnot Hr]; subst.
      destruct (String.eqb k' k) eqn:E.
      + apply String.eqb_eq in E. subst k'. exfalso. apply Hnot.
        unfold Js.keys. apply in_map_iff. exists (k, v). split; [reflexivity | exact Hin].
      + apply IH; assumption. }
  split; [rewrite Hnames; exact Hnd |]. split; [| split].
  - intros sf Hsf. apply in_map_iff in Hsf. destruct Hsf as [[k v] [<- Hin]].
    simpl. split; [reflexivity |].
    pose proof (Hfirst k v Hin) as Hk. rewrite Hget in Hk.
    destruct (Walk.classes_of_file k (Coverage.xp_class pkg)) as [|c sel];
      [discriminate |].
    split; [discriminate |].
    injection Hk as <-. rewrite addTotals_zero_l. reflexivity.
  - intros c Hc. rewrite Hnames. apply Decidable.not_not.
    { unfold Decidable.decidable.
      destruct (in_dec string_dec (Walk.class_file c) (Js.keys grouped)); tauto. }
    intros Hnot. apply get_None_keys in Hnot. rewrite Hget in Hnot.
    assert (Hin : In c (Walk.classes_of_file (Walk.class_file c)
                          (Coverage.xp_class pkg))).
    { unfold Walk.classes_of_file. apply filter_In.
      split; [exact Hc | apply String.eqb_refl]. }
    destruct (Walk.classes_of_file (Walk.class_file c) (Coverage.xp_class pkg));
      [contradiction | discriminate].
  - rewrite map_map.
    rewrite (map_ext _ snd file_totals_of_group).
    change (map snd grouped) with (Js.values grouped).
    unfold grouped. rewrite group_step_sum. simpl. apply addTotals_zero_l.
Qed.

Lemma class_fallback_groups_witness :
  map Coverage.sf_name (Walk.files_of_package Samples.class_only_package)
    = ["Bar.java"; "unknown"] /\
  NoDup (map Coverage.sf_name
           (Walk.files_of_package Samples.class_only_package)) /\
  Spec.sumTotals
    (map Coverage.file_totals
         (Walk.files_of_package Samples.class_only_package))
  = Coverage.mkTotals 10 40 1 0.
Proof.
  pose proof (class_fallback_groups Samples.class_only_package eq_refl) as H.
  cbv zeta in H. destruct H as (H1 & _ & _ & H4).
  split; [vm_compute; reflexivity |].
  split; [exact H1 |].
  rewrite H4. vm_compute. reflexivity.
Defined.

Section CoverageFilesOnce.
Import Coverage Spec Inv Walk.

Variable cmp : string -> string -> Z.

Lemma flat_map_set_perm_list (V B : Type) (f : V -> list B) (k : string)
    (v : V) (m : Js.Map V) (xs : list B) :
  Permutation (f v)
    (match Js.get k m with Some old => f old | None => [] end ++ xs) ->
  Permutation (flat_map (fun kc => f (snd kc)) (Js.set k v m))
              (flat_map (fun kc => f (snd kc)) m ++ xs).
Proof.
  induction m as [|[k' v'] r IH]; simpl; intros H.
  - rewrite app_nil_r. exact H.
  - destruct (String.eqb k' k) eqn:E; simpl.
    + rewrite <- app_assoc.
      eapply perm_trans; [apply Permutation_app_tail, H |].
      rewrite <- !app_assoc. apply Permutation_app_head, Permutation_app_comm.
    + rewrite <- app_assoc. apply Permutation_app_head, IH, H.
Qed.

Lemma flat_map_perm_pointwise (A B : Type) (f g : A -> list B) (l : list A) :
  (forall x, In x l -> Permutation (f x) (g x)) ->
  Permutation (flat_map f l) (flat_map g l).
Proof.
  induction l as [|x l IH]; intros H; simpl; [constructor |].
  apply Permutation_app.
  - apply H. left; reflexivity.
  - apply IH. intros y Hy. apply H. right; exact Hy.
Qed.

Lemma all_files_unfold (n : PackageNode) :
  all_files n =
  pn_sourcefile n ++ flat_map (fun kc => all_files (snd kc)) (pn_children n).
Proof. destruct n; reflexivity. Qed.

Lemma attach_files (pkg : XmlPackage) (n : PackageNode) :
  pn_sourcefile (attach cmp pkg n) =
  Js.sort (fun a b => cmp (sf_name a) (sf_name b))
          (pn_sourcefile n ++ files_of_package pkg).
Proof.
  unfold attach, files_of_package. simpl.
  destruct (0 <? List.length (xp_sourcefile pkg))%nat; reflexivity.
Qed.

Lemma all_files_at_path (f : PackageNode -> PackageNode)
    (xs : list SourceFile) :
  (forall n, Permutation (pn_sourcefile (f n)) (pn_sourcefile n ++ xs)) ->
  (forall n, pn_children (f n) = pn_children n) ->
  forall parts path cur,
    Permutation (all_files (at_path parts path f cur)) (all_files cur ++ xs).
Proof.
  intros Hf Hch parts. induction parts as [|part rest IH]; intros path cur.
  - simpl at_path. rewrite (all_files_unfold cur), all_files_unfold, Hch.
    rewrite <- app_assoc.
    eapply perm_trans; [apply Permutation_app_tail, Hf |].
    rewrite <- !app_assoc. apply Permutation_app_head, Permutation_app_comm.
  - simpl at_path. rewrite (all_files_unfold cur), all_files_unfold.
    simpl pn_sourcefile. simpl pn_children. rewrite <- app_assoc.
    apply Permutation_app_head.
    apply (flat_map_set_perm_list _ _ all_files).
    eapply perm_trans; [apply IH |].
    destruct (Js.get part (pn_children cur)); [apply Permutation_refl |].
    rewrite all_files_unfold. simpl. apply Permutation_refl.
Qed.

Lemma all_files_addPackage (root : PackageNode) (pkg : XmlPackage) :
  Permutation (all_files (addPackage cmp root pkg))
              (all_files root ++ files_of_package pkg).
Proof.
  unfold addPackage. apply all_files_at_path.
  - intros n. rewrite attach_files. apply Permutation_sym, sort_perm.
  - intros n. reflexivity.
Qed.

Lemma all_files_addPackages (pkgs : list XmlPackage) (root : PackageNode) :
  Permutation (all_files (fold_left (addPackage cmp) pkgs root))
              (all_files root ++ flat_map files_of_package pkgs).
Proof.
  revert root. induction pkgs as [|pkg pkgs IH]; intros root; simpl.
  - rewrite app_nil_r. apply Permutation_refl.
  - eapply perm_trans; [apply IH |].
    rewrite app_assoc. apply Permutation_app_tail, all_files_addPackage.
Qed.

Lemma all_files_aggregateCoverage (t : PackageNode) :
  Permutation (all_files (aggregateCoverage cmp t)) (all_files t).
Proof.
  induction t as [name fullName sfs children lc lm fc fm IH]
    using PackageNode_ind.
  rewrite !all_files_unfold. simpl pn_sourcefile. simpl pn_children.
  apply Permutation_app_head.
  eapply perm_trans.
  { apply Permutation_flat_map, Permutation_sym, sort_perm. }
  rewrite flat_map_concat_map, map_map, <- flat_map_concat_map.
  apply flat_map_perm_pointwise. intros kc Hkc.
  rewrite Forall_forall in IH. apply (IH kc Hkc).
Qed.

(** In an aggregated tree the metrics of a node are those of all the
    source files below it. *)
Lemma aggregated_totals (t : PackageNode) :
  (forall n, subnode t n -> coverage_aggregated n) ->
  node_totals t = sumTotals (map file_totals (all_files t)).
Proof.
  induction t as [name fullName sfs children lc lm fc fm IH]
    using PackageNode_ind.
  intros H. destruct (H _ (subnode_here _)) as [_ Hsum].
  rewrite Hsum, all_files_unfold. simpl pn_sourcefile. simpl pn_children.
  rewrite map_app, sumTotals_app. f_equal.
  assert (Hsub : forall k c, In (k, c) children ->
                   forall n, subnode c n -> coverage_aggregated n).
  { intros k c Hin n Hn. apply H. eapply subnode_child; [exact Hin | exact Hn]. }
  clear -IH Hsub. induction children as [|[k c] r IHr]; [reflexivity |].
  simpl in *. inversion IH as [|? ? Hc Hr]; subst. simpl in Hc.
  rewrite map_app, sumTotals_app, <- IHr.
  - rewrite (Hc (Hsub k c (or_introl eq_refl))). reflexivity.
  - exact Hr.
  - intros k' c' Hin. apply (Hsub k' c'). right; exact Hin.
Qed.

End CoverageFilesOnce.

(** The coverage tree holds every file the packages of the report bring
    (one per [<sourcefile>] element, or per source file name of the
    [<class>] elements of a package without any) exactly once, and the
    four metrics of its root are the sums of the counters of these
    files. *)
Theorem coverage_root_counts_files
    (localeCompare : string -> string -> Z)
    (pkgs : list Coverage.XmlPackage) (root : Coverage.PackageNode) :
  Coverage.buildCoverageTreeFromJaCoCo localeCompare (Some pkgs) = Some root ->
  Permutation (Walk.all_files root) (flat_map Walk.files_of_package pkgs) /\
  Coverage.node_totals root =
    Spec.sumTotals
      (map Coverage.file_totals (flat_map Walk.files_of_package pkgs)).
Proof.
  intros Hb.
  assert (Hagg : forall n, Coverage.subnode root n -> Spec.coverage_aggregated n).
  { intros n Hn.
    destruct (build_root_aggregate _ _ _ Hb) as [t ->].
    destruct (aggregateCoverage_subnode _ _ _ Hn) as [n0 [_ ->]].
    apply aggregateCoverage_sums. }
  assert (Hperm : Permutation (Walk.all_files root)
                              (flat_map Walk.files_of_package pkgs)).
  { unfold Coverage.buildCoverageTreeFromJaCoCo in Hb.
    destruct (List.length pkgs =? 0)%nat; [discriminate |].
    injection Hb as <-.
    eapply perm_trans; [apply all_files_aggregateCoverage |].
    eapply perm_trans; [apply all_files_addPackages |].
    apply Permutation_refl. }
  split; [exact Hperm |].
  rewrite (aggregated_totals root Hagg).
  apply sumTotals_perm, Permutation_map, Hperm.
Qed.

Lemma coverage_root_counts_files_witness :
  exists root,
    Coverage.buildCoverageTreeFromJaCoCo
      Samples.lexical_compare (Some [Samples.class_only_package]) = Some root /\
    Coverage.node_totals root = Coverage.mkTotals 10 40 1 0 /\
    Permutation (Walk.all_files root)
                (flat_map Walk.files_of_package [Samples.class_only_package]).
Proof.
  eexists. split; [vm_compute; reflexivity |].
  split; [vm_compute; reflexivity |].
  apply (coverage_root_counts_files Samples.lexical_compare
           [Samples.class_only_package]).
  vm_compute; reflexivity.
Defined.

(** ** Keys, names and full names *)

Section OutcomeShape.
Import TestsTree Inv Shape.

Lemma ensurePackage_names (k : TestPackageNode -> TestPackageNode) :
  (forall n, pkg_name (k n) = pkg_name n /\ pkg_fullName (k n) = pkg_fullName n) ->
  forall path cur full,
    pkg_name (ensurePackage cur path full k) = pkg_name cur /\
    pkg_fullName (ensurePackage cur path full k) = pkg_fullName cur.
Proof.
  intros Hk path cur full. destruct path; [apply Hk | split; reflexivity].
Qed.

Lemma outcome_shape_new (part full : string) :
  outcome_shape (newPackage part full).
Proof.
  unfold outcome_shape. simpl.
  split; [constructor |]. split; [constructor |]. split; intros; contradiction.
Qed.

Lemma ensureClass_shape (n : TestPackageNode) (icn fullName : string)
    (x : TestCaseNode) :
  outcome_shape n -> outcome_shape (ensureClass n icn fullName (push_case x)).
Proof.
  intros (H1 & H2 & H3 & H4). unfold outcome_shape, ensureClass. simpl.
  split; [exact H1 |]. split; [apply NoDup_keys_set, H2 |].
  split; [exact H3 |].
  intros k c Hin. apply set_In in Hin. destruct Hin as [E | Hin].
  - injection E as -> ->. simpl.
    destruct (Js.get icn (pkg_classes n)) as [c0|] eqn:G; [| reflexivity].
    apply (H4 icn c0), get_In, G.
  - apply (H4 k c Hin).
Qed.

Lemma outcome_subnode_inv (t n : TestPackageNode) :
  subnode t n ->
  n = t \/ exists k c, In (k, c) (pkg_children t) /\ subnode c n.
Proof.
  intros H. inversion H; subst; [left; reflexivity |].
  right. eexists. eexists. split; eassumption.
Qed.

Lemma ensurePackage_shape (k : TestPackageNode -> TestPackageNode) :
  (forall n, outcome_shape n -> outcome_shape (k n)) ->
  (forall n, pkg_children (k n) = pkg_children n) ->
  (forall n, pkg_name (k n) = pkg_name n /\ pkg_fullName (k n) = pkg_fullName n) ->
  forall path cur full,
    full = pkg_fullName cur ->
    every_package outcome_shape cur ->
    every_package outcome_shape (ensurePackage cur path full k).
Proof.
  intros Hk Hch Hnm path.
  induction path as [|part rest IH]; intros cur full Hfull Hcur n Hn.
  - simpl in Hn. inversion Hn; subst.
    + apply Hk, Hcur, subnode_here.
    + rewrite Hch in *. apply Hcur. eapply subnode_child; eassumption.
  - simpl in Hn.
    set (full' := if String.eqb (pkg_fullName cur) "" then part
                  else (pkg_fullName cur ++ "." ++ part)%string) in *.
    subst full. fold full' in Hn.
    set (child := match Js.get part (pkg_children cur) with
                  | Some c => c
                  | None => newPackage part full'
                  end) in *.
    destruct (Hcur _ (subnode_here _)) as (H1 & H2 & H3 & H4).
    assert (Hchild : pkg_name child = part /\ pkg_fullName child = full' /\
                     every_package outcome_shape child).
    { unfold child. destruct (Js.get part (pkg_children cur)) as [c0|] eqn:G.
      - apply get_In in G. destruct (H3 _ _ G) as [E1 E2].
        split; [exact E1 |]. split; [exact E2 |].
        eapply every_package_child; [exact Hcur | exact G].
      - split; [reflexivity |]. split; [reflexivity |].
        apply every_package_new, outcome_shape_new. }
    destruct Hchild as (Hn1 & Hn2 & Hsub).
    destruct (outcome_subnode_inv _ _ Hn) as [-> | (k0 & c0 & Hin & Hsub0)].
    + unfold outcome_shape. simpl.
      split; [apply NoDup_keys_set, H1 |]. split; [exact H2 |].
      split; [| exact H4].
      intros k1 c1 Hin. apply set_In in Hin. destruct Hin as [E | Hin].
      * injection E as -> ->.
        destruct (ensurePackage_names k Hnm rest child full') as [E1 E2].
        split; [exact (eq_trans E1 Hn1) | exact (eq_trans E2 Hn2)].
      * apply (H3 k1 c1 Hin).
    + simpl in Hin. apply set_In in Hin. destruct Hin as [E | Hin].
      * injection E as -> ->. revert Hsub0.
        apply IH; [symmetry; exact Hn2 | exact Hsub].
      * apply Hcur. eapply subnode_child; eassumption.
Qed.

Lemma add_record_shape (root : TestPackageNode) (r : XmlSuite * XmlTestCase) :
  pkg_fullName root = "" ->
  every_package outcome_shape root ->
  pkg_fullName (Walk.add_record root r) = "" /\
  every_package outcome_shape (Walk.add_record root r).
Proof.
  intros Hroot H. unfold Walk.add_record, add_case.
  destruct (splitClassName (classname_of (fst r) (snd r)))
    as [[pkgPath cn] fullName].
  split.
  - rewrite <- Hroot. apply ensurePackage_names. intros n. split; reflexivity.
  - apply ensurePackage_shape; try assumption.
    + intros n. apply ensureClass_shape.
    + reflexivity.
    + intros n. split; reflexivity.
    + symmetry. exact Hroot.
Qed.

Lemma aggregate_names (t : TestPackageNode) :
  pkg_name (aggregate t) = pkg_name t /\
  pkg_fullName (aggregate t) = pkg_fullName t.
Proof. destruct t; split; reflexivity. Qed.

Lemma aggregate_shape (t : TestPackageNode) :
  outcome_shape t -> outcome_shape (aggregate t).
Proof.
  destruct t as [name fullName children classes counts dur].
  intros (H1 & H2 & H3 & H4). unfold outcome_shape. simpl in *.
  assert (K1 : Js.keys (map (fun kc => (fst kc, aggregate (snd kc))) children)
               = Js.keys children).
  { unfold Js.keys. rewrite map_map. reflexivity. }
  assert (K2 : Js.keys (map (fun kc => (fst kc, aggregateClass (snd kc))) classes)
               = Js.keys classes).
  { unfold Js.keys. rewrite map_map. reflexivity. }
  rewrite K1, K2. split; [exact H1 |]. split; [exact H2 |]. split.
  - intros k c Hin. apply in_map_iff in Hin.
    destruct Hin as [[k0 c0] [E Hin]]. simpl in E. injection E as <- <-.
    destruct (aggregate_names c0) as [E1 E2]. rewrite E1, E2.
    apply (H3 k0 c0 Hin).
  - intros k c Hin. apply in_map_iff in Hin.
    destruct Hin as [[k0 c0] [E Hin]]. simpl in E. injection E as <- <-.
    simpl. apply (H4 k0 c0 Hin).
Qed.

End OutcomeShape.

(** In the tree [buildTestsTree] returns no package has two children
    or two classes under one key, every child carries its key as its
    name and the dotted path from the root as its full name, and every
    class carries its key as its name: looking a segment up never meets
    a second candidate. *)
Theorem buildTestsTree_shape
    (dir : option (list TestsTree.DirEntry)) (root : TestsTree.TestPackageNode) :
  TestsTree.buildTestsTree dir = Js.Normal (Some root) ->
  TestsTree.pkg_fullName root = "" /\
  forall n, TestsTree.subnode root n -> Shape.outcome_shape n.
Proof.
  intros H. destruct (buildTestsTree_returns _ _ H) as (entries & _ & ->).
  assert (Hfold :
            TestsTree.pkg_fullName
              (fold_left Walk.add_record (Records.leaf_records entries)
                 TestsTree.root0) = "" /\
            Inv.every_package Shape.outcome_shape
              (fold_left Walk.add_record (Records.leaf_records entries)
                 TestsTree.root0)).
  { apply (fold_left_invariant _ _
             (fun t => TestsTree.pkg_fullName t = "" /\
                       Inv.every_package Shape.outcome_shape t)).
    - intros b a [Hb1 Hb2]. apply add_record_shape; assumption.
    - split; [reflexivity |].
      apply every_package_new, outcome_shape_new. }
  destruct Hfold as [Hname Hshape]. split.
  - destruct (aggregate_names
                (fold_left Walk.add_record (Records.leaf_records entries)
                   TestsTree.root0)) as [_ E].
    rewrite E. exact Hname.
  - intros n Hn. destruct (aggregate_subnode _ _ Hn) as [n0 [Hsub ->]].
    apply aggregate_shape, Hshape, Hsub.
Qed.

Lemma buildTestsTree_shape_witness :
  exists root,
    TestsTree.buildTestsTree Samples.junit_dir = Js.Normal (Some root) /\
    TestsTree.pkg_fullName root = "" /\
    forall n, TestsTree.subnode root n -> Shape.outcome_shape n.
Proof.
  eexists. split; [vm_compute; reflexivity |].
  apply (buildTestsTree_shape Samples.junit_dir).
  vm_compute; reflexivity.
Defined.

Section CoverageShape.
Import Coverage Inv Shape.

Variable cmp : string -> string -> Z.

Lemma coverage_subnode_inv (t n : PackageNode) :
  subnode t n ->
  n = t \/ exists k c, In (k, c) (pn_children t) /\ subnode c n.
Proof.
  intros H. inversion H; subst; [left; reflexivity |].
  right. eexists. eexists. split; eassumption.
Qed.

Lemma at_path_names (f : PackageNode -> PackageNode) :
  (forall n, pn_name (f n) = pn_name n /\ pn_fullName (f n) = pn_fullName n) ->
  forall parts cur path,
    pn_name (at_path parts path f cur) = pn_name cur /\
    pn_fullName (at_path parts path f cur) = pn_fullName cur.
Proof.
  intros Hf parts cur path. destruct parts; [apply Hf | split; reflexivity].
Qed.

Lemma coverage_shape_new (part path : string) :
  coverage_shape (newNode part path).
Proof.
  unfold coverage_shape. simpl. split; [constructor | intros; contradiction].
Qed.

Lemma every_node_new (R : PackageNode -> Prop) (part path : string) :
  R (newNode part path) ->
  forall n, subnode (newNode part path) n -> R n.
Proof.
  intros H n Hn. destruct (coverage_subnode_inv _ _ Hn) as [-> | (k & c & Hin & _)];
    [exact H | simpl in Hin; contradiction].
Qed.

Lemma at_path_shape (f : PackageNode -> PackageNode) :
  (forall n, coverage_shape n -> coverage_shape (f n)) ->
  (forall n, pn_children (f n) = pn_children n) ->
  (forall n, pn_name (f n) = pn_name n /\ pn_fullName (f n) = pn_fullName n) ->
  forall parts cur path,
    path = pn_fullName cur ->
    (forall n, subnode cur n -> coverage_shape n) ->
    forall n, subnode (at_path parts path f cur) n -> coverage_shape n.
Proof.
  intros Hf Hch Hnm parts.
  induction parts as [|part rest IH]; intros cur path Hpath Hcur n Hn.
  - simpl in Hn.
    destruct (coverage_subnode_inv _ _ Hn) as [-> | (k0 & c0 & Hin & Hsub0)].
    + apply Hf, Hcur, subnode_here.
    + rewrite Hch in Hin. apply Hcur. eapply subnode_child; eassumption.
  - simpl in Hn.
    set (path' := if String.eqb (pn_fullName cur) "" then part
                  else (pn_fullName cur ++ "/" ++ part)%string) in *.
    subst path. fold path' in Hn.
    set (child := match Js.get part (pn_children cur) with
                  | Some c => c
                  | None => newNode part path'
                  end) in *.
    destruct (Hcur _ (subnode_here _)) as (H1 & H3).
    assert (Hchild : pn_name child = part /\ pn_fullName child = path' /\
                     forall n, subnode child n -> coverage_shape n).
    { unfold child. destruct (Js.get part (pn_children cur)) as [c0|] eqn:G.
      - apply get_In in G. destruct (H3 _ _ G) as [E1 E2].
        split; [exact E1 |]. split; [exact E2 |].
        intros m Hm. apply Hcur. eapply subnode_child; eassumption.
      - split; [reflexivity |]. split; [reflexivity |].
        apply every_node_new, coverage_shape_new. }
    destruct Hchild as (Hn1 & Hn2 & Hsub).
    destruct (coverage_subnode_inv _ _ Hn) as [-> | (k0 & c0 & Hin & Hsub0)].
    + unfold coverage_shape. simpl.
      split; [apply NoDup_keys_set, H1 |].
      intros k1 c1 Hin. apply set_In in Hin. destruct Hin as [E | Hin].
      * injection E as -> ->.
        destruct (at_path_names f Hnm rest child path') as [E1 E2].
        split; [exact (eq_trans E1 Hn1) | exact (eq_trans E2 Hn2)].
      * apply (H3 k1 c1 Hin).
    + simpl in Hin. apply set_In in Hin. destruct Hin as [E | Hin].
      * injection E as -> ->. revert Hsub0.
        apply IH; [symmetry; exact Hn2 | exact Hsub].
      * apply Hcur. eapply subnode_child; eassumption.
Qed.

Lemma addPackage_shape (root : PackageNode) (pkg : XmlPackage) :
  pn_fullName root = "" ->
  (forall n, subnode root n -> coverage_shape n) ->
  pn_fullName (addPackage cmp root pkg) = "" /\
  forall n, subnode (addPackage cmp root pkg) n -> coverage_shape n.
Proof.
  intros Hroot H. unfold addPackage. split.
  - rewrite <- Hroot. apply at_path_names. intros n. split; reflexivity.
  - apply at_path_shape; try assumption.
    + intros n Hn. exact Hn.
    + reflexivity.
    + intros n. split; reflexivity.
    + symmetry. exact Hroot.
Qed.

Lemma aggregateCoverage_names (t : PackageNode) :
  pn_name (aggregateCoverage cmp t) = pn_name t /\
  pn_fullName (aggregateCoverage cmp t) = pn_fullName t.
Proof. destruct t; split; reflexivity. Qed.

Lemma aggregateCoverage_shape (t : PackageNode) :
  coverage_shape t -> coverage_shape (aggregateCoverage cmp t).
Proof.
  destruct t as [name fullName sfs children lc lm fc fm].
  intros (H1 & H3). unfold coverage_shape. simpl in *. split.
  - eapply Permutation_NoDup; [| exact H1].
    unfold Js.keys. eapply perm_trans; [| apply Permutation_map, sort_perm].
    rewrite map_map. apply Permutation_refl.
  - intros k c Hin. apply sort_In in Hin. apply in_map_iff in Hin.
    destruct Hin as [[k0 c0] [E Hin]]. simpl in E. injection E as <- <-.
    destruct (aggregateCoverage_names c0) as [E1 E2]. rewrite E1, E2.
    apply (H3 k0 c0 Hin).
Qed.

End CoverageShape.

(** In the tree [buildCoverageTreeFromJaCoCo] returns no node has two
    children under one key, and every child carries its key as its name
    and the slash-separated path from the root as its full name. *)
Theorem buildCoverageTree_shape
    (localeCompare : string -> string -> Z)
    (report : option (list Coverage.XmlPackage)) (root : Coverage.PackageNode) :
  Coverage.buildCoverageTreeFromJaCoCo localeCompare report = Some root ->
  Coverage.pn_fullName root = "" /\
  forall n, Coverage.subnode root n -> Shape.coverage_shape n.
Proof.
  unfold Coverage.buildCoverageTreeFromJaCoCo.
  destruct report as [pkgs|]; [| discriminate].
  destruct (List.length pkgs =? 0)%nat; [discriminate |].
  intros H. injection H as <-.
  assert (Hfold :
            Coverage.pn_fullName
              (fold_left (Coverage.addPackage localeCompare) pkgs Coverage.root0)
            = "" /\
            forall n,
              Coverage.subnode
                (fold_left (Coverage.addPackage localeCompare) pkgs Coverage.root0)
                n ->
              Shape.coverage_shape n).
  { apply (fold_left_invariant _ _
             (fun t => Coverage.pn_fullName t = "" /\
                       forall n, Coverage.subnode t n -> Shape.coverage_shape n)).
    - intros b a [Hb1 Hb2]. apply addPackage_shape; assumption.
    - split; [reflexivity |]. apply every_node_new, coverage_shape_new. }
  destruct Hfold as [Hname Hshape]. split.
  - destruct (aggregateCoverage_names localeCompare
                (fold_left (Coverage.addPackage localeCompare) pkgs
                   Coverage.root0)) as [_ E].
    rewrite E. exact Hname.
  - intros n Hn.
    destruct (aggregateCoverage_subnode _ _ _ Hn) as [n0 [Hsub ->]].
    apply aggregateCoverage_shape, Hshape, Hsub.
Qed.

Lemma buildCoverageTree_shape_witness :
  exists root,
    Coverage.buildCoverageTreeFromJaCoCo
      Samples.lexical_compare Samples.jacoco_report = Some root /\
    Coverage.pn_fullName root = "" /\
    forall n, Coverage.subnode root n -> Shape.coverage_shape n.
Proof.
  eexists. split; [vm_compute; reflexivity |].
  apply (buildCoverageTree_shape Samples.lexical_compare Samples.jacoco_report).
  vm_compute; reflexivity.
Defined.

(** ** Range compression, piece by piece *)

Section CompressCompose.
Import Coverage Spec.

Lemma show_nonempty (z : Z) : Js.show z <> "".
Proof.
  unfold Js.show. destruct (Z.to_int z) as [d | d]; simpl.
  - destruct d; discriminate.
  - discriminate.
Qed.

Lemma token_nonempty (run : list Z) : run <> [] -> token run <> "".
Proof.
  destruct run as [|x [|y r]]; intros H; [contradiction | apply show_nonempty |].
  unfold token. pose proof (show_nonempty x) as Hx.
  destruct (Js.show x); [contradiction | discriminate].
Qed.

Lemma runs_nonempty (l : list Z) : l <> [] -> runs l <> [].
Proof.
  destruct l as [|x rest]; [contradiction |]. intros _.
  destruct (runs_head x rest) as (run & rs & ->). discriminate.
Qed.

Lemma join_app (sep : string) (a b : list string) :
  a <> [] -> b <> [] ->
  Js.join sep (a ++ b) = (Js.join sep a ++ sep ++ Js.join sep b)%string.
Proof.
  unfold Js.join. intros Ha Hb. induction a as [|x a IH]; [contradiction |].
  destruct a as [|y a].
  - simpl. destruct b; [contradiction | reflexivity].
  - change ((x :: y :: a) ++ b) with (x :: (y :: a) ++ b).
    change (String.concat sep (x :: (y :: a) ++ b))
      with (x ++ sep ++ String.concat sep ((y :: a) ++ b))%string.
    rewrite IH by discriminate.
    change (String.concat sep (x :: y :: a))
      with (x ++ sep ++ String.concat sep (y :: a))%string.
    rewrite !string_append_assoc. reflexivity.
Qed.

Lemma runs_app (l1 l2 : list Z) :
  l1 <> [] -> l2 <> [] -> last l1 0 + 1 <> hd 0 l2 ->
  runs (l1 ++ l2) = runs l1 ++ runs l2.
Proof.
  intros H1 H2. induction l1 as [|x l1 IH]; [contradiction |]. intros Hsep.
  destruct l1 as [|x' r].
  - destruct l2 as [|y l2]; [contradiction |].
    destruct (runs_head y l2) as (run & rs & E).
    change (runs ([x] ++ y :: l2)) with
      (match runs (y :: l2) with
       | (y0 :: run) :: rs =>
           if y0 =? x + 1 then (x :: y0 :: run) :: rs
           else [x] :: (y0 :: run) :: rs
       | _ => [[x]]
       end).
    rewrite E. simpl in Hsep.
    destruct (y =? x + 1) eqn:E'; [apply Z.eqb_eq in E'; lia | reflexivity].
  - change (last (x :: x' :: r) 0) with (last (x' :: r) 0) in Hsep.
    specialize (IH ltac:(discriminate) Hsep).
    destruct (runs_head x' r) as (run & rs & E).
    change (runs ((x :: x' :: r) ++ l2)) with
      (match runs ((x' :: r) ++ l2) with
       | (y0 :: run) :: rs =>
           if y0 =? x + 1 then (x :: y0 :: run) :: rs
           else [x] :: (y0 :: run) :: rs
       | _ => [[x]]
       end).
    change (runs (x :: x' :: r)) with
      (match runs (x' :: r) with
       | (y0 :: run) :: rs =>
           if y0 =? x + 1 then (x :: y0 :: run) :: rs
           else [x] :: (y0 :: run) :: rs
       | _ => [[x]]
       end).
    rewrite IH, E. simpl. destruct (x' =? x + 1); reflexivity.
Qed.

End CompressCompose.

(** [compressLines] gives the empty string only for the empty list: a
    file with uncovered lines never renders as one without. *)
Theorem compressLines_empty_iff (lines : list Z) :
  Coverage.compressLines lines = "" <-> lines = [].
Proof.
  split; [| intros ->; reflexivity].
  rewrite compressLines_compressed. unfold Spec.compressed, Js.join.
  destruct lines as [|x rest]; [reflexivity |]. intros H. exfalso.
  destruct (runs_head x rest) as (run & rs & E). rewrite E in H.
  pose proof (token_nonempty (x :: run) ltac:(discriminate)) as Ht.
  cbn [map] in H. remember (Spec.token (x :: run)) as t eqn:Et. clear Et.
  destruct (map Spec.token rs) as [|t' ts]; cbn [String.concat] in H.
  - exact (Ht H).
  - destruct t; [exact (Ht eq_refl) | discriminate H].
Qed.

(** Two lists that do not continue one another compress independently:
    when the second does not begin one above the end of the first, the
    compression of their concatenation is the two compressions joined by
    a comma. *)
Theorem compressLines_append (l1 l2 : list Z) :
  l1 <> [] -> l2 <> [] -> last l1 0 + 1 <> hd 0 l2 ->
  Coverage.compressLines (l1 ++ l2) =
  (Coverage.compressLines l1 ++ "," ++ Coverage.compressLines l2)%string.
Proof.
  intros H1 H2 Hsep. rewrite !compressLines_compressed. unfold Spec.compressed.
  rewrite (runs_app l1 l2 H1 H2 Hsep), map_app.
  apply join_app.
  - intros E. apply map_eq_nil in E. exact (runs_nonempty l1 H1 E).
  - intros E. apply map_eq_nil in E. exact (runs_nonempty l2 H2 E).
Qed.

Lemma compressLines_append_witness :
  Coverage.compressLines ([1; 2; 3] ++ [7; 9; 10]) =
  (Coverage.compressLines [1; 2; 3] ++ "," ++ Coverage.compressLines [7; 9; 10])%string.
Proof.
  apply (compressLines_append [1; 2; 3] [7; 9; 10]).
  - discriminate.
  - discriminate.
  - simpl. lia.
Defined.

(** ** Splitting a class name *)

Section SplitFacts.

Lemma substring_all (s : string) : substring 0 (String.length s) s = s.
Proof.
  induction s as [|a r IH]; simpl; [reflexivity | rewrite IH; reflexivity].
Qed.

Lemma lastIndexOf_None (c : ascii) (s : string) :
  Js.lastIndexOf c s = None -> ~ In c (list_ascii_of_string s).
Proof.
  induction s as [|a r IH]; simpl; [tauto |].
  destruct (Js.lastIndexOf c r) as [i|]; [discriminate |].
  destruct (Ascii.eqb a c) eqn:E; [discriminate |].
  intros _ [H | H]; [| exact (IH eq_refl H)].
  apply Ascii.eqb_neq in E. contradiction.
Qed.

(** [lastIndexOf] cuts the string at its last occurrence of [c]. *)
Lemma lastIndexOf_Some (c : ascii) (s : string) (i : nat) :
  Js.lastIndexOf c s = Some i ->
  s = (Js.slice_to i s ++ String c (Js.slice_from (i + 1) s))%string /\
  ~ In c (list_ascii_of_string (Js.slice_from (i + 1) s)).
Proof.
  revert i. induction s as [|a r IH]; intros i; simpl; [discriminate |].
  destruct (Js.lastIndexOf c r) as [j|] eqn:L.
  - intros H. injection H as <-.
    destruct (IH j eq_refl) as [E Hno].
    unfold Js.slice_to, Js.slice_from in *. simpl.
    split; [rewrite <- E; reflexivity | exact Hno].
  - destruct (Ascii.eqb a c) eqn:E; [| discriminate].
    apply Ascii.eqb_eq in E. subst a.
    intros H. injection H as <-.
    unfold Js.slice_to, Js.slice_from. simpl.
    rewrite Nat.sub_0_r, substring_all.
    split; [reflexivity | apply lastIndexOf_None, L].
Qed.

Lemma split_nonempty (sep : ascii) (s : string) : Js.split sep s <> [].
Proof.
  destruct s as [|a r]; simpl; [discriminate |].
  destruct (Ascii.eqb a sep); [discriminate |].
  destruct (Js.split sep r); discriminate.
Qed.

Lemma split_no_sep (sep : ascii) (s : string) :
  Forall (fun seg => ~ In sep (list_ascii_of_string seg)) (Js.split sep s).
Proof.
  induction s as [|a r IH]; simpl.
  - constructor; [simpl; tauto | constructor].
  - destruct (Ascii.eqb a sep) eqn:E.
    + constructor; [simpl; tauto | exact IH].
    + apply Ascii.eqb_neq in E.
      destruct (Js.split sep r) as [|h t].
      * constructor; [simpl; tauto | constructor].
      * inversion IH; subst. constructor; [| assumption].
        simpl. intros [H | H]; [congruence | contradiction].
Qed.

Lemma split_without_sep (sep : ascii) (s : string) :
  ~ In sep (list_ascii_of_string s) -> Js.split sep s = [s].
Proof.
  induction s as [|a r IH]; simpl; [reflexivity |].
  intros H. destruct (Ascii.eqb a sep) eqn:E.
  - apply Ascii.eqb_eq in E. tauto.
  - rewrite IH by tauto. reflexivity.
Qed.

Lemma split_app (sep : ascii) (a b : string) :
  Js.split sep (a ++ String sep b) = Js.split sep a ++ Js.split sep b.
Proof.
  induction a as [|ch a IH]; simpl.
  - rewrite Ascii.eqb_refl. reflexivity.
  - destruct (Ascii.eqb ch sep); rewrite IH; [reflexivity |].
    pose proof (split_nonempty sep a) as Hne.
    destruct (Js.split sep a); [contradiction | reflexivity].
Qed.

(** Joining what [split] gives restores the string. *)
Lemma join_split (sep : ascii) (s : string) :
  Js.join (String sep "") (Js.split sep s) = s.
Proof.
  unfold Js.join. induction s as [|a r IH]; simpl; [reflexivity |].
  destruct (Ascii.eqb a sep) eqn:E.
  - apply Ascii.eqb_eq in E. subst a.
    pose proof (split_nonempty sep r) as Hne.
    destruct (Js.split sep r) as [|h t]; [contradiction |].
    simpl in *. rewrite IH. reflexivity.
  - pose proof (split_nonempty sep r) as Hne.
    destruct (Js.split sep r) as [|h t]; [contradiction |].
    destruct t as [|h' t']; simpl in *; rewrite <- IH; reflexivity.
Qed.

End SplitFacts.

(** [splitClassName] cuts a class name at its last dot: the full name is
    the class name as given; the class has no dot in its name; the
    package path is made of non-empty segments without dot; the
    non-empty dot-separated segments of the class name are the package
    path followed by the class (when it is not empty); and when no
    segment is empty, joining path and class with dots gives the class
    name back. *)
Theorem splitClassName_segments (classname : string) :
  let '(pkgPath, className, fullName) := TestsTree.splitClassName classname in
  let nonempty := fun p : string => negb (String.eqb p "") in
  fullName = classname /\
  ~ In "."%char (list_ascii_of_string className) /\
  Forall (fun p => p <> "" /\ ~ In "."%char (list_ascii_of_string p)) pkgPath /\
  filter nonempty (Js.split "."%char classname) =
    pkgPath ++ filter nonempty [className] /\
  (forallb nonempty (Js.split "."%char classname) = true ->
   Js.join "." (pkgPath ++ [className]) = classname).
Proof.
  unfold TestsTree.splitClassName.
  destruct (Js.lastIndexOf "."%char classname) as [i|] eqn:L.
  - destruct (lastIndexOf_Some _ _ _ L) as [E Hno].
    set (pkgStr := Js.slice_to i classname) in *.
    set (className := Js.slice_from (i + 1) classname) in *.
    assert (Hsplit : Js.split "."%char classname =
                     Js.split "."%char pkgStr ++ [className]).
    { rewrite E at 1. rewrite split_app.
      rewrite (split_without_sep _ className Hno). reflexivity. }
    split; [reflexivity |]. split; [exact Hno |]. split; [| split].
    + apply Forall_forall. intros p Hp. apply filter_In in Hp.
      destruct Hp as [Hp Hne]. split.
      * intros ->. discriminate.
      * pose proof (split_no_sep "."%char pkgStr) as Hall.
        rewrite Forall_forall in Hall. apply Hall, Hp.
    + rewrite Hsplit, filter_app. reflexivity.
    + intros Hall. rewrite Hsplit in Hall. rewrite forallb_app in Hall.
      apply andb_true_iff in Hall. destruct Hall as [Hall _].
      assert (Hf : filter (fun p => negb (String.eqb p ""))
                          (Js.split "."%char pkgStr)
                   = Js.split "."%char pkgStr).
      { clear -Hall. induction (Js.split "."%char pkgStr) as [|h t IH];
          [reflexivity |].
        simpl in *. apply andb_true_iff in Hall. destruct Hall as [Hh Ht].
        rewrite Hh, (IH Ht). reflexivity. }
      rewrite Hf, <- Hsplit. apply (join_split "."%char).
  - pose proof (lastIndexOf_None _ _ L) as Hno.
    rewrite (split_without_sep _ classname Hno).
    split; [reflexivity |]. split; [exact Hno |]. split; [constructor |].
    split; reflexivity.
Qed.

(** ** Rendering without the filter *)

Section RenderAll.
Import TestsTree Inv Rendered.

Variable toFixed : Q -> nat -> string.
Variable opts : TestTreeOptions.







Hypothesis no_filter : failuresOnly opts = false.



End RenderAll.




(** ** The earlier aggregator of parseTree.ts *)

Section LegacyAggregator.
Variable cmp : string -> string -> Z.

Lemma in_key_order_totals (t : Coverage.PackageNode) :
  Coverage.node_totals (Legacy.in_key_order cmp t) = Coverage.node_totals t.
Proof. destruct t; reflexivity. Qed.

(** The aggregator of coverage.ts is the one of parseTree.ts followed by
    the sorting of every children map: the four totals of every node are
    the same numbers, only the order of the children differs. *)
Theorem aggregateCoverage_is_legacy_sorted (t : Coverage.PackageNode) :
  Coverage.aggregateCoverage cmp t
  = Legacy.in_key_order cmp (Legacy.aggregateCoverage t).
Proof.
  induction t as [name fullName sfs children lc lm fc fm IH]
    using Coverage.PackageNode_ind.
  assert (Hchildren :
    map (fun kc => (fst kc, Coverage.aggregateCoverage cmp (snd kc))) children
    = map (fun kc => (fst kc, Legacy.in_key_order cmp (snd kc)))
        (map (fun kc => (fst kc, Legacy.aggregateCoverage (snd kc)))
           children)).
  { rewrite map_map. apply map_ext_in. intros kc Hin. simpl.
    rewrite Forall_forall in IH. rewrite (IH kc Hin). reflexivity. }
  assert (Htotals :
    map Coverage.node_totals
      (Js.values
         (map (fun kc => (fst kc, Coverage.aggregateCoverage cmp (snd kc)))
            children))
    = map Coverage.node_totals
        (Js.values
           (map (fun kc => (fst kc, Legacy.aggregateCoverage (snd kc)))
              children))).
  { unfold Js.values. rewrite !map_map. apply map_ext_in. intros kc Hin.
    simpl. rewrite Forall_forall in IH. rewrite (IH kc Hin).
    apply in_key_order_totals. }
  assert (Hfold : forall (l : list Coverage.PackageNode) acc,
    fold_left (fun a child => Coverage.addTotals a (Coverage.node_totals child))
      l acc
    = fold_left Coverage.addTotals (map Coverage.node_totals l) acc).
  { induction l as [| x l IHl]; intros acc; simpl; [reflexivity | apply IHl]. }
  cbn [Coverage.aggregateCoverage Legacy.aggregateCoverage
       Legacy.in_key_order Coverage.pn_children Coverage.pn_sourcefile
       Coverage.pn_name Coverage.pn_fullName Coverage.pn_linesCovered
       Coverage.pn_linesMissed Coverage.pn_funcsCovered
       Coverage.pn_funcsMissed].
  rewrite !Hfold, Htotals, Hchildren. reflexivity.
Qed.

End LegacyAggregator.

(** ** The arguments handed from [test] to [coverage] *)

Section ArgumentsRoundTrip.
Variable toNumber : string -> option Q.
Variable toString : Q -> string.

Lemma parse_from_flag (a : string) (rest : list string)
    (o o' : Args.CoverageOptions) :
  (forall next, Args.step toNumber a next o = (o', false)) ->
  Args.parse_from toNumber (a :: rest) o = Args.parse_from toNumber rest o'.
Proof.
  intros H. destruct rest as [| v rest]; cbn [Args.parse_from].
  - rewrite H. reflexivity.
  - rewrite H. reflexivity.
Qed.

Lemma parse_from_value (a v : string) (rest : list string)
    (o o' : Args.CoverageOptions) :
  Args.step toNumber a (Some v) o = (o', true) ->
  Args.parse_from toNumber (a :: v :: rest) o
  = Args.parse_from toNumber rest o'.
Proof. intros H. cbn [Args.parse_from]. rewrite H. reflexivity. Qed.

Lemma truthy_nonempty (v : string) :
  v <> "" -> Js.truthy (Some v) = true /\ Js.or_else (Some v) "" = v.
Proof.
  intros H. unfold Js.truthy, Js.or_else.
  destruct (String.eqb_spec v ""); [contradiction | split; reflexivity].
Qed.

Lemma mode_of_mode_string (u : Args.UncoveredMode) :
  Args.mode_of (Args.mode_string u) = Some u /\ Args.mode_string u <> "".
Proof. destruct u; split; try reflexivity; discriminate. Qed.

(** Parsing the arguments that [cmdTest] builds gives back its options:
    the coverage command is asked to run Gradle, with the same verbosity,
    spinner setting and thresholds, the same Gradle command when there is
    one, the same directory unless it is empty (then the working directory
    of the process), the same mode for the uncovered lines (or the default
    one), and no report path.  The numbers are assumed to survive being
    printed and read back. *)
Theorem covArgs_parse_back (processCwd : string) (opts : Args.TestOptions) :
  (forall m, Args.to_minLines opts = Some m ->
     toString m <> "" /\ toNumber (toString m) = Some m) ->
  (forall m, Args.to_minFuncs opts = Some m ->
     toString m <> "" /\ toNumber (toString m) = Some m) ->
  Args.parseArgs toNumber processCwd (Args.covArgs toString opts)
  = {| Args.co_path := None;
       Args.co_run := true;
       Args.co_gradle :=
         if Js.truthy (Args.to_gradle opts) then Args.to_gradle opts
         else None;
       Args.co_verbose := Args.to_verbose opts;
       Args.co_noSpinner := Args.to_noSpinner opts;
       Args.co_uncovered := Js.nullish (Args.to_uncovered opts) Args.Auto;
       Args.co_minLines := Args.to_minLines opts;
       Args.co_minFuncs := Args.to_minFuncs opts;
       Args.co_cwd :=
         if String.eqb (Args.to_cwd opts) "" then processCwd
         else Args.to_cwd opts |}.
Proof.
  destruct opts as [cwd g v ns ml mf u]. cbn [Args.to_minLines Args.to_minFuncs
    Args.to_cwd Args.to_gradle Args.to_verbose Args.to_noSpinner
    Args.to_uncovered].
  intros Hml Hmf.
  unfold Args.parseArgs, Args.covArgs.
  cbn [Args.to_minLines Args.to_minFuncs Args.to_cwd Args.to_gradle
       Args.to_verbose Args.to_noSpinner Args.to_uncovered app].
  (* --run *)
  erewrite parse_from_flag; [| intros next; reflexivity].
  (* --cwd <dir> *)
  assert (Hcwd : forall rest o,
    Args.parse_from toNumber ("--cwd" :: cwd :: rest) o
    = Args.parse_from toNumber rest
        (Args.mkCoverageOptions (Args.co_path o) (Args.co_run o)
           (Args.co_gradle o) (Args.co_verbose o) (Args.co_noSpinner o)
           (Args.co_uncovered o) (Args.co_minLines o) (Args.co_minFuncs o)
           (if String.eqb cwd "" then Args.co_cwd o else cwd))).
  { intros rest o. destruct (String.eqb_spec cwd "") as [-> | Hne].
    - change (Args.parse_from toNumber ("--cwd" :: "" :: rest) o)
        with (Args.parse_from toNumber ("" :: rest) o).
      erewrite parse_from_flag; [| intros next; reflexivity].
      destruct o; reflexivity.
    - apply parse_from_value. unfold Args.step.
      destruct (truthy_nonempty cwd Hne) as [-> ->]. reflexivity. }
  rewrite Hcwd. cbn [Args.co_path Args.co_run Args.co_gradle Args.co_verbose
    Args.co_noSpinner Args.co_uncovered Args.co_minLines Args.co_minFuncs
    Args.co_cwd].
  (* --verbose *)
  destruct v; cbn [app];
    [erewrite parse_from_flag; [| intros next; reflexivity] |];
  (* --no-spinner *)
  (destruct ns; cbn [app];
    [erewrite parse_from_flag; [| intros next; reflexivity] |]);
  cbn [Args.co_path Args.co_run Args.co_gradle Args.co_verbose
    Args.co_noSpinner Args.co_uncovered Args.co_minLines Args.co_minFuncs
    Args.co_cwd].
  all: (* --gradle <cmd> *)
    assert (Hg : forall rest o,
      Args.parse_from toNumber
        ((if Js.truthy g then ["--gradle"; Js.or_else g ""] else []) ++ rest) o
      = Args.parse_from toNumber rest
          (Args.mkCoverageOptions (Args.co_path o) (Args.co_run o)
             (if Js.truthy g then g else Args.co_gradle o)
             (Args.co_verbose o) (Args.co_noSpinner o)
             (Args.co_uncovered o) (Args.co_minLines o) (Args.co_minFuncs o)
             (Args.co_cwd o)));
    [ intros rest o; destruct g as [g |];
      [ destruct (String.eqb_spec g "") as [-> | Hne];
        [ destruct o; reflexivity
        | destruct (truthy_nonempty g Hne) as [Ht Ho]; rewrite Ht, Ho;
          cbn [app]; apply parse_from_value; unfold Args.step;
          rewrite Ht, Ho; reflexivity ]
      | destruct o; reflexivity ]
    | rewrite Hg; clear Hg ].
  all: cbn [Args.co_path Args.co_run Args.co_gradle Args.co_verbose
    Args.co_noSpinner Args.co_uncovered Args.co_minLines Args.co_minFuncs
    Args.co_cwd].
  all: (* --min-lines <n> *)
    (destruct ml as [ml |]; cbn [app];
      [ destruct (Hml ml eq_refl) as [Hne Hback];
        erewrite parse_from_value;
        [| unfold Args.step;
           destruct (truthy_nonempty _ Hne) as [-> ->]; reflexivity ]
      |]).
  all: (* --min-funcs <n> *)
    (destruct mf as [mf |]; cbn [app];
      [ destruct (Hmf mf eq_refl) as [Hne' Hback'];
        erewrite parse_from_value;
        [| unfold Args.step;
           destruct (truthy_nonempty _ Hne') as [-> ->]; reflexivity ]
      |]).
  all: (* --uncovered <mode> *)
    (destruct u as [u |]; cbn [app];
      [ destruct (mode_of_mode_string u) as [Hmode Hne''];
        erewrite parse_from_value;
        [| unfold Args.step;
           destruct (truthy_nonempty _ Hne'') as [-> ->]; reflexivity ]
      |]).
  all: cbn [Args.parse_from Args.co_path Args.co_run Args.co_gradle
    Args.co_verbose Args.co_noSpinner Args.co_uncovered Args.co_minLines
    Args.co_minFuncs Args.co_cwd Js.nullish].
  all: try rewrite Hmode; try rewrite Hback; try rewrite Hback';
    cbn [Js.nullish]; destruct (Js.truthy g); reflexivity.
Qed.

End ArgumentsRoundTrip.

Lemma covArgs_parse_back_witness :
  Args.parseArgs Args.sample_toNumber "/work"
    (Args.covArgs Args.sample_toString Args.sample_options)
  = {| Args.co_path := None;
       Args.co_run := true;
       Args.co_gradle := Some "./gradlew";
       Args.co_verbose := true;
       Args.co_noSpinner := false;
       Args.co_uncovered := Args.All;
       Args.co_minLines := Some (80 # 1);
       Args.co_minFuncs := Some (75 # 1);
       Args.co_cwd := "app" |}.
Proof.
  apply (covArgs_parse_back Args.sample_toNumber Args.sample_toString
           "/work" Args.sample_options);
    intros m H; injection H as <-; split;
    [vm_compute; discriminate | reflexivity
    | vm_compute; discriminate | reflexivity].
Defined.

(** ** The rounding against the binary64 of the machine *)

(** On the sample counts, and on the times 0.5005 s and 1/3 s, the
    quotient and the product rounded by [Js.fl] are the binary64 values
    that the division and the multiplication of the machine give. *)
Example fl_is_binary64 :
  map (fun ct =>
         Host.rational
           (PrimFloat.mul
              (PrimFloat.div (Host.number (fst ct)) (Host.number (snd ct)))
              (Host.number 100)))
      Host.counts
  = map (fun ct =>
           Some (Js.mul (Js.div (inject_Z (fst ct)) (inject_Z (snd ct))) 100))
        Host.counts /\
  Host.rational
    (PrimFloat.mul (PrimFloat.div (Host.number 5005) (Host.number 10000))
       (Host.number 1000))
  = Some (Js.mul (Js.fl (5005 # 10000)) 1000) /\
  Host.rational
    (PrimFloat.mul (PrimFloat.div (Host.number 1) (Host.number 3))
       (Host.number 1000))
  = Some (Js.mul (Js.fl (1 # 3)) 1000).
Proof. repeat split; vm_compute; reflexivity. Qed.
